(** * Route ordering and traffic-light timing: a shallow embedding

    The two Python modules of the repository are embedded here:

    - [route_optimizer.py], function [optimize_route] with its three
      ordering strategies (exhaustive search, nearest neighbour followed by
      2-opt, greedy hybrid) and the formatting of its totals; the functions
      [get_daylight_conditions], [get_accident_risk],
      [get_safety_recommendations] and [simulate_traffic_conditions]; and
      [check_for_traffic_updates];
    - [traffic_light_optimizer.py], functions [initialize_traffic_light_map],
      [detect_traffic_lights_on_route], [estimate_traffic_light_delay],
      [optimize_arrival_time], [analyze_route_for_lights] and
      [get_light_timing_for_route].

    The functions that talk to a provider over HTTP ([geocode_address],
    [get_distance_matrix], [get_weather], [get_route_details]) and the
    haversine formula of [calculate_distance] are not embedded; where an
    embedded function calls one of them, its answer is a parameter.

    Numbers.  Python floats are idealised as exact rationals ([Q]): no
    rounding error, no infinity, no NaN, no overflow; the one float whose
    rounding decides an answer, [datetime.timestamp()], is rounded to
    binary64 as Python does.  Integer fields stay
    in [Z]; list positions and waypoint indices are [nat].  A [datetime] is
    the number of microseconds since the Unix epoch (a naive one is read as
    UTC, as the source does), without the bounds of Python's [datetime].
    What the source takes from the Python runtime and not from the
    repository ([math.sqrt], the [random] module, [str.lower], the
    clock) is a Section variable.

    Errors.  A Python exception is [None] in the [option] monad; the
    [try]/[except] around [optimize_route] turns it into the failure marker.
    Loops that Python does not bound (the 2-opt improvement loop) take
    fuel, and running out of fuel is kept apart from raising. *)

From Stdlib Require Import String ZArith QArith Qround Qabs List Bool Lia Lqa.
From Stdlib Require Import Permutation Sorted DecimalString PeanoNat.
From Stdlib Require Import SetoidList SetoidPermutation.
Import ListNotations.

Local Open Scope Q_scope.

(** ** The error monad *)

Definition bind {A B : Type} (m : option A) (k : A -> option B) : option B :=
  match m with
  | Some a => k a
  | None => None
  end.

Notation "x <- m ;; k" := (bind m (fun x => k))
  (at level 61, m at next level, right associativity).

(** [for x in l: acc = step(acc, x)], stopping at the first exception. *)
Fixpoint foldM {A S : Type} (step : S -> A -> option S) (l : list A) (s : S)
  : option S :=
  match l with
  | [] => Some s
  | x :: t => s' <- step s x ;; foldM step t s'
  end.

(** ** Rational helpers for Python's float operations *)

Definition Qltb (x y : Q) : bool :=
  match Qcompare x y with Lt => true | _ => false end.

Definition Qleb (x y : Q) : bool :=
  match Qcompare x y with Gt => false | _ => true end.

(** [int(x)]: truncation towards zero. *)
Definition Qtrunc (x : Q) : Z := Z.quot (Qnum x) (Zpos (Qden x)).

(** [x % m] on floats with [m > 0]: the remainder has the sign of [m]. *)
Definition Qmod (x m : Q) : Q := x - m * inject_Z (Qfloor (x / m)).

(** Rounding to the nearest integer, ties to the even one (what [round],
    the [.1f] format and [timedelta] do). *)
Definition round_half_even (x : Q) : Z :=
  let f := Qfloor x in
  let r := x - inject_Z f in
  match Qcompare r (1 # 2) with
  | Lt => f
  | Gt => (f + 1)%Z
  | Eq => if Z.even f then f else (f + 1)%Z
  end.

(** [str(z)] *)
Definition string_of_Z (z : Z) : string := NilZero.string_of_int (Z.to_int z).

(** [f"{x:.1f}"] *)
Definition format_1f (x : Q) : string :=
  let tenths := round_half_even (Qabs x * 10) in
  ((if Qltb x 0 then "-" else EmptyString)
   ++ string_of_Z (tenths / 10) ++ "." ++ string_of_Z (tenths mod 10))%string.

(** * [route_optimizer.py] *)

Module RouteOptimizer.

Definition coord : Type := Q * Q.
Definition matrix : Type := list (list Q).

(** [m[i][j]]; [IndexError] when out of range. *)
Definition entry (m : matrix) (i j : nat) : option Q :=
  row <- nth_error m i ;; nth_error row j.

(** [l[i] = v]; [IndexError] when out of range. *)
Fixpoint assign {A : Type} (l : list A) (i : nat) (v : A) : option (list A) :=
  match l, i with
  | [], _ => None
  | _ :: t, O => Some (v :: t)
  | x :: t, S i' => t' <- assign t i' v ;; Some (x :: t')
  end.

Definition set_entry (m : matrix) (i j : nat) (v : Q) : option matrix :=
  row <- nth_error m i ;;
  row' <- assign row j v ;;
  assign m i row'.

(** *** Traffic adjustment of the durations (lines 118-137) *)

Definition rush_hour (current_hour : Z) : bool :=
  ((7 <=? current_hour)%Z && (current_hour <=? 9)%Z)
  || ((16 <=? current_hour)%Z && (current_hour <=? 18)%Z).

Definition traffic_multiplier (current_hour : Z) (distances : matrix)
  (i j : nat) : option Q :=
  if rush_hour current_hour then
    dist <- entry distances i j ;;
    let city_center_factor :=
      if Qltb (dist / 30) 1 then dist / 30 else 1 in
    Some (1 + (3 # 10) * (1 - city_center_factor))
  else Some 1.

(** The cells [(i, j)] in the order of the two nested [for] loops. *)
Definition cells (n : nat) : list (nat * nat) :=
  flat_map (fun i => map (pair i) (seq 0 n)) (seq 0 n).

Definition adjust_cell (current_hour : Z) (distances : matrix)
  (durations : matrix) (ij : nat * nat) : option matrix :=
  let '(i, j) := ij in
  if Nat.eqb i j then Some durations
  else
    mult <- traffic_multiplier current_hour distances i j ;;
    x <- entry durations i j ;;
    set_entry durations i j (x * mult).

(** [durations] after the in-place loop [durations[i][j] *= multiplier]. *)
Definition adjust_durations (current_hour : Z) (n : nat)
  (distances durations : matrix) : option matrix :=
  foldM (adjust_cell current_hour distances) (cells n) durations.

(** *** Cost of an order *)

(** [total = 0; for i in range(len(route) - 1): total += m[route[i]][route[i+1]]] *)
Fixpoint sum_edges (m : matrix) (acc : Q) (route : list nat) : option Q :=
  match route with
  | a :: ((b :: _) as t) => x <- entry m a b ;; sum_edges m (acc + x) t
  | _ => Some acc
  end.

Definition route_cost (m : matrix) (route : list nat) : option Q :=
  sum_edges m 0 route.

(** *** Strategy 1: all permutations (lines 140-163) *)

(** Every element of [l] with the others, in the order of [l]. *)
Fixpoint select {A : Type} (l : list A) : list (A * list A) :=
  match l with
  | [] => []
  | x :: t => (x, t) :: map (fun yr => (fst yr, x :: snd yr)) (select t)
  end.

Fixpoint perms_upto {A : Type} (n : nat) (l : list A) : list (list A) :=
  match n with
  | O => [[]]
  | S n' =>
      flat_map (fun xr => map (cons (fst xr)) (perms_upto n' (snd xr)))
               (select l)
  end.

(** [itertools.permutations(l)]: all orderings, lexicographic by position. *)
Definition permutations {A : Type} (l : list A) : list (list A) :=
  perms_upto (length l) l.

(** The loop state: [min_duration] ([None] is [float('inf')]) and
    [best_route_indices] ([None] is Python's [None]). *)
Definition search_state : Type := option Q * option (list nat).

Definition below (x : Q) (bound : option Q) : bool :=
  match bound with
  | None => true
  | Some b => Qltb x b
  end.

Definition try_permutation (durations : matrix) (st : search_state)
  (perm : list nat) : option search_state :=
  let route := 0%nat :: perm in
  total_duration <- route_cost durations route ;;
  if below total_duration (fst st) then Some (Some total_duration, Some route)
  else Some st.

Definition brute_force (durations : matrix) (n : nat) : option search_state :=
  foldM (try_permutation durations) (permutations (seq 1 (n - 1))) (None, None).

(** *** Strategy 2: nearest neighbour, then 2-opt (lines 165-200) *)

(** [min(l, key=key)]: the first element whose key is smallest.
    [ValueError] on an empty [l]; the key may raise. *)
Fixpoint min_from (key : nat -> option Q) (best : nat) (kbest : Q)
  (l : list nat) : option nat :=
  match l with
  | [] => Some best
  | x :: t =>
      kx <- key x ;;
      if Qltb kx kbest then min_from key x kx t else min_from key best kbest t
  end.

Definition py_min (key : nat -> option Q) (l : list nat) : option nat :=
  match l with
  | [] => None
  | x :: t => kx <- key x ;; min_from key x kx t
  end.

(** [l.remove(x)]: drops the first occurrence. *)
Fixpoint remove_first (x : nat) (l : list nat) : list nat :=
  match l with
  | [] => []
  | y :: t => if Nat.eqb x y then t else y :: remove_first x t
  end.

(** The [while unvisited] loop.  [unvisited] is the set [{1..n-1}]; Python
    iterates a set of small integers in increasing order, so it is kept as
    an increasing list.  Every pass removes one index, so [bound] passes
    with [bound = len(unvisited)] are all there can be. *)
Fixpoint nearest_neighbor_loop (bound : nat) (durations : matrix)
  (current : nat) (route_indices unvisited : list nat) : option (list nat) :=
  match unvisited with
  | [] => Some route_indices
  | _ :: _ =>
      match bound with
      | O => None
      | S bound' =>
          nearest <- py_min (fun x => entry durations current x) unvisited ;;
          nearest_neighbor_loop bound' durations nearest
            (route_indices ++ [nearest]) (remove_first nearest unvisited)
      end
  end.

Definition nearest_neighbor (durations : matrix) (n : nat)
  : option (list nat) :=
  nearest_neighbor_loop (n - 1) durations 0%nat [0%nat] (seq 1 (n - 1)).

(** The pairs [(i, j)] of the two [for] loops of one 2-opt scan. *)
Definition scan_pairs (len : nat) : list (nat * nat) :=
  flat_map (fun i => map (pair i) (seq (i + 1) (len - (i + 1))))
           (seq 1 (len - 2)).

(** [durations[route[a]][route[b]]] *)
Definition hop (durations : matrix) (route : list nat) (a b : nat)
  : option Q :=
  x <- nth_error route a ;; y <- nth_error route b ;; entry durations x y.

Definition current_cost (durations : matrix) (route : list nat) (i j : nat)
  : option Q :=
  c1 <- hop durations route (i - 1) i ;;
  c2 <- hop durations route (j - 1) j ;;
  Some (c1 + c2).

Definition new_cost (durations : matrix) (route : list nat) (i j : nat)
  : option Q :=
  c1 <- hop durations route (i - 1) (j - 1) ;;
  c2 <- hop durations route i j ;;
  Some (c1 + c2).

(** One scan: the first pair whose swap lowers the two boundary edges. *)
Fixpoint first_improving (durations : matrix) (route : list nat)
  (pairs : list (nat * nat)) : option (option (nat * nat)) :=
  match pairs with
  | [] => Some None
  | (i, j) :: rest =>
      cc <- current_cost durations route i j ;;
      nc <- new_cost durations route i j ;;
      if Qltb nc cc then Some (Some (i, j))
      else first_improving durations route rest
  end.

(** [route[i:j] = reversed(route[i:j])] *)
Definition reverse_segment (route : list nat) (i j : nat) : list nat :=
  firstn i route ++ rev (firstn (j - i) (skipn i route)) ++ skipn j route.

(** What a run of an unbounded loop can do. *)
Inductive run (A : Type) : Type :=
| Diverged : run A          (* still looping when the fuel ran out *)
| Raised : run A            (* a Python exception *)
| Returned : A -> run A.

Arguments Diverged {A}.
Arguments Raised {A}.
Arguments Returned {A} _.

(** The [while improved] loop: one unit of fuel per scan. *)
Fixpoint two_opt (fuel : nat) (durations : matrix) (route : list nat)
  : run (list nat) :=
  match fuel with
  | O => Diverged
  | S fuel' =>
      match first_improving durations route (scan_pairs (length route)) with
      | None => Raised
      | Some None => Returned route
      | Some (Some (i, j)) =>
          two_opt fuel' durations (reverse_segment route i j)
      end
  end.

(** *** Strategy 3: greedy hybrid (lines 202-249) *)

(** [connecting_score] of [point] among [remaining], seen from [current]. *)
Definition score_step (durations : matrix) (current point : nat)
  (score : nat) (other : nat) : option nat :=
  if Nat.eqb other point then Some score
  else
    direct <- entry durations current other ;;
    d1 <- entry durations current point ;;
    d2 <- entry durations point other ;;
    let via_point := d1 + d2 in
    if Qltb via_point (direct * (12 # 10)) then Some (S score) else Some score.

Definition connecting_score (durations : matrix) (current point : nat)
  (remaining : list nat) : option nat :=
  foldM (score_step durations current point) remaining 0%nat.

(** The [for point in remaining] loop: the first well-connecting point. *)
Fixpoint first_connecting (durations : matrix) (current : nat)
  (remaining candidates : list nat) : option (option nat) :=
  match candidates with
  | [] => Some None
  | point :: rest =>
      score <- connecting_score durations current point remaining ;;
      if Nat.ltb 0 score then Some (Some point)
      else first_connecting durations current remaining rest
  end.

(** The [while remaining] loop.  Every pass removes one or two indices, so
    [len(remaining)] bounds the number of passes. *)
Fixpoint hybrid_loop (bound : nat) (durations : matrix)
  (best_route_indices remaining : list nat) : option (list nat) :=
  match remaining with
  | [] => Some best_route_indices
  | _ :: _ =>
      match bound with
      | O => None
      | S bound' =>
          current <- nth_error best_route_indices
                       (length best_route_indices - 1) ;;
          closest <- py_min (fun x => entry durations current x) remaining ;;
          let best1 := best_route_indices ++ [closest] in
          let remaining1 := remove_first closest remaining in
          if Nat.leb 2 (length remaining1) then
            found <- first_connecting durations current remaining1 remaining1 ;;
            match found with
            | Some point =>
                hybrid_loop bound' durations (best1 ++ [point])
                  (remove_first point remaining1)
            | None => hybrid_loop bound' durations best1 remaining1
            end
          else hybrid_loop bound' durations best1 remaining1
      end
  end.

Definition hybrid (durations : matrix) (n : nat) : option (list nat) :=
  hybrid_loop (n - 1) durations [0%nat] (seq 1 (n - 1)).

(** *** Formatting (lines 262-268) *)

Definition hours_of (route_duration : Q) : Z := Qtrunc (route_duration / 3600).

Definition minutes_of (route_duration : Q) : Z :=
  Qtrunc (Qmod route_duration 3600 / 60).

(** [f"{hours}h {minutes}m"] *)
Definition format_time (hours minutes : Z) : string :=
  (string_of_Z hours ++ "h " ++ string_of_Z minutes ++ "m")%string.

(** *** [optimize_route] *)

(** What [optimize_route] returns.  Python returns the triple
    [(optimized_route, time_str, distance_str)]; the index order
    [best_route_indices] from which [optimized_route] is read off is kept
    with it here, so that properties of the order can be stated. *)
Inductive route_result : Type :=
| Unchanged (coordinates : list coord)      (* [coordinates, 0, 0] *)
| Unavailable                               (* [None, 0, 0] *)
| Optimized (best_route_indices : list nat) (optimized_route : list coord)
            (time_str distance_str : string).

(** Python truthiness of [best_route_indices]. *)
Definition truthy (o : option (list nat)) : bool :=
  match o with
  | Some (_ :: _) => true
  | _ => false
  end.

Definition indices_of (o : option (list nat)) : list nat :=
  match o with
  | Some l => l
  | None => []
  end.

(** Lines 251-270, from [best_route_indices] and [route_duration] on. *)
Definition finish (coordinates : list coord) (distances : matrix)
  (best : option (list nat)) (route_duration : Q) : option route_result :=
  optimized_route <-
    (if truthy best
     then foldM (fun acc i => c <- nth_error coordinates i ;; Some (acc ++ [c]))
                (indices_of best) []
     else Some []) ;;
  total_distance <-
    (if truthy best && negb (Nat.eqb (length distances) 0)
     then route_cost distances (indices_of best)
     else Some 0) ;;
  let hours := if truthy best then hours_of route_duration else 0%Z in
  let minutes := if truthy best then minutes_of route_duration else 0%Z in
  Some (Optimized (indices_of best) optimized_route
                  (format_time hours minutes) (format_1f total_distance)).

(** The body of the [try] block after the matrix has arrived.  The variable
    [route_duration] is set to 0 on entry and assigned again only inside the
    [else] branch of the strategy selection. *)
Definition optimize_body (fuel : nat) (current_hour : Z)
  (coordinates : list coord) (durations0 distances : matrix)
  : run route_result :=
  let n := length coordinates in
  let route_duration := 0 in
  match adjust_durations current_hour n distances durations0 with
  | None => Raised
  | Some durations =>
      let lift (o : option route_result) :=
        match o with Some r => Returned r | None => Raised end in
      if Nat.leb n 6 then
        match brute_force durations n with
        | None => Raised
        | Some (_, best) => lift (finish coordinates distances best route_duration)
        end
      else if Nat.leb n 12 then
        match nearest_neighbor durations n with
        | None => Raised
        | Some route_indices =>
            match two_opt fuel durations route_indices with
            | Diverged => Diverged
            | Raised => Raised
            | Returned best =>
                lift (finish coordinates distances (Some best) route_duration)
            end
        end
      else
        match hybrid durations n with
        | None => Raised
        | Some best =>
            match route_cost durations best with
            | None => Raised
            | Some route_duration =>
                lift (finish coordinates distances (Some best) route_duration)
            end
        end
  end.

(** [optimize_route(coordinates)].  [provider] is what [get_distance_matrix]
    answers ([None] when unavailable) as the pair (durations, distances);
    [current_hour] is [datetime.now().hour].  The result is [None] when the
    2-opt loop is still running after [fuel] scans. *)
Definition optimize_route (fuel : nat) (current_hour : Z)
  (provider : option (matrix * matrix)) (coordinates : list coord)
  : option route_result :=
  if Nat.leb (length coordinates) 1 then Some (Unchanged coordinates)
  else
    match provider with
    | None => Some Unavailable
    | Some (durations, distances) =>
        match optimize_body fuel current_hour coordinates durations distances with
        | Diverged => None
        | Raised => Some Unavailable
        | Returned r => Some r
        end
    end.

End RouteOptimizer.

(** * Further helpers *)

(** [f"{z:02d}"] for [0 <= z], as [strftime] writes hours, minutes and
    seconds. *)
Definition two_digits (z : Z) : string :=
  ((if (z <? 10)%Z then "0" else EmptyString) ++ string_of_Z z)%string.

(** [max(a, b)] and [min(a, b)] on numbers: the first of two equal ones. *)
Definition max2 (a b : Q) : Q := if Qltb a b then b else a.
Definition min2 (a b : Q) : Q := if Qltb b a then b else a.

(** [needle in haystack] on strings. *)
Definition contains (needle haystack : string) : bool :=
  match String.index 0 needle haystack with
  | Some _ => true
  | None => false
  end.

(** [x in l] for a list of strings. *)
Definition among (x : string) (l : list string) : bool :=
  existsb (String.eqb x) l.

(** * [route_optimizer.py]: daylight, accident risk and simulated traffic *)

Module RouteSafety.

(** What the functions read of a [datetime]: [time.month], [time.hour],
    the minute that [strftime('%H:%M')] prints, and [time.weekday()]. *)
Record clock : Type := {
  month : Z;
  hour : Z;
  minute : Z;
  weekday : Z
}.

(** [time.strftime('%H:%M')] *)
Definition strftime_HM (time : clock) : string :=
  (two_digits (hour time) ++ ":" ++ two_digits (minute time))%string.

(** *** [get_daylight_conditions] (lines 336-429) *)

Record daylight : Type := {
  status : string;
  light_level : Q;
  dawn : string;
  sunrise : string;
  noon : string;
  sunset : string;
  dusk : string;
  current_time : string
}.

(** The body of the [try] (lines 357-416); nothing in it raises. *)
Definition daylight_body (time : clock) : option daylight :=
  let current_hour := hour time in
  let '(level, st) :=
    if ((6 <=? current_hour) && (current_hour <? 8))%Z then (4%Z, "dawn"%string)
    else if ((8 <=? current_hour) && (current_hour <? 12))%Z
    then (8%Z, "morning"%string)
    else if ((12 <=? current_hour) && (current_hour <? 17))%Z
    then (9%Z, "afternoon"%string)
    else if ((17 <=? current_hour) && (current_hour <? 19))%Z
    then (4%Z, "dusk"%string)
    else (1%Z, "night"%string) in
  let m := month time in
  let '(dawn_, sunrise_, noon_, sunset_, dusk_) :=
    if ((3 <=? m) && (m <=? 5))%Z
    then ("05:30", "06:00", "12:00", "19:00", "19:30")%string
    else if ((6 <=? m) && (m <=? 8))%Z
    then ("04:30", "05:00", "12:00", "20:00", "20:30")%string
    else if ((9 <=? m) && (m <=? 11))%Z
    then ("06:00", "06:30", "12:00", "18:00", "18:30")%string
    else ("06:30", "07:00", "12:00", "17:00", "17:30")%string in
  Some {| status := st;
          light_level := inject_Z level;       (* [round(light_level, 1)] *)
          dawn := dawn_; sunrise := sunrise_; noon := noon_;
          sunset := sunset_; dusk := dusk_;
          current_time := strftime_HM time |}.

(** [get_daylight_conditions(lat, lon, time)]; the coordinates are not
    read. *)
Definition get_daylight_conditions (lat lon : Q) (time : clock) : daylight :=
  match daylight_body time with
  | Some r => r
  | None =>
      {| status := "unknown"; light_level := 5;
         dawn := "06:00"; sunrise := "07:00"; noon := "12:00";
         sunset := "19:00"; dusk := "20:00";
         current_time := strftime_HM time |}
  end.

(** *** [get_safety_recommendations] (lines 538-566) *)

(** [risks] *)
Record factors : Type := {
  low_light_risk : Q;
  weather_risk : Q;
  time_of_day_risk : Q;
  road_complexity_risk : Q
}.

Definition high_risk_line : string :=
  "Zachowaj szczególną ostrożność - wysoki poziom ryzyka na trasie.".
Definition low_light_line : string :=
  "Słaba widoczność z powodu zmroku lub nocy - włącz pełne oświetlenie.".
Definition weather_line : string :=
  "Trudne warunki pogodowe - dostosuj prędkość do warunków.".
Definition visibility_line : string :=
  "Krytycznie niska widoczność - rozważ opóźnienie podróży jeśli to możliwe.".
Definition morning_line : string :=
  "Poranny szczyt - spodziewaj się większego natężenia ruchu.".
Definition afternoon_line : string :=
  "Popołudniowy szczyt - spodziewaj się większego natężenia ruchu.".
Definition history_line : string :=
  "Ten odcinek ma historię zwiększonej liczby wypadków.".
Definition normal_line : string :=
  "Normalne warunki jazdy - zachowaj standardowe środki ostrożności.".

(** [if c: recommendations.append(line)] *)
Definition append_if (c : bool) (line : string) (l : list string)
  : list string :=
  if c then l ++ [line] else l.

(** [local_hour] is [datetime.now().hour], the hour of the local clock. *)
Definition get_safety_recommendations (local_hour : Z) (risk_score : Q)
  (risk_factors : factors) (is_dark poor_visibility : bool) : list string :=
  let r0 := append_if (Qltb 7 risk_score) high_risk_line [] in
  let r1 := append_if (Qltb (15 # 10) (low_light_risk risk_factors))
              low_light_line r0 in
  let r2 := append_if (Qltb (15 # 10) (weather_risk risk_factors))
              weather_line r1 in
  let r3 := append_if (is_dark && poor_visibility) visibility_line r2 in
  let r4 :=
    if Qltb (15 # 10) (time_of_day_risk risk_factors) then
      if (local_hour <? 12)%Z then r3 ++ [morning_line]
      else r3 ++ [afternoon_line]
    else r3 in
  let r5 := append_if (Qltb (15 # 10) (road_complexity_risk risk_factors))
              history_line r4 in
  if (length r5 =? 0)%nat then r5 ++ [normal_line] else r5.

(** *** [get_accident_risk] (lines 431-536) *)

(** Of the dictionary of [get_weather] only ['condition'] is read; the
    provider sends a string there. *)
Record weather_data : Type := { condition : string }.

Record risk_info : Type := {
  risk_score : Q;
  risk_level : string;
  risk_factors : factors;
  light_conditions : string;
  risk_light_level : Q;
  visibility_reduced : bool;
  recommendations : list string
}.

Section Runtime.

(** [str.lower], the [random] module, the answer of the weather provider
    (HTTP, [None] when there is none), the local hour of
    [datetime.now()] and [time.time()]. *)
Variable lower : string -> string.
Variable rng_state : Type.
Variable seed : Z -> rng_state.
Variable random : rng_state -> Q * rng_state.
Variable uniform : Q -> Q -> rng_state -> Q * rng_state.
Variable get_weather : Q * Q -> option weather_data.
Variable local_hour : Z.
Variable time_time : Q.

(** [scaled_risk] (lines 518-526) *)
Definition scale_risk (risks : factors) : Q :=
  let total_risk :=
    low_light_risk risks * (15 # 10) + weather_risk risks * (13 # 10)
    + time_of_day_risk risks * 1 + road_complexity_risk risks * (12 # 10) in
  min2 10 (max2 0 (total_risk * (11 # 10))).

(** [get_accident_risk(lat, lon, time)]; it leaves the generator reseeded
    from the coordinates and advanced by one draw. *)
Definition get_accident_risk (lat lon : Q) (time : clock)
  : risk_info * rng_state :=
  let light_info := get_daylight_conditions lat lon time in
  let level := light_level light_info in
  let '(weather_condition, reduced) :=
    match get_weather (lon, lat) with
    | Some weather =>
        let c := lower (condition weather) in
        (c, existsb (fun cond => contains cond c)
              ["rain"; "snow"; "fog"; "mist"; "drizzle"; "thunderstorm"]%string)
    | None => ("clear"%string, false)
    end in
  let low_light :=
    if Qltb level 3 then 3 else if Qltb level 6 then 2 else 0 in
  let weather_r :=
    if among weather_condition ["thunderstorm"; "snow"; "blizzard"]%string
    then 3
    else if among weather_condition ["rain"; "drizzle"; "fog"; "mist"]%string
    then 2
    else if among weather_condition ["clouds"; "cloudy"]%string
    then 5 # 10
    else 0 in
  let h := hour time in
  let time_r :=
    if (((7 <=? h) && (h <=? 9)) || ((16 <=? h) && (h <=? 18)))%Z then 2
    else if ((23 <=? h) || (h <=? 4))%Z then 25 # 10
    else 1 in
  let seed_value := Qtrunc (Qmod (lat * 1000 + lon * 1000) 100000) in
  let '(complexity, g) := uniform 0 2 (seed seed_value) in
  let risks :=
    {| low_light_risk := low_light; weather_risk := weather_r;
       time_of_day_risk := time_r; road_complexity_risk := complexity |} in
  let scaled_risk := scale_risk risks in
  ({| risk_score := inject_Z (round_half_even (scaled_risk * 10)) / 10;
      risk_level :=
        if Qltb 7 scaled_risk then "high"
        else if Qltb 4 scaled_risk then "medium" else "low";
      risk_factors := risks;
      light_conditions := status light_info;
      risk_light_level := level;
      visibility_reduced := reduced;
      recommendations :=
        get_safety_recommendations local_hour scaled_risk risks
          (Qltb level 5) reduced |}, g).

(** *** [simulate_traffic_conditions] (lines 568-651) *)

(** The body of the [try] (lines 590-642) at the instant [current_time]. *)
Definition simulate_body (start end_ : Q * Q) (current_time : clock)
  : option (Z * rng_state) :=
  let current_hour := hour current_time in
  let mid_lat := (snd start + snd end_) / 2 in
  let mid_lon := (fst start + fst end_) / 2 in
  let light_info := get_daylight_conditions mid_lat mid_lon current_time in
  let '(risk, _) := get_accident_risk mid_lat mid_lon current_time in
  let base_probability :=
    if ((7 <=? current_hour) && (current_hour <=? 9))%Z then 7 # 10
    else if ((16 <=? current_hour) && (current_hour <=? 19))%Z then 8 # 10
    else if ((10 <=? current_hour) && (current_hour <=? 15))%Z then 3 # 10
    else if ((20 <=? current_hour) && (current_hour <=? 23))%Z then 2 # 10
    else 1 # 10 in
  let base_probability :=
    if Qltb (light_level light_info) 3 then base_probability - (1 # 10)
    else base_probability in
  let base_probability :=
    if visibility_reduced risk then base_probability + (15 # 100)
    else base_probability in
  let road_complexity := road_complexity_risk (risk_factors risk) in
  let base_probability :=
    if Qltb 1 road_complexity then base_probability + (1 # 10)
    else base_probability in
  let day_of_week := weekday current_time in
  let base_probability :=
    if (5 <=? day_of_week)%Z then base_probability * (7 # 10)
    else base_probability in
  let '(r, g) := random (seed (Qtrunc (time_time * 1000) mod 100000)%Z) in
  let random_factor := r * (3 # 10) - (15 # 100) in
  let probability := max2 0 (min2 1 (base_probability + random_factor)) in
  Some (if Qltb probability (2 # 10) then 0%Z
        else if Qltb probability (5 # 10) then 1%Z
        else if Qltb probability (8 # 10) then 2%Z
        else 3%Z, g).

(** [simulate_traffic_conditions(start, end)] at the instant
    [current_time = datetime.now(pytz.UTC)], from the generator state
    [g0]. *)
Definition simulate_traffic_conditions (start end_ : Q * Q)
  (current_time : clock) (g0 : rng_state) : Z * rng_state :=
  let current_hour := hour current_time in
  match simulate_body start end_ current_time with
  | Some r => r
  | None =>
      (if (((7 <=? current_hour) && (current_hour <=? 9))
           || ((16 <=? current_hour) && (current_hour <=? 19)))%Z
       then 2%Z else 1%Z, g0)
  end.

End Runtime.

Arguments get_accident_risk _ {rng_state}.
Arguments simulate_body _ {rng_state}.
Arguments simulate_traffic_conditions _ {rng_state}.

End RouteSafety.

(** * [route_optimizer.py]: the check for traffic updates *)

Module RouteUpdates.

(** A segment of a route, as far as [check_for_traffic_updates] reads it:
    the keys ['geometry'] and ['duration'] may be absent; [weather] is the
    ['location_name'] of the ['weather'] entry when the key is there and
    its value is not empty. *)
Record segment : Type := {
  geometry : option (list (Q * Q));
  duration : option Q;
  weather : option string
}.

(** The answer of [get_route_details], of which ['segments'] is read. *)
Record route_details : Type := { segments : list segment }.

(** [route_data] *)
Record route_data : Type := {
  timestamp : option Q;
  coordinates : option (list (Q * Q));
  old_details : option (option (list segment))
    (* ['route_details'], and in it ['segments'] *)
}.

(** An entry of [duration_changes]. *)
Record change : Type := {
  change_segment : nat;
  old_duration : Q;
  new_duration : Q;
  change_percent : Q;
  increased : bool
}.

Inductive update : Type :=
| NoCheck (reason : string)                  (* ['needs_update': False] *)
| Refresh (reason : string) (new_route : route_details)
| Compared (needs_update : bool) (reason : string) (max_change_percent : Q)
    (changed_segment : Z) (duration_changes : list change)
    (new_route : option route_details).

(** [duration_changes], [max_change_percent], [changed_segment_idx] *)
Record comparison : Type := {
  changes : list change;
  max_change : Q;
  changed_idx : Z
}.

(** One pass of the loop of lines 1035-1057. *)
Definition compare_segments (st : comparison)
  (item : nat * (segment * segment)) : comparison :=
  let '(i, (old_segment, new_segment)) := item in
  match duration old_segment, duration new_segment with
  | Some old_d, Some new_d =>
      if Qeq_bool old_d 0 then st
      else
        let percent := Qabs (new_d - old_d) / old_d * 100 in
        {| changes :=
             changes st ++
             [{| change_segment := i; old_duration := old_d;
                 new_duration := new_d; change_percent := percent;
                 increased := Qltb old_d new_d |}];
           max_change :=
             if Qltb (max_change st) percent then percent else max_change st;
           changed_idx :=
             if Qltb (max_change st) percent then Z.of_nat i
             else changed_idx st |}
  | _, _ => st
  end.

(** [enumerate(zip(a, b))] *)
Definition enumerate_zip {A B : Type} (a : list A) (b : list B)
  : list (nat * (A * B)) :=
  combine (seq 0 (length (combine a b))) (combine a b).

(** [[segment['geometry'][0] for segment in segments]] *)
Definition first_points (segs : list segment) : option (list (Q * Q)) :=
  foldM (fun acc s =>
           g <- geometry s ;;
           p <- nth_error g 0 ;;
           Some (acc ++ [p])) segs [].

(** Lines 1062-1083. *)
Definition reason_text (needs_update : bool) (segs new_segs : list segment)
  (idx : Z) : option string :=
  if needs_update && (0 <=? idx)%Z then
    old_segment <- nth_error segs (Z.to_nat idx) ;;
    new_segment <- nth_error new_segs (Z.to_nat idx) ;;
    let to_location :=
      match (if (idx <? Z.of_nat (length segs) - 1)%Z
             then nth_error segs (Z.to_nat (idx + 1)) else None) with
      | Some {| weather := Some name |} => name
      | _ => ("point " ++ string_of_Z (idx + 2))%string
      end in
    old_d <- duration old_segment ;;
    new_d <- duration new_segment ;;
    let diff_minutes := (Qtrunc (new_d / 60) - Qtrunc (old_d / 60))%Z in
    if (0 <? diff_minutes)%Z then
      Some ("Traffic increased on the route to " ++ to_location ++ " (+"
            ++ string_of_Z diff_minutes ++ " min)")%string
    else
      Some ("Traffic decreased on the route to " ++ to_location ++ " ("
            ++ string_of_Z diff_minutes ++ " min)")%string
  else Some "No significant traffic changes"%string.

Section Runtime.

(** [time.time()] and [get_route_details] (HTTP). *)
Variable time_time : Q.
Variable get_route_details : list (Q * Q) -> route_details.

(** [check_for_traffic_updates(route_data, threshold_percent)] *)
Definition check_for_traffic_updates (data : route_data)
  (threshold_percent : Q) : option update :=
  let stale :=
    match timestamp data with
    | None => true
    | Some t => Qltb 600 (time_time - t)
    end in
  if stale then
    match coordinates data with
    | None => Some (NoCheck "No coordinates available to check for updates")
    | Some c =>
        Some (Refresh "Route information is outdated" (get_route_details c))
    end
  else
    match old_details data with
    | Some (Some segs) =>
        coords <- first_points segs ;;
        let updated_route := get_route_details coords in
        let st :=
          fold_left compare_segments
            (enumerate_zip segs (segments updated_route))
            {| changes := []; max_change := 0; changed_idx := (-1)%Z |} in
        let needs_update := Qleb threshold_percent (max_change st) in
        reason <- reason_text needs_update segs (segments updated_route)
                    (changed_idx st) ;;
        Some (Compared needs_update reason (max_change st)
                (if needs_update then changed_idx st else (-1)%Z)
                (changes st)
                (if needs_update then Some updated_route else None))
    | _ =>
        match coordinates data with
        | None =>
            Some (NoCheck "No route details available to check for updates")
        | Some c =>
            Some (Refresh "Route information needs to be refreshed"
                    (get_route_details c))
        end
    end.

End Runtime.

End RouteUpdates.

(** * [traffic_light_optimizer.py] *)

Module TrafficLight.

Definition point : Type := Q * Q.         (* [lon, lat] *)
Definition datetime : Type := Z.          (* microseconds since the epoch *)

Inductive intersection_type : Type :=
| small_intersection
| medium_intersection
| large_intersection
| complex_intersection.

(** [TRAFFIC_LIGHT_CYCLES[t]['min']] and [['max']] *)
Definition cycle_min (t : intersection_type) : Z :=
  match t with
  | small_intersection => 45
  | medium_intersection => 60
  | large_intersection => 90
  | complex_intersection => 120
  end.

Definition cycle_max (t : intersection_type) : Z :=
  match t with
  | small_intersection => 60
  | medium_intersection => 90
  | large_intersection => 120
  | complex_intersection => 180
  end.

Inductive status : Type := green | yellow | red.

Definition status_eqb (a b : status) : bool :=
  match a, b with
  | green, green | yellow, yellow | red, red => true
  | _, _ => false
  end.

(** [TRAFFIC_LIGHT_DELAYS] *)
Definition delay_green : Z := 0.
Definition delay_red_start : Z := 30.
Definition delay_red_middle : Z := 20.
Definition delay_red_end : Z := 5.
Definition delay_yellow : Z := 5.

(** The dictionary kept for every light. *)
Record light_info : Type := {
  type : intersection_type;
  cycle_time : Z;
  offset : Z;
  green_time : Z;
  yellow_time : Z;
  coordinates : point
}.

(** A key of [TRAFFIC_LIGHT_MAP]: the rounded [(lon, lat)].  Python
    compares the two floats with [==]. *)
Definition key_eqb (a b : point) : bool :=
  Qeq_bool (fst a) (fst b) && Qeq_bool (snd a) (snd b).

Definition light_map : Type := list (point * light_info).

(** [m[k] = v]: an existing key keeps its place, a new one goes last. *)
Fixpoint dict_set (m : light_map) (k : point) (v : light_info) : light_map :=
  match m with
  | [] => [(k, v)]
  | (k', v') :: t =>
      if key_eqb k' k then (k', v) :: t else (k', v') :: dict_set t k v
  end.

(** [round(x, 5)] *)
Definition round5 (x : Q) : Q := inject_Z (round_half_even (x * 100000)) / 100000.

Definition Qmax_py (a b : Q) : Q := if Qltb a b then b else a.   (* [max(a, b)] *)
Definition Qmin_py (a b : Q) : Q := if Qltb b a then b else a.   (* [min(a, b)] *)
Definition Zmax_py (a b : Z) : Z := if (a <? b)%Z then b else a.
Definition Zmin_py (a b : Z) : Z := if (b <? a)%Z then b else a.

(** *** [estimate_traffic_light_delay] (lines 190-243) *)

(** [2 ** k] for an integer [k]. *)
Definition pow2 (k : Z) : Q :=
  if (0 <=? k)%Z then inject_Z (2 ^ k) else 1 / inject_Z (2 ^ (- k)).

(** For [0 < x], the integer [k] with [2 ** k <= x < 2 ** (k + 1)]. *)
Definition ilog2 (x : Q) : Z :=
  let k := (Z.log2 (Qnum x) - Z.log2 (Zpos (Qden x)))%Z in
  if Qltb x (pow2 k) then (k - 1)%Z else k.

(** For [0 < a], the binary64 number nearest to [a], ties to the even
    mantissa: 53 bits of mantissa, exponents from -1074 on. *)
Definition round_magnitude (a : Q) : Q :=
  let e := Z.max (ilog2 a - 52) (-1074) in
  inject_Z (round_half_even (a / pow2 e)) * pow2 e.

(** Rounding to binary64, to the nearest with ties to even.  No overflow
    to infinity: the instants of a [datetime] stay far below it. *)
Definition round_binary64 (x : Q) : Q :=
  if Qeq_bool x 0 then 0
  else (if Qltb x 0 then -(1) else 1) * round_magnitude (Qabs x).

(** [arrival_time.timestamp()]: the microseconds since the epoch divided
    by [10**6], a division of integers that Python rounds correctly to a
    float. *)
Definition timestamp (t : datetime) : Q :=
  round_binary64 (inject_Z t / 1000000).

(** [a % b] on integers; [ZeroDivisionError] when [b] is 0. *)
Definition py_mod (a b : Z) : option Z :=
  if (b =? 0)%Z then None else Some (a mod b)%Z.

(** [a / b] on integers, a float; [ZeroDivisionError] when [b] is 0. *)
Definition py_div (a b : Z) : option Q :=
  if (b =? 0)%Z then None else Some (inject_Z a / inject_Z b).

Definition estimate_traffic_light_delay (light : light_info)
  (arrival_time : datetime) : option (Z * status) :=
  let seconds_since_epoch := timestamp arrival_time in
  cycle_position <-
    py_mod (Qtrunc seconds_since_epoch + offset light) (cycle_time light) ;;
  let red_time := (cycle_time light - green_time light - yellow_time light)%Z in
  if (cycle_position <? green_time light)%Z then Some (delay_green, green)
  else if (cycle_position <? green_time light + yellow_time light)%Z
  then Some (delay_yellow, yellow)
  else
    let red_position :=
      (cycle_position - green_time light - yellow_time light)%Z in
    red_fraction <- py_div red_position red_time ;;
    if Qltb red_fraction (25 # 100) then Some (delay_red_start, red)
    else if Qltb red_fraction (75 # 100) then Some (delay_red_middle, red)
    else Some (delay_red_end, red).

(** *** [optimize_arrival_time] (lines 245-341) *)

(** [timedelta(seconds=x)], in microseconds. *)
Definition timedelta_seconds (x : Q) : Z := round_half_even (x * 1000000).

(** The dictionaries the function returns. *)
Record advice : Type := {
  optimized : bool;
  message : string;
  suggested_speed : Q;
  suggested_speed_kmh : option Q;     (* absent when already green *)
  current_speed_kmh : option Q;       (* absent when already green *)
  time_saved : Z;
  current_status : status;
  arrival_time : datetime
}.

Inductive advisory : Type :=
| CannotAdvise (message : string)       (* ["success": False] *)
| Advice (a : advice).                  (* ["success": True] *)

Definition success (r : advisory) : bool :=
  match r with
  | CannotAdvise _ => false
  | Advice _ => true
  end.

(** [best_speed], [best_delay], [best_status], [best_arrival] *)
Record best : Type := {
  best_speed : Q;
  best_delay : Z;
  best_status : status;
  best_arrival : datetime
}.

(** [[min_speed + 0.5*i for i in range(int((max_speed-min_speed)/0.5)+1)]] *)
Definition test_speeds (min_speed max_speed : Q) : list Q :=
  map (fun i => min_speed + (5 # 10) * inject_Z (Z.of_nat i))
      (seq 0 (Z.to_nat (Qtrunc ((max_speed - min_speed) / (5 # 10)) + 1))).

(** The [for test_speed in ...] loop with its [break]. *)
Fixpoint search (light : light_info) (current_time : datetime)
  (distance_to_light : Q) (speeds : list Q) (b : best) : option best :=
  match speeds with
  | [] => Some b
  | test_speed :: rest =>
      let test_arrival_time :=
        (current_time + timedelta_seconds (distance_to_light / test_speed))%Z in
      ds <- estimate_traffic_light_delay light test_arrival_time ;;
      let '(test_delay, test_status) := ds in
      let b' :=
        if (test_delay <? best_delay b)%Z
        then {| best_speed := test_speed; best_delay := test_delay;
                best_status := test_status; best_arrival := test_arrival_time |}
        else b in
      if status_eqb test_status green then Some b'
      else search light current_time distance_to_light rest b'
  end.

(** [f"{action} do {kmh:.1f} km/h aby trafić na lepszą fazę świateł"] *)
Definition adjust_message (action : string) (kmh : Q) : string :=
  (action ++ " do " ++ format_1f kmh
   ++ " km/h aby trafić na lepszą fazę świateł")%string.

Definition optimize_arrival_time (light : light_info) (current_time : datetime)
  (current_speed distance_to_light : Q) : option advisory :=
  if Qleb current_speed 0 then
    Some (CannotAdvise "Brak danych o prędkości")
  else
    let base_arrival_time :=
      (current_time + timedelta_seconds (distance_to_light / current_speed))%Z in
    ds <- estimate_traffic_light_delay light base_arrival_time ;;
    let '(base_delay, base_status) := ds in
    if status_eqb base_status green then
      Some (Advice
        {| optimized := false;
           message :=
             "Aktualna prędkość jest optymalna, trafisz na zielone światło";
           suggested_speed := current_speed;
           suggested_speed_kmh := None;
           current_speed_kmh := None;
           time_saved := 0;
           current_status := base_status;
           arrival_time := base_arrival_time |})
    else
      let min_speed := Qmax_py (current_speed * (8 # 10)) 5 in
      let max_speed := Qmin_py (current_speed * (12 # 10)) 30 in
      b <- search light current_time distance_to_light
             (test_speeds min_speed max_speed)
             {| best_speed := current_speed; best_delay := base_delay;
                best_status := base_status; best_arrival := base_arrival_time |} ;;
      let time_saved := (base_delay - best_delay b)%Z in
      let best_speed_kmh := best_speed b * (36 # 10) in
      let current_speed_kmh := current_speed * (36 # 10) in
      let '(message, optimized) :=
        if Qeq_bool (best_speed b) current_speed then
          ("Nie można zoptymalizować czasu przybycia, utrzymaj obecną prędkość"%string,
           false)
        else
          let action :=
            if Qltb current_speed (best_speed b) then "przyspiesz"%string
            else "zwolnij"%string in
          (adjust_message action best_speed_kmh, true) in
      Some (Advice
        {| optimized := optimized;
           message := message;
           suggested_speed := best_speed b;
           suggested_speed_kmh := Some best_speed_kmh;
           current_speed_kmh := Some current_speed_kmh;
           time_saved := time_saved;
           current_status := best_status b;
           arrival_time := best_arrival b |}).

(** *** The map of lights and the detection of lights on a route *)

(** An entry of the list [detect_traffic_lights_on_route] returns; its
    [coordinates] are the key of the light. *)
Record found_light : Type := {
  found_coordinates : point;
  distance_along_route : Q;
  route_point_index : nat;
  found_cycle_time : Z;
  found_type : intersection_type;
  found_offset : Z;
  found_green_time : Z;
  found_yellow_time : Z
}.

(** [found_lights.sort(key=lambda x: x['distance_along_route'])]: a stable
    sort, ascending. *)
Fixpoint insert_by_distance (x : found_light) (l : list found_light)
  : list found_light :=
  match l with
  | [] => [x]
  | y :: t =>
      if Qltb (distance_along_route x) (distance_along_route y)
      then x :: y :: t
      else y :: insert_by_distance x t
  end.

Definition sort_by_distance (l : list found_light) : list found_light :=
  fold_left (fun acc x => insert_by_distance x acc) l [].

Section Runtime.

(** [math.sqrt] and the global generator of the [random] module. *)
Variable sqrt : Q -> Q.
Variable rng_state : Type.
Variable seed : Z -> rng_state.                       (* [random.seed(n)] *)
Variable random : rng_state -> Q * rng_state.         (* [random.random()] *)
Variable randint : Z -> Z -> rng_state -> Z * rng_state.

(** The state of the process: the module's [TRAFFIC_LIGHT_MAP] and the
    generator. *)
Record world : Type := {
  TRAFFIC_LIGHT_MAP : light_map;
  generator : rng_state
}.

Definition classify (distance_ratio : Q) : intersection_type :=
  if Qltb distance_ratio (2 # 10) then complex_intersection
  else if Qltb distance_ratio (4 # 10) then large_intersection
  else if Qltb distance_ratio (7 # 10) then medium_intersection
  else small_intersection.

(** One pass of the [for _ in range(num_lights)] loop (lines 70-107). *)
Definition generate_light (min_lon min_lat max_lon max_lat : Q)
  (center_lon center_lat : Q) (w : world) : world :=
  let '(distance_factor, g1) := random (generator w) in
  let '(r2, g2) := random g1 in
  let lon := min_lon + (max_lon - min_lon) * ((5 # 10) + (r2 - (5 # 10)) * distance_factor) in
  let '(r3, g3) := random g2 in
  let lat := min_lat + (max_lat - min_lat) * ((5 # 10) + (r3 - (5 # 10)) * distance_factor) in
  let distance_to_center :=
    sqrt ((lon - center_lon) * (lon - center_lon)
          + (lat - center_lat) * (lat - center_lat)) in
  let max_distance :=
    sqrt ((max_lon - center_lon) * (max_lon - center_lon)
          + (max_lat - center_lat) * (max_lat - center_lat)) in
  let distance_ratio :=
    if Qltb 0 max_distance then distance_to_center / max_distance else 0 in
  let intersection_type := classify distance_ratio in
  let '(cycle, g4) :=
    randint (cycle_min intersection_type) (cycle_max intersection_type) g3 in
  let '(off, g5) := randint 0 (cycle - 1) g4 in
  {| TRAFFIC_LIGHT_MAP :=
       dict_set (TRAFFIC_LIGHT_MAP w) (round5 lon, round5 lat)
         {| type := intersection_type;
            cycle_time := cycle;
            offset := off;
            green_time := Qtrunc (inject_Z cycle * (4 # 10));
            yellow_time := 3;
            coordinates := (lon, lat) |};
     generator := g5 |}.

Fixpoint repeat_generate (k : nat) (min_lon min_lat max_lon max_lat : Q)
  (center_lon center_lat : Q) (w : world) : world :=
  match k with
  | O => w
  | S k' =>
      repeat_generate k' min_lon min_lat max_lon max_lat center_lon center_lat
        (generate_light min_lon min_lat max_lon max_lat center_lon center_lat w)
  end.

(** [initialize_traffic_light_map(region_bounds)] with
    [region_bounds = [[min_lon, min_lat], [max_lon, max_lat]]]; the map it
    returns is the [TRAFFIC_LIGHT_MAP] of the world it leaves. *)
Definition initialize_traffic_light_map (region_bounds : point * point)
  (w : world) : world :=
  let '((min_lon, min_lat), (max_lon, max_lat)) := region_bounds in
  let seed_val :=
    (Qtrunc ((min_lon + max_lon + min_lat + max_lat) * 1000) mod 100000)%Z in
  let w0 := {| TRAFFIC_LIGHT_MAP := []; generator := seed seed_val |} in
  let center_lon := (min_lon + max_lon) / 2 in
  let center_lat := (min_lat + max_lat) / 2 in
  let area_size := (max_lon - min_lon) * (max_lat - min_lat) in
  let num_lights := Qtrunc (area_size * 50000) in
  let num_lights := Zmax_py 10 (Zmin_py 100 num_lights) in
  repeat_generate (Z.to_nat num_lights) min_lon min_lat max_lon max_lat
    center_lon center_lat w0.

(** [min(l)] and [max(l)] of a list of floats; [ValueError] when empty. *)
Definition list_min (l : list Q) : option Q :=
  match l with
  | [] => None
  | x :: t => Some (fold_left (fun m y => if Qltb y m then y else m) t x)
  end.

Definition list_max (l : list Q) : option Q :=
  match l with
  | [] => None
  | x :: t => Some (fold_left (fun m y => if Qltb m y then y else m) t x)
  end.

(** [math.sqrt((p[0] - q[0])**2 + (p[1] - q[1])**2)] *)
Definition planar_distance (p q : point) : Q :=
  sqrt ((fst p - fst q) * (fst p - fst q) + (snd p - snd q) * (snd p - snd q)).

(** The loop of lines 149-155 over [route_geometry[1:]]: [prev_point]
    starts as [None], [route_distance] as 0 and [route_distances] holds the
    0 of the first point. *)
Fixpoint distances_loop (points : list point) (prev_point : option point)
  (route_distance : Q) (route_distances : list Q) : list Q :=
  match points with
  | [] => route_distances
  | p :: rest =>
      let route_distance' :=
        match prev_point with
        | Some prev => route_distance + planar_distance p prev
        | None => route_distance
        end in
      distances_loop rest (Some p) route_distance'
        (route_distances ++ [route_distance'])
  end.

Definition route_distances (route_geometry : list point) : list Q :=
  distances_loop (tl route_geometry) None 0 [0].

(** The state of the double loop: [found_lights] and [checked_lights]. *)
Definition detection : Type := list found_light * list point.

Definition checked (k : point) (checked_lights : list point) : bool :=
  existsb (key_eqb k) checked_lights.

(** The body of the inner loop (lines 162-182) for the route point [p] at
    index [i] and one item of the map. *)
Definition check_light (radius_deg : Q) (distances : list Q) (i : nat)
  (p : point) (st : detection) (item : point * light_info)
  : option detection :=
  let '(found_lights, checked_lights) := st in
  let '(light_coords, info) := item in
  let '(light_lon, light_lat) := light_coords in
  if Qleb (Qabs (fst p - light_lon)) radius_deg
     && Qleb (Qabs (snd p - light_lat)) radius_deg
     && negb (checked light_coords checked_lights)
  then
    let distance := planar_distance p light_coords in
    if Qleb distance radius_deg then
      along <- nth_error distances i ;;
      Some (found_lights ++
              [{| found_coordinates := (light_lon, light_lat);
                  distance_along_route := along;
                  route_point_index := i;
                  found_cycle_time := cycle_time info;
                  found_type := type info;
                  found_offset := offset info;
                  found_green_time := green_time info;
                  found_yellow_time := yellow_time info |}],
            checked_lights ++ [light_coords])
    else Some st
  else Some st.

(** [for i, point in enumerate(route_geometry)] from index [i] on. *)
Fixpoint scan_route (radius_deg : Q) (distances : list Q) (m : light_map)
  (i : nat) (points : list point) (st : detection) : option detection :=
  match points with
  | [] => Some st
  | p :: rest =>
      st' <- foldM (check_light radius_deg distances i p) m st ;;
      scan_route radius_deg distances m (S i) rest st'
  end.

(** Lines 123-135: with an empty map, one is made for the box around the
    route. *)
Definition ensure_map (route_geometry : list point) (w : world)
  : option world :=
  match TRAFFIC_LIGHT_MAP w with
  | _ :: _ => Some w
  | [] =>
      min_lon <- list_min (map fst route_geometry) ;;
      max_lon <- list_max (map fst route_geometry) ;;
      min_lat <- list_min (map snd route_geometry) ;;
      max_lat <- list_max (map snd route_geometry) ;;
      let buffer := 1 # 100 in
      Some (initialize_traffic_light_map
              ((min_lon - buffer, min_lat - buffer),
               (max_lon + buffer, max_lat + buffer)) w)
  end.

(** [detect_traffic_lights_on_route(route_geometry, radius_meters)] *)
Definition detect_traffic_lights_on_route (route_geometry : list point)
  (radius_meters : Q) (w : world) : option (list found_light * world) :=
  w1 <- ensure_map route_geometry w ;;
  let radius_deg := radius_meters * (9 # 1000000) in
  let distances := route_distances route_geometry in
  st <- scan_route radius_deg distances (TRAFFIC_LIGHT_MAP w1) 0 route_geometry
          ([], []) ;;
  Some (sort_by_distance (fst st), w1).

End Runtime.

Arguments TRAFFIC_LIGHT_MAP {rng_state} _.
Arguments generator {rng_state} _.
Arguments Build_world {rng_state} _ _.
Arguments generate_light _ {rng_state}.
Arguments repeat_generate _ {rng_state}.
Arguments initialize_traffic_light_map _ {rng_state}.
Arguments ensure_map _ {rng_state}.
Arguments detect_traffic_lights_on_route _ {rng_state}.

End TrafficLight.

(** * [traffic_light_optimizer.py]: the analysis of a whole route *)

Module LightAnalysis.
Import TrafficLight.

(** An entry of the detected list read as the record of a light: the
    dictionary holds the keys [cycle_time], [offset], [green_time] and
    [yellow_time] that [estimate_traffic_light_delay] and
    [optimize_arrival_time] read. *)
Definition as_light_info (f : found_light) : light_info :=
  {| type := found_type f;
     cycle_time := found_cycle_time f;
     offset := found_offset f;
     green_time := found_green_time f;
     yellow_time := found_yellow_time f;
     coordinates := found_coordinates f |}.

(** [a / b] on floats; [ZeroDivisionError] when [b] is 0. *)
Definition py_fdiv (a b : Q) : option Q :=
  if Qeq_bool b 0 then None else Some (a / b).

(** [c and x or 0] for a number [x]: a zero [x] is falsy too. *)
Definition and_or_zero (c : bool) (x : Q) : Q :=
  if c && negb (Qeq_bool x 0) then x else 0.

(** [t.strftime("%H:%M:%S")] for an instant in UTC. *)
Definition strftime_HMS (t : datetime) : string :=
  let s := ((t / 1000000) mod 86400)%Z in
  (two_digits (s / 3600) ++ ":" ++ two_digits (s mod 3600 / 60) ++ ":"
   ++ two_digits (s mod 60))%string.

(** [route_data]: of its keys only ['segments'] is read, and of the keys
    of a segment only ['geometry']. *)
Record segment : Type := { geometry : option (list point) }.
Record route_dict : Type := { segments : option (list segment) }.

(** [light_result] (lines 425-436) *)
Record light_result : Type := {
  position : nat;
  distance : Q;
  result_coordinates : point;
  result_cycle_time : Z;
  result_type : intersection_type;
  estimated_arrival : string;
  original_delay : Z;
  optimized_delay : Z;
  light_status : status;
  optimization : advice
}.

(** [result] as it is returned at line 462. *)
Record analysis_result : Type := {
  traffic_lights : list light_result;
  total_original_delay : Z;
  total_optimized_delay : Z;
  total_time_saved : Z;
  recommendations : list string;
  summary : string;
  final_recommendation : string
}.

Inductive analysis : Type :=
| NoRouteData (message : string)          (* ["success": False] *)
| NoLights (message : string)             (* ["traffic_lights": []] *)
| Analysis (r : analysis_result).

(** [all_geometry] (lines 367-370) *)
Definition collect_geometry (segs : list segment) : list point :=
  flat_map (fun s => match geometry s with
                     | Some g => g
                     | None => []
                     end) segs.

(** What the loop of lines 399-445 carries from one light to the next. *)
Record progress : Type := {
  current_time : datetime;
  results : list light_result;
  original_total : Z;
  optimized_total : Z;
  advices : list string
}.

(** [f"Światło {i+1}: {message} (oszczędność: {int(time_saved)}s)"] *)
Definition recommendation_text (i : nat) (a : advice) : string :=
  ("Światło " ++ string_of_Z (Z.of_nat (i + 1)) ++ ": " ++ message a
   ++ " (oszczędność: " ++ string_of_Z (time_saved a) ++ "s)")%string.

(** One pass of the loop for [lights[i] = light]. *)
Definition analyze_light (start_time : datetime) (average_speed_ms : Q)
  (lights : list found_light) (st : progress) (item : nat * found_light)
  : option progress :=
  let '(i, light) := item in
  let light_distance := distance_along_route light * 111000 in
  time_to_light <- py_fdiv light_distance average_speed_ms ;;
  let arrival := (start_time + timedelta_seconds time_to_light)%Z in
  ds <- estimate_traffic_light_delay (as_light_info light) arrival ;;
  let '(original, st_light) := ds in
  previous <-
    match i with
    | O => Some (and_or_zero false 0)
    | S j =>
        prev <- nth_error lights j ;;
        Some (and_or_zero true (distance_along_route prev * 111000))
    end ;;
  opt <- optimize_arrival_time (as_light_info light) (current_time st)
           average_speed_ms (light_distance - previous) ;;
  match opt with
  | CannotAdvise _ => None                  (* [KeyError: 'optimized'] *)
  | Advice a =>
      let '(next_time, optimized_d) :=
        if optimized a then (arrival_time a, 0%Z)
        else ((arrival + timedelta_seconds (inject_Z original))%Z, original) in
      Some {| current_time := next_time;
              results :=
                results st ++
                [{| position := i + 1;
                    distance := light_distance;
                    result_coordinates := found_coordinates light;
                    result_cycle_time := found_cycle_time light;
                    result_type := found_type light;
                    estimated_arrival := strftime_HMS arrival;
                    original_delay := original;
                    optimized_delay := optimized_d;
                    light_status := st_light;
                    optimization := a |}];
              original_total := (original_total st + original)%Z;
              optimized_total := (optimized_total st + optimized_d)%Z;
              advices :=
                if optimized a && (5 <? time_saved a)%Z
                then advices st ++ [recommendation_text i a]
                else advices st |}
  end.

(** [enumerate(l)] *)
Definition enumerate {A : Type} (l : list A) : list (nat * A) :=
  combine (seq 0 (length l)) l.

(** Lines 447-462. *)
Definition conclude (st : progress) : analysis_result :=
  let saved := (original_total st - optimized_total st)%Z in
  {| traffic_lights := results st;
     total_original_delay := original_total st;
     total_optimized_delay := optimized_total st;
     total_time_saved := saved;
     recommendations := advices st;
     summary :=
       if (0 <? saved)%Z
       then ("Optymalizacja świateł może zaoszczędzić " ++ string_of_Z saved
             ++ " sekund")%string
       else "Brak możliwości optymalizacji świateł na tej trasie"%string;
     final_recommendation :=
       match advices st with
       | _ :: _ =>
           "Dostosuj prędkość w podanych miejscach, aby zminimalizować czas oczekiwania na światłach"%string
       | [] => "Utrzymuj stałą prędkość na całej trasie"%string
       end |}.

(** The entries of [get_light_timing_for_route]. *)
Record simple_light : Type := {
  simple_coordinates : point;
  simple_distance : Q;
  simple_cycle_time : Z;
  simple_green_time : Z;
  simple_type : intersection_type
}.

Definition simplify (light : found_light) : simple_light :=
  {| simple_coordinates := found_coordinates light;
     simple_distance := distance_along_route light * 111000;
     simple_cycle_time := found_cycle_time light;
     simple_green_time := found_green_time light;
     simple_type := found_type light |}.

Section Runtime.

Variable sqrt : Q -> Q.
Variable rng_state : Type.
Variable seed : Z -> rng_state.
Variable random : rng_state -> Q * rng_state.
Variable randint : Z -> Z -> rng_state -> Z * rng_state.

(** [datetime.now(pytz.UTC)] at line 395. *)
Variable now : datetime.

(** [analyze_route_for_lights(route_data, average_speed_ms)].  The total
    length of lines 385-392 is computed and never read; it is left out. *)
Definition analyze_route_for_lights (route_data : option route_dict)
  (average_speed_ms : Q) (w : world rng_state)
  : option (analysis * world rng_state) :=
  match route_data with
  | None | Some {| segments := None |} =>
      Some (NoRouteData "Brak danych trasy", w)
  | Some {| segments := Some segs |} =>
      let all_geometry := collect_geometry segs in
      found <- detect_traffic_lights_on_route sqrt seed random randint
                 all_geometry 30 w ;;
      let '(lights, w1) := found in
      match lights with
      | [] =>
          Some (NoLights "Nie wykryto sygnalizacji świetlnej na trasie", w1)
      | _ :: _ =>
          let start_time := now in
          st <- foldM (analyze_light start_time average_speed_ms lights)
                  (enumerate lights)
                  {| current_time := start_time; results := [];
                     original_total := 0; optimized_total := 0;
                     advices := [] |} ;;
          Some (Analysis (conclude st), w1)
      end
  end.

(** [get_light_timing_for_route(route_geometry)]: an exception of the
    detection gives the empty list, and leaves the map as the detection
    had it by then. *)
Definition get_light_timing_for_route (route_geometry : list point)
  (w : world rng_state) : list simple_light * world rng_state :=
  match detect_traffic_lights_on_route sqrt seed random randint
          route_geometry 30 w with
  | Some (lights, w1) => (map simplify lights, w1)
  | None =>
      ([], match ensure_map sqrt seed random randint route_geometry w with
           | Some w1 => w1
           | None => w
           end)
  end.

End Runtime.

Arguments analyze_route_for_lights _ {rng_state}.
Arguments get_light_timing_for_route _ {rng_state}.

End LightAnalysis.

(** * Sample inputs for [route_optimizer.py] *)

Module RouteExamples.
Import RouteOptimizer.

Definition of_seconds (rows : list (list Z)) : matrix :=
  map (map inject_Z) rows.

(** [n] waypoints on a line. *)
Definition waypoints (n : nat) : list coord :=
  map (fun i => (inject_Z (Z.of_nat i), 0)) (seq 0 n).

(** Two waypoints two hours apart. *)
Definition two_hours : matrix := of_seconds [[0; 7200]; [7200; 0]]%Z.
Definition hundred_km : matrix := of_seconds [[0; 100]; [100; 0]]%Z.

(** The four-waypoint scenario of the specification. *)
Definition four_points : matrix :=
  of_seconds [[0; 10; 15; 20]; [10; 0; 35; 25];
              [15; 35; 0; 30]; [20; 25; 30; 0]]%Z.

(** Seven waypoints with one-way effects: the durations are not symmetric.
    No step of the nearest-neighbour construction meets a tie. *)
Definition one_way : matrix :=
  of_seconds [[0; 6; 15; 13; 18; 9; 29]; [5; 0; 27; 14; 28; 18; 9];
              [23; 14; 0; 12; 22; 29; 13]; [8; 5; 3; 0; 6; 5; 8];
              [22; 8; 1; 16; 0; 27; 19]; [6; 9; 10; 1; 5; 0; 14];
              [18; 12; 20; 19; 11; 5; 0]]%Z.

(** Seven waypoints, not symmetric, on which the 2-opt loop cycles. *)
Definition roundabout : matrix :=
  of_seconds [[0; 9; 10; 10; 25; 10; 5]; [16; 0; 20; 19; 11; 25; 7];
              [1; 3; 0; 3; 2; 4; 22]; [23; 25; 20; 0; 7; 17; 13];
              [15; 14; 30; 20; 0; 19; 21]; [7; 30; 25; 24; 25; 0; 26];
              [3; 30; 1; 27; 2; 23; 0]]%Z.

(** Seven waypoints on a line, on alternating sides of the start and each
    twice as far out as the one before: the duration between two of them is
    their distance (symmetric). *)
Definition positions : list Z := [0; 1; -2; 4; -8; 16; -32]%Z.
Definition on_a_line : matrix :=
  of_seconds (map (fun a => map (fun b => Z.abs (a - b)) positions) positions).

(** Thirteen waypoints. *)
Definition thirteen : matrix :=
  of_seconds
    (map (fun i => map (fun j =>
            (Z.of_nat (Nat.modulo (i * 7 + j * 11 + i * j) 13) * 1000)%Z)
          (seq 0 13)) (seq 0 13)).

End RouteExamples.

(** * Sample inputs for [traffic_light_optimizer.py] *)

Module LightExamples.
Import TrafficLight.

(** The light of the specification's scenario: a 60 s cycle with 24 s of
    green and 3 s of yellow. *)
Definition sixty : light_info :=
  {| type := medium_intersection; cycle_time := 60; offset := 0;
     green_time := 24; yellow_time := 3; coordinates := (0, 0) |}.

(** Half a second before the epoch. *)
Definition before_epoch : datetime := (-500000)%Z.

(** A stand-in for [math.sqrt]: exact on the squares of rationals. *)
Definition exact_root (x : Q) : Q :=
  let r := Qred x in
  inject_Z (Z.sqrt (Qnum r)) / inject_Z (Z.sqrt (Zpos (Qden r))).

(** A stand-in for the [random] module: a linear congruential generator. *)
Definition lcg_next (s : Z) : Z := ((s * 1103515245 + 12345) mod 2147483648)%Z.
Definition lcg_seed (n : Z) : Z := n.
Definition lcg_random (s : Z) : Q * Z :=
  (inject_Z (lcg_next s mod 1000) / 1000, lcg_next s).
Definition lcg_randint (a b : Z) (s : Z) : Z * Z :=
  ((a + lcg_next s mod (b - a + 1))%Z, lcg_next s).

(** A route of two points 0.005 degrees apart, and a map whose only light
    stands at the second point. *)
Definition short_route : list point := [(0, 0); (3 # 1000, 4 # 1000)].

Definition corner_light : light_info :=
  {| type := small_intersection; cycle_time := 50; offset := 7;
     green_time := 20; yellow_time := 3;
     coordinates := (3 # 1000, 4 # 1000) |}.

Definition one_light : world Z :=
  {| TRAFFIC_LIGHT_MAP := [((3 # 1000, 4 # 1000), corner_light)];
     generator := 0%Z |}.

(** A route that passes the same light twice, and a second light. *)
Definition loop_route : list point :=
  [(0, 0); (3 # 1000, 4 # 1000); (6 # 1000, 8 # 1000); (3 # 1000, 4 # 1000)].

Definition far_light : light_info :=
  {| type := large_intersection; cycle_time := 100; offset := 0;
     green_time := 40; yellow_time := 3;
     coordinates := (6 # 1000, 8 # 1000) |}.

Definition two_lights : world Z :=
  {| TRAFFIC_LIGHT_MAP :=
       [((6 # 1000, 8 # 1000), far_light);
        ((3 # 1000, 4 # 1000), corner_light)];
     generator := 0%Z |}.

Definition no_lights : world Z :=
  {| TRAFFIC_LIGHT_MAP := []; generator := 0%Z |}.

End LightExamples.

(** * Sample inputs for the risk and traffic functions *)

Module SafetyExamples.
Import RouteSafety.

(** A stand-in for [str.lower]: the 26 letters of ASCII. *)
Definition lower_ascii (c : Ascii.ascii) : Ascii.ascii :=
  let n := Ascii.nat_of_ascii c in
  if ((65 <=? n) && (n <=? 90))%nat then Ascii.ascii_of_nat (n + 32) else c.

Fixpoint lower_ascii_string (s : string) : string :=
  match s with
  | EmptyString => EmptyString
  | String c t => String (lower_ascii c) (lower_ascii_string t)
  end.

(** Stand-ins for the [random] module, as in the traffic-light samples. *)
Definition lcg_uniform (a b : Q) (s : Z) : Q * Z :=
  (a + (b - a) * fst (LightExamples.lcg_random s), LightExamples.lcg_next s).

(** A Tuesday in October, 17:40 UTC. *)
Definition tuesday_evening : clock :=
  {| month := 10; hour := 17; minute := 40; weekday := 1 |}.

(** A Sunday in June, 13:05 UTC. *)
Definition sunday_noon : clock :=
  {| month := 6; hour := 13; minute := 5; weekday := 6 |}.

Definition rainy (_ : Q * Q) : option weather_data :=
  Some {| condition := "Rain" |}.

Definition no_weather (_ : Q * Q) : option weather_data := None.

End SafetyExamples.

(** * Sample inputs for the check for traffic updates *)

Module UpdateExamples.
Import RouteUpdates.

(** Two stored segments of 10 and 20 minutes. *)
Definition stored_segments : list segment :=
  [ {| geometry := Some [(169 # 10, 524 # 10); (17 # 1, 524 # 10)];
       duration := Some 600; weather := None |};
    {| geometry := Some [(17 # 1, 524 # 10); (17 # 1, 525 # 10)];
       duration := Some 1200; weather := Some "Poznań"%string |} ].

(** Five minutes after the route was stored. *)
Definition stored_route : route_data :=
  {| timestamp := Some 1700000000;
     coordinates := None;
     old_details := Some (Some stored_segments) |}.

(** A provider that now reports 15 and 20 minutes. *)
Definition slower_first_leg (_ : list (Q * Q)) : route_details :=
  {| segments :=
       [ {| geometry := None; duration := Some 900; weather := None |};
         {| geometry := None; duration := Some 1200; weather := None |} ] |}.

End UpdateExamples.

(** * Notions used to state the properties of [route_optimizer.py] *)

Module RouteSpec.
Import RouteOptimizer.

(** An [n] by [n] matrix, as the provider answers for [n] waypoints. *)
Definition square (n : nat) (m : matrix) : Prop :=
  length m = n /\ Forall (fun row => length row = n) m.

Definition squareb (n : nat) (d : matrix) : bool :=
  Nat.eqb (length d) n && forallb (fun row => Nat.eqb (length row) n) d.

(** Every index of [l] is a waypoint index. *)
Definition in_range (n : nat) (l : list nat) : Prop :=
  Forall (fun i => (i < n)%nat) l.

(** An order that starts at 0 and visits every index of [0..n-1] once. *)
Definition valid_order (n : nat) (order : list nat) : Prop :=
  hd_error order = Some 0%nat
  /\ Permutation order (seq 0 n)
  /\ NoDup order
  /\ length order = n.

(** [p] is the first of [ps] whose order [0 :: p] has the least cost [c]. *)
Definition first_min (d : matrix) (ps : list (list nat)) (p : list nat)
  (c : Q) : Prop :=
  exists before after,
    ps = before ++ p :: after
    /\ route_cost d (0%nat :: p) = Some c
    /\ (forall q, In q before ->
          exists c', route_cost d (0%nat :: q) = Some c' /\ c < c')
    /\ (forall q, In q after ->
          exists c', route_cost d (0%nat :: q) = Some c' /\ c <= c').

(** What the exhaustive search holds after the permutations [seen]. *)
Definition search_inv (d : matrix) (seen : list (list nat))
  (st : search_state) : Prop :=
  match st with
  | (None, None) => seen = []
  | (Some c, Some r) => exists p, r = 0%nat :: p /\ first_min d seen p c
  | _ => False
  end.

(** The 2-opt test succeeds on the pair [(i, j)]. *)
Definition improving (d : matrix) (route : list nat) (i j : nat) : Prop :=
  exists cc nc, current_cost d route i j = Some cc
                /\ new_cost d route i j = Some nc /\ nc < cc.

(** The entry [d[a][b]], 0 where there is none. *)
Definition cost (d : matrix) (a b : nat) : Q :=
  match entry d a b with
  | Some x => x
  | None => 0
  end.

(** The sum of the edge costs along an order. *)
Fixpoint total (d : matrix) (route : list nat) : Q :=
  match route with
  | a :: ((b :: _) as t) => cost d a b + total d t
  | _ => 0
  end.

Definition symmetric (d : matrix) : Prop :=
  forall a b, cost d a b == cost d b a.

(** A square matrix is symmetric as soon as its entries are. *)
Definition symmetricb (n : nat) (d : matrix) : bool :=
  forallb (fun a => forallb (fun b => Qeq_bool (cost d a b) (cost d b a))
                            (seq 0 n)) (seq 0 n).

(** How many orderings of [seed] are strictly cheaper than [route]. *)
Definition cheaper (d : matrix) (seed route : list nat) : nat :=
  length (filter (fun p => Qltb (total d p) (total d route))
                 (permutations seed)).

(** The factor applied to [durations[i][j]], 1 where none is. *)
Definition multiplier (hour : Z) (distances : matrix) (i j : nat) : Q :=
  match traffic_multiplier hour distances i j with
  | Some x => x
  | None => 1
  end.

(** An entry after its adjustment. *)
Definition scaled (hour : Z) (distances : matrix) (a b : nat) (x : option Q)
  : option Q :=
  match x with
  | Some v => Some (v * multiplier hour distances a b)
  | None => None
  end.

(** [c] is the cell [(a, b)]. *)
Definition is_cell (a b : nat) (c : nat * nat) : bool :=
  Nat.eqb a (fst c) && Nat.eqb b (snd c).

End RouteSpec.

(** * Notions used to state the properties of [traffic_light_optimizer.py] *)

Module LightSpec.
Import TrafficLight.

(** The instants [t] and [t'] do not lie on different sides of the epoch,
    or [t] is a whole number of seconds. *)
Definition same_side (t t' : datetime) : Prop :=
  (t mod 1000000 = 0 \/ (0 <= t /\ 0 <= t') \/ (t < 0 /\ t' < 0))%Z.

(** The instant [t] lies less than [2 ** 34] seconds (about 544 years)
    from the epoch: there the floats are less than a microsecond apart, so
    the whole seconds of [timestamp t] are those of [t]. *)
Definition near_epoch (t : datetime) : Prop :=
  (Z.abs t < 2 ^ 34 * 1000000)%Z.

(** Two keys are the same when Python's [==] says so. *)
Definition same_key (a b : point) : Prop :=
  fst a == fst b /\ snd a == snd b.

(** The order of the returned list. *)
Definition by_distance (a b : found_light) : Prop :=
  distance_along_route a <= distance_along_route b.

(** What the double loop of the detection holds: [checked_lights] are the
    keys of [found_lights], and no key is there twice. *)
Definition detection_inv (st : detection) : Prop :=
  snd st = map found_coordinates (fst st) /\ NoDupA same_key (snd st).

(** The planar length of a polyline, segment by segment. *)
Fixpoint path_length (sqrt : Q -> Q) (points : list point) : Q :=
  match points with
  | p :: ((q :: _) as t) => planar_distance sqrt q p + path_length sqrt t
  | _ => 0
  end.

Definition with_prev (prev : option point) (l : list point) : list point :=
  match prev with
  | Some p => p :: l
  | None => l
  end.

End LightSpec.

(** * Further notions for [route_optimizer.py] *)

Module RouteSpecMore.
Import RouteOptimizer RouteSpec.

(** From [current] on, every hop goes to an index that is at least as near
    as every index visited later. *)
Fixpoint greedy (d : matrix) (current : nat) (tail : list nat) : Prop :=
  match tail with
  | [] => True
  | x :: t =>
      (forall y, In y t -> cost d current x <= cost d current y)
      /\ greedy d x t
  end.

(** No pair of positions passes the 2-opt test on [route]. *)
Definition locally_optimal (d : matrix) (route : list nat) : Prop :=
  forall i j, (1 <= i)%nat -> (i < j)%nat -> (j < length route)%nat ->
  exists cc nc, current_cost d route i j = Some cc
                /\ new_cost d route i j = Some nc /\ cc <= nc.

(** [coordinates[i]] for every [i] of [order]. *)
Definition reordered (coordinates : list coord) (order : list nat)
  (route : list coord) : Prop :=
  Forall2 (fun i c => nth_error coordinates i = Some c) order route.

End RouteSpecMore.

(** * Further notions for [traffic_light_optimizer.py] *)

Module LightSpecMore.
Import TrafficLight LightSpec.

(** A light as [initialize_traffic_light_map] means to make it. *)
Definition well_formed_light (l : light_info) : Prop :=
  (cycle_min (type l) <= cycle_time l <= cycle_max (type l))%Z
  /\ (0 <= offset l < cycle_time l)%Z
  /\ green_time l = (4 * cycle_time l / 10)%Z
  /\ yellow_time l = 3%Z
  /\ (green_time l + yellow_time l < cycle_time l)%Z.

(** The key under which a light is stored: its rounded coordinates. *)
Definition rounded_key (l : light_info) : point :=
  (round5 (fst (coordinates l)), round5 (snd (coordinates l))).

(** What holds of the map after every pass of the generation loop. *)
Definition map_ok (m : light_map) : Prop :=
  Forall (fun kv => well_formed_light (snd kv)) m
  /\ Forall (fun kv => same_key (fst kv) (rounded_key (snd kv))) m
  /\ NoDupA same_key (map fst m).

(** The point [c] lies in the box [[min_lon, min_lat], [max_lon, max_lat]]. *)
Definition in_box (region_bounds : point * point) (c : point) : Prop :=
  fst (fst region_bounds) <= fst c <= fst (snd region_bounds)
  /\ snd (fst region_bounds) <= snd c <= snd (snd region_bounds).

(** [random.randint(a, b)] answers within [a..b]. *)
Definition randint_in_range {rng_state : Type}
  (randint : Z -> Z -> rng_state -> Z * rng_state) : Prop :=
  forall a b g, (a <= b)%Z -> (a <= fst (randint a b g) <= b)%Z.

(** [random.random()] answers within [0, 1). *)
Definition random_in_unit {rng_state : Type}
  (random : rng_state -> Q * rng_state) : Prop :=
  forall g, 0 <= fst (random g) < 1.

(** The two tests of lines 165-171 that put a light within the radius of
    a route point. *)
Definition near (sqrt : Q -> Q) (radius_deg : Q) (p k : point) : bool :=
  Qleb (Qabs (fst p - fst k)) radius_deg
  && Qleb (Qabs (snd p - snd k)) radius_deg
  && Qleb (planar_distance sqrt p k) radius_deg.

(** The entry recorded for the light [(k, info)] at route point [i]. *)
Definition report (k : point) (info : light_info) (along : Q) (i : nat)
  : found_light :=
  {| found_coordinates := k;
     distance_along_route := along;
     route_point_index := i;
     found_cycle_time := cycle_time info;
     found_type := type info;
     found_offset := offset info;
     found_green_time := green_time info;
     found_yellow_time := yellow_time info |}.

(** Every recorded light is a light of the map [m], recorded at the first
    route point that has it within the radius. *)
Definition sound (sqrt : Q -> Q) (radius_deg : Q) (route : list point)
  (m : light_map) (distances : list Q) (found : list found_light) : Prop :=
  forall f, In f found ->
  exists p info,
    nth_error route (route_point_index f) = Some p
    /\ In (found_coordinates f, info) m
    /\ near sqrt radius_deg p (found_coordinates f) = true
    /\ f = report (found_coordinates f) info (distance_along_route f)
                  (route_point_index f)
    /\ nth_error distances (route_point_index f)
       = Some (distance_along_route f)
    /\ forall j q, (j < route_point_index f)%nat ->
         nth_error route j = Some q ->
         near sqrt radius_deg q (found_coordinates f) = false.

(** Every light within the radius of a route point before index [i] has
    its key among [checked_lights]. *)
Definition covered (sqrt : Q -> Q) (radius_deg : Q) (route : list point)
  (m : light_map) (i : nat) (checked_lights : list point) : Prop :=
  forall j q k info, (j < i)%nat -> nth_error route j = Some q ->
  In (k, info) m -> near sqrt radius_deg q k = true ->
  checked k checked_lights = true.

End LightSpecMore.

(** * Notions for the analysis of a whole route *)

Module LightAnalysisSpec.
Import TrafficLight LightAnalysis.

(** A light on which the phase estimate is defined: the cycle is not zero
    and leaves room for a red phase. *)
Definition estimable (l : light_info) : Prop :=
  cycle_time l <> 0%Z /\ (green_time l + yellow_time l < cycle_time l)%Z.

Definition sum_Z (l : list Z) : Z := fold_right Z.add 0%Z l.

(** The optimised delay of an entry is zero where the advisor found a
    better speed, and the original delay elsewhere. *)
Definition result_ok (r : light_result) : Prop :=
  (0 <= original_delay r)%Z
  /\ optimized_delay r
     = (if optimized (optimization r) then 0%Z else original_delay r).

(** What holds of the loop's state after [k] lights. *)
Definition progress_ok (lights : list found_light) (k : nat) (st : progress)
  : Prop :=
  map position (results st) = seq 1 k
  /\ map result_coordinates (results st)
     = map found_coordinates (firstn k lights)
  /\ Forall result_ok (results st)
  /\ original_total st = sum_Z (map original_delay (results st))
  /\ optimized_total st = sum_Z (map optimized_delay (results st)).

(** The totals of an analysis add up over its entries. *)
Definition totals_ok (a : analysis_result) : Prop :=
  map position (traffic_lights a) = seq 1 (length (traffic_lights a))
  /\ Forall result_ok (traffic_lights a)
  /\ total_original_delay a = sum_Z (map original_delay (traffic_lights a))
  /\ total_optimized_delay a = sum_Z (map optimized_delay (traffic_lights a))
  /\ total_time_saved a
     = (total_original_delay a - total_optimized_delay a)%Z
  /\ (0 <= total_optimized_delay a <= total_original_delay a)%Z.

(** The order of the list of [get_light_timing_for_route]. *)
Definition by_simple_distance (a b : simple_light) : Prop :=
  simple_distance a <= simple_distance b.

End LightAnalysisSpec.

(** * Notions for the risk and traffic functions *)

Module RouteSafetySpec.
Import RouteSafety.

(** [random.uniform(a, b)] answers within [a, b]. *)
Definition uniform_in_range {rng_state : Type}
  (uniform : Q -> Q -> rng_state -> Q * rng_state) : Prop :=
  forall a b g, a <= b -> a <= fst (uniform a b g) <= b.

(** [random.random()] answers within [0, 1). *)
Definition random_unit {rng_state : Type}
  (random : rng_state -> Q * rng_state) : Prop :=
  forall g, 0 <= fst (random g) < 1.

(** The hours that [simulate_traffic_conditions] treats as rush hours. *)
Definition rush (h : Z) : Prop := (7 <= h <= 9 \/ 16 <= h <= 19)%Z.

(** None of the tests of [get_safety_recommendations] holds. *)
Definition nothing_to_report (risk_score : Q) (f : factors)
  (is_dark poor_visibility : bool) : Prop :=
  risk_score <= 7
  /\ low_light_risk f <= 15 # 10
  /\ weather_risk f <= 15 # 10
  /\ is_dark && poor_visibility = false
  /\ time_of_day_risk f <= 15 # 10
  /\ road_complexity_risk f <= 15 # 10.

End RouteSafetySpec.

(** * Notions for the check for traffic updates *)

Module RouteUpdateSpec.
Import RouteUpdates.

(** The segment has a geometry with a first point. *)
Definition has_first_point (s : segment) : Prop :=
  exists p g, geometry s = Some (p :: g).

(** What the comparison loop keeps: the maximum is an upper bound of the
    recorded changes, and it is either still the initial 0 with no segment
    chosen, or the change of the chosen segment, whose durations both
    lists hold. *)
Definition comparison_ok (segs new_segs : list segment) (st : comparison)
  : Prop :=
  0 <= max_change st
  /\ Forall (fun c => change_percent c <= max_change st) (changes st)
  /\ ((changed_idx st = (-1)%Z /\ max_change st = 0)
      \/ exists c old_segment new_segment,
           changed_idx st = Z.of_nat (change_segment c)
           /\ In c (changes st)
           /\ change_percent c = max_change st
           /\ 0 < max_change st
           /\ nth_error segs (change_segment c) = Some old_segment
           /\ nth_error new_segs (change_segment c) = Some new_segment
           /\ duration old_segment = Some (old_duration c)
           /\ duration new_segment = Some (new_duration c)).

End RouteUpdateSpec.

(** * Properties of [route_optimizer.py] *)

Module RouteFacts.
Import RouteOptimizer RouteSpec.

(** ** Comparisons *)

Lemma Qltb_lt (x y : Q) : Qltb x y = true <-> x < y.
Proof.
  unfold Qltb. rewrite Qlt_alt. destruct (Qcompare x y); split; congruence.
Qed.

Lemma Qltb_ge (x y : Q) : Qltb x y = false <-> y <= x.
Proof.
  unfold Qltb. destruct (Qcompare x y) eqn:E; split; intro H; try congruence.
  - apply Qeq_alt in E. rewrite E. apply Qle_refl.
  - apply Qlt_alt in E. exfalso. apply (Qlt_irrefl x).
    apply Qlt_le_trans with y; assumption.
  - apply Qgt_alt in E. apply Qlt_le_weak. exact E.
Qed.

(** ** Square matrices and in-range lookups *)

Lemma nth_error_defined (A : Type) (l : list A) (i : nat) :
  (i < length l)%nat -> exists x, nth_error l i = Some x.
Proof.
  intro H. destruct (nth_error l i) eqn:E; eauto.
  apply nth_error_None in E. lia.
Qed.

Lemma entry_defined n m i j :
  square n m -> (i < n)%nat -> (j < n)%nat -> exists x, entry m i j = Some x.
Proof.
  intros [Hl Hr] Hi Hj. unfold entry.
  destruct (nth_error_defined _ m i) as [row Hrow]; [lia|].
  rewrite Hrow; cbn.
  apply nth_error_defined.
  rewrite Forall_forall in Hr.
  rewrite (Hr row); [assumption | eapply nth_error_In; eassumption].
Qed.

Lemma assign_length (A : Type) (l : list A) i v l' :
  assign l i v = Some l' -> length l' = length l.
Proof.
  revert i l'. induction l as [|x t IH]; intros [|i] l' H; cbn in H;
    try discriminate.
  - inversion H; reflexivity.
  - destruct (assign t i v) eqn:E; cbn in H; [|discriminate].
    inversion H; subst; cbn. f_equal. eapply IH; eassumption.
Qed.

Lemma assign_defined (A : Type) (l : list A) i v :
  (i < length l)%nat -> exists l', assign l i v = Some l'.
Proof.
  revert i. induction l as [|x t IH]; intros [|i] H; cbn in *; try lia.
  - eauto.
  - destruct (IH i) as [t' Ht]; [lia|]. rewrite Ht; cbn; eauto.
Qed.

Lemma assign_Forall (A : Type) (P : A -> Prop) (l : list A) i v l' :
  Forall P l -> P v -> assign l i v = Some l' -> Forall P l'.
Proof.
  revert i l'. induction l as [|x t IH]; intros [|i] l' HF Hv H; cbn in H;
    try discriminate; inversion HF; subst.
  - inversion H; subst. constructor; assumption.
  - destruct (assign t i v) eqn:E; cbn in H; [|discriminate].
    inversion H; subst. constructor; [assumption|]. eapply IH; eassumption.
Qed.

Lemma assign_same (A : Type) (l : list A) i v :
  nth_error l i = Some v -> assign l i v = Some l.
Proof.
  revert i. induction l as [|x t IH]; intros [|i] H; cbn in *;
    try discriminate.
  - inversion H; reflexivity.
  - rewrite (IH i H). reflexivity.
Qed.

Lemma set_entry_square n m i j v m' :
  square n m -> set_entry m i j v = Some m' -> square n m'.
Proof.
  intros [Hl Hr] H. unfold set_entry in H.
  destruct (nth_error m i) as [row|] eqn:Erow; cbn in H; [|discriminate].
  destruct (assign row j v) as [row'|] eqn:Erow'; cbn in H; [|discriminate].
  split.
  - rewrite (assign_length _ _ _ _ _ H). assumption.
  - eapply assign_Forall; [exact Hr | | exact H]. cbn.
    rewrite (assign_length _ _ _ _ _ Erow').
    rewrite Forall_forall in Hr. apply Hr.
    eapply nth_error_In; eassumption.
Qed.

Lemma set_entry_defined n m i j v :
  square n m -> (i < n)%nat -> (j < n)%nat ->
  exists m', set_entry m i j v = Some m'.
Proof.
  intros [Hl Hr] Hi Hj. unfold set_entry.
  destruct (nth_error_defined _ m i) as [row Hrow]; [lia|].
  rewrite Hrow; cbn.
  assert (Hlen : length row = n).
  { rewrite Forall_forall in Hr. apply Hr. eapply nth_error_In; eassumption. }
  destruct (assign_defined _ row j v) as [row' Hrow']; [lia|].
  rewrite Hrow'; cbn.
  apply assign_defined. lia.
Qed.

(** ** The traffic adjustment keeps the matrix square and never raises *)

Lemma adjust_cell_square hour n distances durations i j :
  square n distances -> square n durations -> (i < n)%nat -> (j < n)%nat ->
  exists d', adjust_cell hour distances durations (i, j) = Some d'
             /\ square n d'.
Proof.
  intros Hx Hd Hi Hj. unfold adjust_cell.
  destruct (Nat.eqb i j); [eauto|].
  assert (Hm : exists mult, traffic_multiplier hour distances i j = Some mult).
  { unfold traffic_multiplier. destruct (rush_hour hour); [|eauto].
    destruct (entry_defined _ _ _ _ Hx Hi Hj) as [x ->]; cbn; eauto. }
  destruct Hm as [mult ->]; cbn.
  destruct (entry_defined _ _ _ _ Hd Hi Hj) as [x ->]; cbn.
  destruct (set_entry_defined _ _ _ _ (x * mult) Hd Hi Hj) as [m' Hm'].
  exists m'; split; [assumption|]. eapply set_entry_square; eassumption.
Qed.

Lemma foldM_adjust_square hour n distances cs :
  square n distances ->
  Forall (fun ij => (fst ij < n)%nat /\ (snd ij < n)%nat) cs ->
  forall durations, square n durations ->
  exists d', foldM (adjust_cell hour distances) cs durations = Some d'
             /\ square n d'.
Proof.
  intros Hx. induction cs as [|[i j] t IH]; intros HF durations Hd;
    cbn [foldM].
  - eauto.
  - inversion HF as [|? ? [Hi Hj] HF']; subst; cbn [fst snd] in *.
    destruct (adjust_cell_square hour _ _ _ _ _ Hx Hd Hi Hj) as [d1 [E1 S1]].
    rewrite E1; cbn [bind]. apply IH; assumption.
Qed.

Lemma cells_in_range n :
  Forall (fun ij => (fst ij < n)%nat /\ (snd ij < n)%nat) (cells n).
Proof.
  apply Forall_forall. intros [i j] H. unfold cells in H.
  apply in_flat_map in H. destruct H as [i' [Hi' H]].
  apply in_map_iff in H. destruct H as [j' [E Hj']].
  inversion E; subst. apply in_seq in Hi'. apply in_seq in Hj'. cbn; lia.
Qed.

Lemma adjust_durations_square hour n distances durations :
  square n distances -> square n durations ->
  exists d', adjust_durations hour n distances durations = Some d'
             /\ square n d'.
Proof.
  intros Hx Hd. unfold adjust_durations.
  apply foldM_adjust_square; auto using cells_in_range.
Qed.

(** ** [permutations] enumerates exactly the permutations *)

Lemma select_perm (A : Type) (l : list A) x r :
  In (x, r) (select l) -> Permutation l (x :: r).
Proof.
  revert x r. induction l as [|y t IH]; intros x r H; cbn in H; [tauto|].
  destruct H as [H|H].
  - inversion H; subst. reflexivity.
  - apply in_map_iff in H. destruct H as [[z r'] [E H]]. cbn in E.
    inversion E; subst. rewrite (IH _ _ H). apply perm_swap.
Qed.

Lemma select_In (A : Type) (l : list A) x :
  In x l -> exists r, In (x, r) (select l).
Proof.
  induction l as [|y t IH]; intros H; cbn in *; [tauto|].
  destruct H as [->|H].
  - eauto.
  - destruct (IH H) as [r Hr]. exists (y :: r). right.
    apply in_map_iff. exists (x, r). split; [reflexivity | assumption].
Qed.

Lemma perms_upto_sound (A : Type) n : forall (l q : list A),
  length l = n -> In q (perms_upto n l) -> Permutation q l.
Proof.
  induction n as [|n IH]; intros l q Hl H; cbn in H.
  - destruct l; [|discriminate]. destruct H as [<-|[]]. constructor.
  - apply in_flat_map in H. destruct H as [[x r] [Hs H]].
    apply in_map_iff in H. destruct H as [q' [<- Hq']]. cbn in *.
    pose proof (select_perm _ _ _ _ Hs) as HP.
    rewrite HP. constructor. apply IH; [|assumption].
    apply Permutation_length in HP. cbn in HP. lia.
Qed.

Lemma perms_upto_complete (A : Type) n : forall (l q : list A),
  length l = n -> Permutation q l -> In q (perms_upto n l).
Proof.
  induction n as [|n IH]; intros l q Hl HP; cbn.
  - destruct l; [|discriminate]. symmetry in HP.
    apply Permutation_nil in HP. subst. now left.
  - destruct q as [|x q'].
    { apply Permutation_length in HP. cbn in HP. lia. }
    assert (Hx : In x l) by (eapply Permutation_in; [exact HP | now left]).
    destruct (select_In _ _ _ Hx) as [r Hr].
    apply in_flat_map. exists (x, r). split; [assumption|].
    apply in_map_iff. exists q'. split; [reflexivity|]. cbn.
    pose proof (select_perm _ _ _ _ Hr) as HP'.
    apply IH.
    + apply Permutation_length in HP'. cbn in HP'. lia.
    + apply Permutation_cons_inv with x. now rewrite HP, HP'.
Qed.

Lemma permutations_spec (A : Type) (l q : list A) :
  In q (permutations l) <-> Permutation q l.
Proof.
  unfold permutations. split.
  - now apply perms_upto_sound.
  - now apply perms_upto_complete.
Qed.

Lemma permutations_nonempty (A : Type) (l : list A) : permutations l <> [].
Proof.
  intro H. assert (In l (permutations l)) by now apply permutations_spec.
  rewrite H in *. contradiction.
Qed.

(** ** Costs are defined on in-range orders *)

Lemma sum_edges_defined n m : square n m -> forall route acc,
  in_range n route -> exists c, sum_edges m acc route = Some c.
Proof.
  intros Hm. induction route as [|a t IH]; intros acc HR; cbn; [eauto|].
  destruct t as [|b t']; [eauto|].
  inversion HR as [|? ? Ha HR']; subst. inversion HR' as [|? ? Hb _]; subst.
  destruct (entry_defined _ _ _ _ Hm Ha Hb) as [x ->]. cbn [bind].
  apply IH. assumption.
Qed.

Lemma route_cost_defined n m route :
  square n m -> in_range n route -> exists c, route_cost m route = Some c.
Proof. intros. eapply sum_edges_defined; eassumption. Qed.

Lemma in_range_perm n l l' :
  Permutation l l' -> in_range n l -> in_range n l'.
Proof. intros HP H. unfold in_range in *. now rewrite <- HP. Qed.

Lemma in_range_seq n a k : (a + k <= n)%nat -> in_range n (seq a k).
Proof.
  intro H. apply Forall_forall. intros x Hx. apply in_seq in Hx. lia.
Qed.

Lemma seq_from_zero n : (1 <= n)%nat -> 0%nat :: seq 1 (n - 1) = seq 0 n.
Proof. intro H. destruct n; [lia|]. cbn. now rewrite Nat.sub_0_r. Qed.

(** ** The exhaustive search keeps the first minimum *)

Lemma try_permutation_inv d seen st q cq :
  search_inv d seen st -> route_cost d (0%nat :: q) = Some cq ->
  exists st', try_permutation d st q = Some st'
              /\ search_inv d (seen ++ [q]) st'.
Proof.
  intros Hinv Hq. unfold try_permutation. rewrite Hq. cbn [bind].
  destruct st as [[c|] [r|]]; cbn in Hinv; try contradiction; cbn [fst below].
  - destruct Hinv as [p [-> [before [after (Hs & Hc & Hb & Ha)]]]].
    destruct (Qltb cq c) eqn:E.
    + apply Qltb_lt in E. eexists; split; [reflexivity|]. cbn.
      exists q. split; [reflexivity|].
      exists seen, []. repeat split; auto; [|intros ? []].
      intros q' Hq'. rewrite Hs in Hq'. apply in_app_or in Hq'.
      destruct Hq' as [H|[<-|H]].
      * destruct (Hb _ H) as [c' [E' L]]. exists c'. split; [assumption|].
        eapply Qlt_trans; eassumption.
      * exists c. split; assumption.
      * destruct (Ha _ H) as [c' [E' L]]. exists c'. split; [assumption|].
        eapply Qlt_le_trans; eassumption.
    + apply Qltb_ge in E. eexists; split; [reflexivity|]. cbn.
      exists p. split; [reflexivity|].
      exists before, (after ++ [q]). repeat split; auto.
      * rewrite Hs, <- app_assoc. reflexivity.
      * intros q' Hq'. apply in_app_or in Hq'. destruct Hq' as [H|[<-|[]]].
        -- apply Ha; assumption.
        -- exists cq. split; assumption.
  - subst seen. eexists; split; [reflexivity|]. cbn.
    exists q. split; [reflexivity|].
    exists [], []. repeat split; auto; intros ? [].
Qed.

Lemma search_fold_inv d ps : forall seen st,
  (forall q, In q ps -> exists c, route_cost d (0%nat :: q) = Some c) ->
  search_inv d seen st ->
  exists st', foldM (try_permutation d) ps st = Some st'
              /\ search_inv d (seen ++ ps) st'.
Proof.
  induction ps as [|q t IH]; intros seen st Hdef Hinv; cbn [foldM].
  - rewrite app_nil_r. eauto.
  - destruct (Hdef q (or_introl eq_refl)) as [cq Hcq].
    destruct (try_permutation_inv _ _ _ _ _ Hinv Hcq) as [st1 [E1 I1]].
    rewrite E1. cbn [bind].
    destruct (IH (seen ++ [q]) st1) as [st' [E' I']]; auto.
    { intros q' Hq'. apply Hdef. now right. }
    exists st'. split; [assumption|]. now rewrite <- app_assoc in I'.
Qed.

Lemma brute_force_spec n d :
  (2 <= n)%nat -> square n d ->
  exists c p, brute_force d n = Some (Some c, Some (0%nat :: p))
              /\ first_min d (permutations (seq 1 (n - 1))) p c.
Proof.
  intros Hn Hd. unfold brute_force.
  destruct (search_fold_inv d (permutations (seq 1 (n - 1))) [] (None, None))
    as [st [E I]].
  - intros q Hq. apply permutations_spec in Hq.
    eapply route_cost_defined; [eassumption|].
    eapply in_range_perm with (l := 0%nat :: seq 1 (n - 1)).
    + constructor. symmetry. assumption.
    + rewrite seq_from_zero by lia. apply in_range_seq. lia.
  - reflexivity.
  - cbn [app] in I. rewrite E.
    destruct st as [[c|] [r|]]; cbn in I; try contradiction.
    + destruct I as [p [-> I]]. eauto.
    + exfalso. eapply permutations_nonempty. eassumption.
Qed.

(** ** Outside the rush hours the durations are left as they are *)

Lemma Qmult_one (x : Q) : x * 1 = x.
Proof.
  destruct x as [a b]. unfold Qmult. cbn [Qnum Qden].
  now rewrite Z.mul_1_r, Pos.mul_1_r.
Qed.

Lemma set_entry_same m i j x : entry m i j = Some x -> set_entry m i j x = Some m.
Proof.
  unfold entry, set_entry. intro H.
  destruct (nth_error m i) as [row|] eqn:E; cbn in *; [|discriminate].
  rewrite (assign_same _ _ _ _ H). cbn. now apply assign_same.
Qed.

Lemma adjust_durations_off_peak hour n distances durations :
  rush_hour hour = false -> square n durations ->
  adjust_durations hour n distances durations = Some durations.
Proof.
  intros Hh Hd. unfold adjust_durations.
  pose proof (cells_in_range n) as HF.
  induction (cells n) as [|[i j] t IH]; cbn [foldM]; [reflexivity|].
  inversion HF as [|? ? [Hi Hj] HF']; subst; cbn [fst snd] in *.
  assert (E : adjust_cell hour distances durations (i, j) = Some durations).
  { unfold adjust_cell. destruct (Nat.eqb i j); [reflexivity|].
    unfold traffic_multiplier. rewrite Hh. cbn [bind].
    destruct (entry_defined _ _ _ _ Hd Hi Hj) as [x Hx]. rewrite Hx.
    cbn [bind]. rewrite Qmult_one. now apply set_entry_same. }
  rewrite E. cbn [bind]. apply IH. assumption.
Qed.

(** ** [min] and [remove] *)

Lemma min_from_In key l : forall best kbest x,
  min_from key best kbest l = Some x -> x = best \/ In x l.
Proof.
  induction l as [|y t IH]; intros best kbest x H; cbn in H.
  - inversion H; auto.
  - destruct (key y) as [ky|]; cbn in H; [|discriminate].
    destruct (Qltb ky kbest); apply IH in H; cbn;
      destruct H as [->|H]; auto.
Qed.

Lemma py_min_In key l x : py_min key l = Some x -> In x l.
Proof.
  destruct l as [|y t]; cbn; [discriminate|].
  destruct (key y) as [ky|]; cbn; [|discriminate].
  intro H. apply min_from_In in H. destruct H as [->|H]; auto.
Qed.

Lemma min_from_defined key l : forall best kbest,
  (forall x, In x l -> exists k, key x = Some k) ->
  exists x, min_from key best kbest l = Some x.
Proof.
  induction l as [|y t IH]; intros best kbest H; cbn; [eauto|].
  destruct (H y (or_introl eq_refl)) as [ky ->]. cbn [bind].
  destruct (Qltb ky kbest); apply IH; intros; apply H; now right.
Qed.

Lemma py_min_defined key l :
  l <> [] -> (forall x, In x l -> exists k, key x = Some k) ->
  exists x, py_min key l = Some x.
Proof.
  destruct l as [|y t]; [congruence|]. intros _ H. cbn.
  destruct (H y (or_introl eq_refl)) as [ky ->]. cbn [bind].
  apply min_from_defined. intros; apply H; now right.
Qed.

Lemma remove_first_perm x l :
  In x l -> Permutation l (x :: remove_first x l).
Proof.
  induction l as [|y t IH]; cbn; [tauto|]. intros H.
  destruct (Nat.eqb_spec x y) as [->|N]; [reflexivity|].
  destruct H as [H|H]; [congruence|].
  rewrite (IH H) at 1. apply perm_swap.
Qed.

Lemma remove_first_length x l :
  In x l -> length l = S (length (remove_first x l)).
Proof.
  intro H. apply remove_first_perm in H. apply Permutation_length in H.
  exact H.
Qed.

Lemma in_range_In n l x : in_range n l -> In x l -> (x < n)%nat.
Proof. unfold in_range. rewrite Forall_forall. auto. Qed.

Lemma in_range_app n l1 l2 :
  in_range n (l1 ++ l2) <-> in_range n l1 /\ in_range n l2.
Proof. unfold in_range. apply Forall_app. Qed.

Lemma nearest_defined n d current l :
  square n d -> (current < n)%nat -> in_range n l -> l <> [] ->
  exists x, py_min (fun x => entry d current x) l = Some x /\ In x l.
Proof.
  intros Hd Hc Hl Hne.
  destruct (py_min_defined (fun x => entry d current x) l Hne) as [x Hx].
  - intros y Hy. apply (entry_defined _ _ _ _ Hd Hc).
    eapply in_range_In; eassumption.
  - exists x. split; [assumption|]. eapply py_min_In; eassumption.
Qed.

(** ** Nearest neighbour visits every index once *)

Lemma nearest_neighbor_loop_step bound d current route unvisited :
  unvisited <> [] ->
  nearest_neighbor_loop (S bound) d current route unvisited =
  (nearest <- py_min (fun x => entry d current x) unvisited ;;
   nearest_neighbor_loop bound d nearest (route ++ [nearest])
     (remove_first nearest unvisited)).
Proof. destruct unvisited; [congruence | reflexivity]. Qed.

Lemma nearest_neighbor_loop_spec n d : square n d ->
  forall bound current route unvisited,
  (length unvisited <= bound)%nat -> (current < n)%nat ->
  in_range n unvisited ->
  exists tail, nearest_neighbor_loop bound d current route unvisited
               = Some (route ++ tail)
               /\ Permutation tail unvisited.
Proof.
  intros Hd. induction bound as [|bound IH];
    intros current route unvisited Hb Hc Hu.
  - destruct unvisited; [|cbn in Hb; lia]. cbn. exists [].
    now rewrite app_nil_r.
  - destruct (list_eq_dec Nat.eq_dec unvisited []) as [->|Hne].
    { cbn. exists []. now rewrite app_nil_r. }
    rewrite nearest_neighbor_loop_step by assumption.
    destruct (nearest_defined _ _ _ _ Hd Hc Hu Hne) as [x [Hx Hin]].
    rewrite Hx. cbn [bind].
    pose proof (remove_first_perm _ _ Hin) as HP.
    pose proof (remove_first_length _ _ Hin) as HL.
    destruct (IH x (route ++ [x]) (remove_first x unvisited)) as [tl [E P]].
    + lia.
    + eapply in_range_In; eassumption.
    + pose proof (in_range_perm n _ _ HP Hu) as H'. now inversion H'.
    + exists (x :: tl). rewrite E, <- app_assoc. split; [reflexivity|].
      rewrite HP. now constructor.
Qed.

Lemma nearest_neighbor_spec n d :
  (1 <= n)%nat -> square n d ->
  exists tail, nearest_neighbor d n = Some (0%nat :: tail)
               /\ Permutation tail (seq 1 (n - 1)).
Proof.
  intros Hn Hd. unfold nearest_neighbor.
  destruct (nearest_neighbor_loop_spec n d Hd (n - 1) 0%nat [0%nat]
              (seq 1 (n - 1))) as [tl [E P]].
  - now rewrite length_seq.
  - lia.
  - apply in_range_seq. lia.
  - exists tl. split; assumption.
Qed.

(** ** The greedy hybrid visits every index once *)

Lemma connecting_score_defined n d current point remaining :
  square n d -> (current < n)%nat -> (point < n)%nat ->
  in_range n remaining ->
  exists s, connecting_score d current point remaining = Some s.
Proof.
  intros Hd Hc Hp Hr. unfold connecting_score. generalize 0%nat.
  induction remaining as [|o t IH]; intros s; cbn [foldM]; [eauto|].
  inversion Hr as [|? ? Ho Ht]; subst.
  assert (E : exists s', score_step d current point s o = Some s').
  { unfold score_step. destruct (Nat.eqb o point); [eauto|].
    destruct (entry_defined _ _ _ _ Hd Hc Ho) as [x1 ->].
    destruct (entry_defined _ _ _ _ Hd Hc Hp) as [x2 ->].
    destruct (entry_defined _ _ _ _ Hd Hp Ho) as [x3 ->]. cbn [bind].
    destruct (Qltb _ _); eauto. }
  destruct E as [s' ->]. cbn [bind]. apply IH. assumption.
Qed.

Lemma first_connecting_spec n d current remaining :
  square n d -> (current < n)%nat -> in_range n remaining ->
  forall candidates, in_range n candidates ->
  exists o, first_connecting d current remaining candidates = Some o
            /\ (forall p, o = Some p -> In p candidates).
Proof.
  intros Hd Hc Hr. induction candidates as [|p t IH]; intros Hcs;
    cbn [first_connecting].
  - exists None. split; [reflexivity | discriminate].
  - inversion Hcs as [|? ? Hp Ht]; subst.
    destruct (connecting_score_defined _ _ _ _ _ Hd Hc Hp Hr) as [s ->].
    cbn [bind]. destruct (Nat.ltb 0 s).
    + exists (Some p). split; [reflexivity|]. intros ? [= <-]. now left.
    + destruct (IH Ht) as [o [E H]]. exists o. split; [assumption|].
      intros q Hq. right. now apply H.
Qed.

Lemma hybrid_loop_step bound d best remaining :
  remaining <> [] ->
  hybrid_loop (S bound) d best remaining =
  (current <- nth_error best (length best - 1) ;;
   closest <- py_min (fun x => entry d current x) remaining ;;
   let best1 := best ++ [closest] in
   let remaining1 := remove_first closest remaining in
   if Nat.leb 2 (length remaining1) then
     found <- first_connecting d current remaining1 remaining1 ;;
     match found with
     | Some point =>
         hybrid_loop bound d (best1 ++ [point]) (remove_first point remaining1)
     | None => hybrid_loop bound d best1 remaining1
     end
   else hybrid_loop bound d best1 remaining1).
Proof. destruct remaining; [congruence | reflexivity]. Qed.

Lemma last_index_defined n (l : list nat) :
  l <> [] -> in_range n l ->
  exists x, nth_error l (length l - 1) = Some x /\ (x < n)%nat.
Proof.
  intros Hne Hl.
  destruct (nth_error_defined _ l (length l - 1)) as [x Hx].
  - destruct l; [congruence | cbn; lia].
  - exists x. split; [assumption|].
    eapply in_range_In; [eassumption|]. eapply nth_error_In; eassumption.
Qed.

Lemma hybrid_loop_spec n d : square n d ->
  forall bound best remaining,
  (length remaining <= bound)%nat -> best <> [] ->
  in_range n best -> in_range n remaining ->
  exists tail, hybrid_loop bound d best remaining = Some (best ++ tail)
               /\ Permutation tail remaining.
Proof.
  intros Hd. induction bound as [|bound IH];
    intros best remaining Hb Hne Hbest Hrem.
  - destruct remaining; [|cbn in Hb; lia]. cbn. exists [].
    now rewrite app_nil_r.
  - destruct (list_eq_dec Nat.eq_dec remaining []) as [->|Hr].
    { cbn. exists []. now rewrite app_nil_r. }
    rewrite hybrid_loop_step by assumption.
    destruct (last_index_defined n best Hne Hbest) as [current [-> Hc]].
    cbn [bind].
    destruct (nearest_defined _ _ _ _ Hd Hc Hrem Hr) as [x [-> Hin]].
    cbn [bind]. cbv zeta.
    pose proof (remove_first_perm _ _ Hin) as HP.
    pose proof (remove_first_length _ _ Hin) as HL.
    assert (Hx : (x < n)%nat) by exact (in_range_In n _ x Hrem Hin).
    assert (H1 : in_range n (remove_first x remaining)).
    { pose proof (in_range_perm n _ _ HP Hrem) as H'. now inversion H'. }
    assert (Hb1 : in_range n (best ++ [x])).
    { apply in_range_app. split; [assumption|]. now repeat constructor. }
    assert (Plain : exists tail,
      hybrid_loop bound d (best ++ [x]) (remove_first x remaining)
      = Some (best ++ tail) /\ Permutation tail remaining).
    { destruct (IH (best ++ [x]) (remove_first x remaining)) as [tl [E P]];
        auto; [lia | now destruct best |].
      exists (x :: tl). rewrite E, <- app_assoc. split; [reflexivity|].
      rewrite HP. now constructor. }
    destruct (Nat.leb 2 (length (remove_first x remaining))); [|exact Plain].
    destruct (first_connecting_spec _ _ _ _ Hd Hc H1 _ H1) as [o [-> Ho]].
    cbn [bind]. destruct o as [p|]; [|exact Plain].
    specialize (Ho p eq_refl).
    pose proof (remove_first_perm _ _ Ho) as HP2.
    pose proof (remove_first_length _ _ Ho) as HL2.
    destruct (IH ((best ++ [x]) ++ [p])
                (remove_first p (remove_first x remaining))) as [tl [E P]].
    + lia.
    + now destruct best.
    + apply in_range_app. split; [assumption|]. repeat constructor.
      exact (in_range_In n _ p H1 Ho).
    + pose proof (in_range_perm n _ _ HP2 H1) as H'. now inversion H'.
    + exists (x :: p :: tl). rewrite E, <- !app_assoc. split; [reflexivity|].
      rewrite HP, HP2. now repeat constructor.
Qed.

Lemma hybrid_spec n d :
  (1 <= n)%nat -> square n d ->
  exists tail, hybrid d n = Some (0%nat :: tail)
               /\ Permutation tail (seq 1 (n - 1)).
Proof.
  intros Hn Hd. unfold hybrid.
  destruct (hybrid_loop_spec n d Hd (n - 1) [0%nat] (seq 1 (n - 1)))
    as [tl [E P]].
  - now rewrite length_seq.
  - discriminate.
  - repeat constructor. lia.
  - apply in_range_seq. lia.
  - exists tl. split; assumption.
Qed.

(** ** One 2-opt scan *)

Lemma scan_pairs_spec len i j :
  In (i, j) (scan_pairs len) -> (1 <= i /\ i < j /\ j < len)%nat.
Proof.
  unfold scan_pairs. intro H. apply in_flat_map in H.
  destruct H as [i' [Hi H]]. apply in_map_iff in H.
  destruct H as [j' [E Hj]]. inversion E; subst.
  apply in_seq in Hi. apply in_seq in Hj. lia.
Qed.

Lemma hop_defined n d route a b :
  square n d -> in_range n route ->
  (a < length route)%nat -> (b < length route)%nat ->
  exists c, hop d route a b = Some c.
Proof.
  intros Hd Hr Ha Hb. unfold hop.
  destruct (nth_error_defined _ route a Ha) as [x Hx].
  destruct (nth_error_defined _ route b Hb) as [y Hy].
  rewrite Hx, Hy. cbn [bind].
  apply (entry_defined _ _ _ _ Hd); eapply in_range_In; try eassumption;
    eapply nth_error_In; eassumption.
Qed.

Lemma first_improving_spec n d route :
  square n d -> in_range n route ->
  forall pairs,
  (forall i j, In (i, j) pairs -> (1 <= i /\ i < j /\ j < length route)%nat) ->
  exists o, first_improving d route pairs = Some o
            /\ (forall i j, o = Some (i, j) ->
                  In (i, j) pairs /\ improving d route i j).
Proof.
  intros Hd Hr. induction pairs as [|[i j] t IH]; intros Hp; cbn.
  - exists None. split; [reflexivity | discriminate].
  - destruct (Hp i j (or_introl eq_refl)) as (H1 & H2 & H3).
    assert (Ec : exists cc, current_cost d route i j = Some cc).
    { unfold current_cost.
      destruct (hop_defined n d route (i - 1) i) as [c1 ->]; auto; try lia.
      destruct (hop_defined n d route (j - 1) j) as [c2 ->]; auto; try lia.
      cbn; eauto. }
    assert (En : exists nc, new_cost d route i j = Some nc).
    { unfold new_cost.
      destruct (hop_defined n d route (i - 1) (j - 1)) as [c1 ->]; auto;
        try lia.
      destruct (hop_defined n d route i j) as [c2 ->]; auto; try lia.
      cbn; eauto. }
    destruct Ec as [cc Ecc]. destruct En as [nc Enc].
    rewrite Ecc, Enc. cbn [bind].
    destruct (Qltb nc cc) eqn:E.
    + exists (Some (i, j)). split; [reflexivity|].
      intros ? ? [= <- <-]. split; [now left|].
      exists cc, nc. apply Qltb_lt in E. auto.
    + destruct IH as [o [Eo Ho]].
      { intros; apply Hp; now right. }
      exists o. split; [assumption|].
      intros i' j' Hij. destruct (Ho _ _ Hij). split; [now right | assumption].
Qed.

Lemma reverse_segment_perm route i j :
  (i <= j)%nat -> Permutation (reverse_segment route i j) route.
Proof.
  intro H. unfold reverse_segment.
  rewrite <- (firstn_skipn i route) at 4.
  apply Permutation_app_head.
  replace (skipn j route) with (skipn (j - i) (skipn i route))
    by (rewrite skipn_skipn; f_equal; lia).
  rewrite <- Permutation_rev. now rewrite firstn_skipn.
Qed.

Lemma reverse_segment_head x t i j :
  (1 <= i)%nat -> exists t', reverse_segment (x :: t) i j = x :: t'.
Proof.
  intro H. destruct i as [|i]; [lia|]. unfold reverse_segment. cbn [firstn].
  eexists. reflexivity.
Qed.

(** ** The 2-opt loop keeps the order a permutation and never raises *)

Lemma two_opt_step fuel d route :
  two_opt (S fuel) d route =
  match first_improving d route (scan_pairs (length route)) with
  | None => Raised
  | Some None => Returned route
  | Some (Some (i, j)) => two_opt fuel d (reverse_segment route i j)
  end.
Proof. reflexivity. Qed.

Lemma two_opt_spec n d : square n d ->
  forall fuel route, in_range n route ->
  two_opt fuel d route <> Raised
  /\ forall r, two_opt fuel d route = Returned r ->
       Permutation r route
       /\ (forall x t, route = x :: t -> exists t', r = x :: t').
Proof.
  intros Hd. induction fuel as [|fuel IH]; intros route Hr.
  - cbn. split; [discriminate|]. discriminate.
  - rewrite two_opt_step.
    destruct (first_improving_spec n d route Hd Hr (scan_pairs (length route)))
      as [o [-> Ho]].
    { intros i j. apply scan_pairs_spec. }
    destruct o as [[i j]|].
    + destruct (Ho i j eq_refl) as [Hin _].
      apply scan_pairs_spec in Hin. destruct Hin as (H1 & H2 & H3).
      assert (HP : Permutation (reverse_segment route i j) route)
        by (apply reverse_segment_perm; lia).
      destruct (IH (reverse_segment route i j)) as [Hnr Hret].
      { eapply in_range_perm; [symmetry; exact HP | exact Hr]. }
      split; [assumption|]. intros r Er.
      destruct (Hret r Er) as [P Hh]. split; [now rewrite P|].
      intros x t ->.
      destruct (reverse_segment_head x t i j H1) as [t' Et'].
      eapply Hh. exact Et'.
    + split; [discriminate|]. intros r [= <-]. split; [reflexivity|].
      intros x t ->. eauto.
Qed.

(** ** The cost of an order as a sum over its edges *)

Lemma sum_edges_total d route : forall acc c,
  sum_edges d acc route = Some c -> c == acc + total d route.
Proof.
  induction route as [|a t IH]; intros acc c H; cbn in H.
  - inversion H; subst. cbn [total]. lra.
  - destruct t as [|b t'].
    + inversion H; subst. cbn [total]. lra.
    + destruct (entry d a b) as [x|] eqn:E; cbn [bind] in H; [|discriminate].
      apply IH in H. rewrite H. cbn [total]. unfold cost. rewrite E. lra.
Qed.

Lemma route_cost_total d route c :
  route_cost d route = Some c -> c == total d route.
Proof. intro H. apply sum_edges_total in H. rewrite H. lra. Qed.

Lemma total_cons d a l :
  l <> [] -> total d (a :: l) = cost d a (hd 0%nat l) + total d l.
Proof. destruct l; [congruence | reflexivity]. Qed.

(** Two pieces joined by the edge between them. *)
Lemma total_join d l1 : forall l2,
  l1 <> [] -> l2 <> [] ->
  total d (l1 ++ l2)
  == total d l1 + cost d (last l1 0%nat) (hd 0%nat l2) + total d l2.
Proof.
  induction l1 as [|a t IH]; intros l2 H1 H2; [congruence|].
  destruct t as [|b t'].
  - cbn [app last]. rewrite total_cons by assumption. cbn [total]. lra.
  - change ((a :: b :: t') ++ l2) with (a :: (b :: t') ++ l2).
    rewrite total_cons by discriminate.
    rewrite (IH l2) by (assumption || discriminate).
    change (last (a :: b :: t') 0%nat) with (last (b :: t') 0%nat).
    cbn [total app hd]. lra.
Qed.

Lemma hd_rev (l : list nat) : hd 0%nat (rev l) = last l 0%nat.
Proof.
  induction l as [|a t IH]; [reflexivity|].
  destruct t as [|b t']; [reflexivity|].
  change (rev (a :: b :: t')) with (rev (b :: t') ++ [a]).
  change (last (a :: b :: t') 0%nat) with (last (b :: t') 0%nat).
  rewrite <- IH. destruct (rev (b :: t')) eqn:E; [|reflexivity].
  apply (f_equal (@length nat)) in E. rewrite length_rev in E. discriminate.
Qed.

Lemma last_rev (l : list nat) : last (rev l) 0%nat = hd 0%nat l.
Proof.
  destruct l as [|a t]; [reflexivity|]. cbn [rev hd]. apply last_last.
Qed.

Lemma total_rev d l : symmetric d -> total d (rev l) == total d l.
Proof.
  intro Hs. induction l as [|a t IH]; [reflexivity|].
  destruct t as [|b t']; [reflexivity|].
  change (rev (a :: b :: t')) with (rev (b :: t') ++ [a]).
  rewrite total_join.
  - rewrite IH, last_rev. cbn [hd total]. rewrite (Hs b a). lra.
  - intro E. apply (f_equal (@length nat)) in E. rewrite length_rev in E.
    discriminate.
  - discriminate.
Qed.

(** ** The effect of one reversal on the cost *)

Lemma nth_error_hd_skipn (l : list nat) : forall k,
  (k < length l)%nat -> nth_error l k = Some (hd 0%nat (skipn k l)).
Proof.
  induction l as [|a t IH]; intros [|k] H; cbn in *; try lia.
  - reflexivity.
  - apply IH. lia.
Qed.

Lemma nth_error_last_firstn (l : list nat) : forall k,
  (k < length l)%nat -> nth_error l k = Some (last (firstn (S k) l) 0%nat).
Proof.
  induction l as [|a t IH]; intros [|k] H; cbn [length] in *; try lia.
  - destruct t; reflexivity.
  - cbn [nth_error]. rewrite IH by lia.
    change (firstn (S (S k)) (a :: t)) with (a :: firstn (S k) t).
    destruct t; [cbn in H; lia | reflexivity].
Qed.

(** The three pieces of an order around the segment [route[i:j]]. *)
Section Pieces.
Variables (route : list nat) (i j : nat).
Hypothesis Hi : (1 <= i)%nat.
Hypothesis Hij : (i < j)%nat.
Hypothesis Hj : (j < length route)%nat.

Let front := firstn i route.
Let middle := firstn (j - i) (skipn i route).
Let back := skipn j route.

Lemma pieces_split : route = front ++ middle ++ back.
Proof.
  unfold front, middle, back.
  replace (skipn j route) with (skipn (j - i) (skipn i route))
    by (rewrite skipn_skipn; f_equal; lia).
  now rewrite !firstn_skipn.
Qed.

Lemma front_nonempty : front <> [].
Proof.
  unfold front. intro E. apply (f_equal (@length nat)) in E.
  rewrite length_firstn in E. cbn in E. lia.
Qed.

Lemma middle_nonempty : middle <> [].
Proof.
  unfold middle. intro E. apply (f_equal (@length nat)) in E.
  rewrite length_firstn, length_skipn in E. cbn in E. lia.
Qed.

Lemma back_nonempty : back <> [].
Proof.
  unfold back. intro E. apply (f_equal (@length nat)) in E.
  rewrite length_skipn in E. cbn in E. lia.
Qed.

Lemma at_front_end : nth_error route (i - 1) = Some (last front 0%nat).
Proof.
  unfold front. rewrite nth_error_last_firstn by lia.
  now replace (S (i - 1)) with i by lia.
Qed.

Lemma at_middle_start : nth_error route i = Some (hd 0%nat middle).
Proof.
  unfold middle. rewrite nth_error_hd_skipn by lia. f_equal.
  destruct (skipn i route); [now rewrite firstn_nil|].
  destruct (j - i)%nat eqn:E; [lia | reflexivity].
Qed.

Lemma at_middle_end : nth_error route (j - 1) = Some (last middle 0%nat).
Proof.
  unfold middle.
  replace (j - 1)%nat with (i + (j - i - 1))%nat by lia.
  rewrite <- nth_error_skipn.
  rewrite nth_error_last_firstn by (rewrite length_skipn; lia).
  now replace (S (j - i - 1)) with (j - i)%nat by lia.
Qed.

Lemma at_back_start : nth_error route j = Some (hd 0%nat back).
Proof. unfold back. apply nth_error_hd_skipn. assumption. Qed.

Lemma total_pieces d :
  total d route
  == total d front + cost d (last front 0%nat) (hd 0%nat middle)
     + total d middle + cost d (last middle 0%nat) (hd 0%nat back)
     + total d back.
Proof.
  rewrite pieces_split at 1.
  rewrite total_join by
    (try apply front_nonempty; intro E; apply app_eq_nil in E;
     destruct E as [E _]; now apply middle_nonempty).
  rewrite total_join by (apply middle_nonempty || apply back_nonempty).
  replace (hd 0%nat (middle ++ back)) with (hd 0%nat middle).
  - lra.
  - pose proof middle_nonempty. destruct middle; [congruence | reflexivity].
Qed.

Lemma total_reversed d :
  symmetric d ->
  total d (reverse_segment route i j)
  == total d front + cost d (last front 0%nat) (last middle 0%nat)
     + total d middle + cost d (hd 0%nat middle) (hd 0%nat back)
     + total d back.
Proof.
  intro Hs. unfold reverse_segment. fold front. fold middle. fold back.
  assert (Hr : rev middle <> []).
  { intro E. apply (f_equal (@rev nat)) in E. rewrite rev_involutive in E.
    now apply middle_nonempty. }
  rewrite total_join by
    (try apply front_nonempty; intro E; apply app_eq_nil in E;
     destruct E as [E _]; now apply Hr).
  rewrite total_join by (assumption || apply back_nonempty).
  replace (hd 0%nat (rev middle ++ back)) with (hd 0%nat (rev middle))
    by (destruct (rev middle); [congruence | reflexivity]).
  rewrite hd_rev, last_rev, total_rev by assumption. lra.
Qed.

Lemma current_cost_pieces d cc :
  current_cost d route i j = Some cc ->
  cc == cost d (last front 0%nat) (hd 0%nat middle)
        + cost d (last middle 0%nat) (hd 0%nat back).
Proof.
  unfold current_cost, hop.
  rewrite at_front_end, at_middle_start, at_middle_end, at_back_start.
  cbn [bind]. unfold cost.
  destruct (entry d _ _); cbn [bind]; [|discriminate].
  destruct (entry d _ _); cbn [bind]; [|discriminate].
  intros [= <-]. reflexivity.
Qed.

Lemma new_cost_pieces d nc :
  new_cost d route i j = Some nc ->
  nc == cost d (last front 0%nat) (last middle 0%nat)
        + cost d (hd 0%nat middle) (hd 0%nat back).
Proof.
  unfold new_cost, hop.
  rewrite at_front_end, at_middle_start, at_middle_end, at_back_start.
  cbn [bind]. unfold cost.
  destruct (entry d _ _); cbn [bind]; [|discriminate].
  destruct (entry d _ _); cbn [bind]; [|discriminate].
  intros [= <-]. reflexivity.
Qed.

(** On a symmetric matrix the cost moves by exactly the two edges. *)
Lemma reversal_lowers_total d :
  symmetric d -> improving d route i j ->
  total d (reverse_segment route i j) < total d route.
Proof.
  intros Hs (cc & nc & Hcc & Hnc & Hlt).
  apply current_cost_pieces in Hcc. apply new_cost_pieces in Hnc.
  rewrite (total_reversed d Hs), (total_pieces d). lra.
Qed.
End Pieces.

(** ** On a symmetric matrix the 2-opt loop stops *)

Lemma filter_length_le (A : Type) (f g : A -> bool) (l : list A) :
  (forall x, f x = true -> g x = true) ->
  (length (filter f l) <= length (filter g l))%nat.
Proof.
  intro H. induction l as [|x t IH]; cbn; [lia|].
  destruct (f x) eqn:Ef.
  - rewrite (H x Ef). cbn. lia.
  - destruct (g x); cbn; lia.
Qed.

Lemma filter_length_lt (A : Type) (f g : A -> bool) (l : list A) y :
  (forall x, f x = true -> g x = true) ->
  In y l -> g y = true -> f y = false ->
  (length (filter f l) < length (filter g l))%nat.
Proof.
  intros H Hin Hg Hf. induction l as [|x t IH]; cbn; [contradiction|].
  destruct Hin as [->|Hin].
  - rewrite Hf, Hg. cbn. pose proof (filter_length_le A f g t H). lia.
  - specialize (IH Hin). destruct (f x) eqn:Ef.
    + rewrite (H x Ef). cbn. lia.
    + destruct (g x); cbn; lia.
Qed.

Lemma cheaper_decreases d seed route route' :
  Permutation route' seed -> total d route' < total d route ->
  (cheaper d seed route' < cheaper d seed route)%nat.
Proof.
  intros HP Hlt. unfold cheaper. apply filter_length_lt with (y := route').
  - intros p Hp. apply Qltb_lt in Hp. apply Qltb_lt.
    eapply Qlt_trans; eassumption.
  - now apply permutations_spec.
  - now apply Qltb_lt.
  - apply Qltb_ge. apply Qle_refl.
Qed.

Lemma two_opt_terminates n d seed :
  square n d -> symmetric d ->
  forall fuel route,
  Permutation route seed -> in_range n route ->
  (cheaper d seed route < fuel)%nat ->
  exists r, two_opt fuel d route = Returned r.
Proof.
  intros Hd Hs. induction fuel as [|fuel IH]; intros route HP Hr Hm; [lia|].
  rewrite two_opt_step.
  destruct (first_improving_spec n d route Hd Hr (scan_pairs (length route)))
    as [o [-> Ho]].
  { intros i j. apply scan_pairs_spec. }
  destruct o as [[i j]|]; [|eauto].
  destruct (Ho i j eq_refl) as [Hin Himp].
  apply scan_pairs_spec in Hin. destruct Hin as (H1 & H2 & H3).
  assert (HP' : Permutation (reverse_segment route i j) route)
    by (apply reverse_segment_perm; lia).
  apply IH.
  - now rewrite HP'.
  - eapply in_range_perm; [symmetry; exact HP' | exact Hr].
  - pose proof (reversal_lowers_total route i j H1 H2 H3 d Hs Himp) as Hlt.
    pose proof (cheaper_decreases d seed route (reverse_segment route i j)) as Hc.
    assert (cheaper d seed (reverse_segment route i j) < cheaper d seed route)%nat.
    { apply Hc; [now rewrite HP' | assumption]. }
    lia.
Qed.

Lemma two_opt_monotone n d :
  square n d -> symmetric d ->
  forall fuel route r, in_range n route ->
  two_opt fuel d route = Returned r -> total d r <= total d route.
Proof.
  intros Hd Hs. induction fuel as [|fuel IH]; intros route r Hr H;
    [discriminate|].
  rewrite two_opt_step in H.
  destruct (first_improving_spec n d route Hd Hr (scan_pairs (length route)))
    as [o [Eo Ho]].
  { intros i j. apply scan_pairs_spec. }
  rewrite Eo in H. destruct o as [[i j]|].
  - destruct (Ho i j eq_refl) as [Hin Himp].
    apply scan_pairs_spec in Hin. destruct Hin as (H1 & H2 & H3).
    assert (HP' : Permutation (reverse_segment route i j) route)
      by (apply reverse_segment_perm; lia).
    apply IH in H.
    + pose proof (reversal_lowers_total route i j H1 H2 H3 d Hs Himp). lra.
    + eapply in_range_perm; [symmetry; exact HP' | exact Hr].
  - inversion H; subst. apply Qle_refl.
Qed.

(** ** The tail of [optimize_route] *)

Lemma collect_coordinates_defined (coordinates : list coord) l :
  in_range (length coordinates) l ->
  forall acc, exists r,
    foldM (fun acc i => c <- nth_error coordinates i ;; Some (acc ++ [c])) l acc
    = Some r.
Proof.
  induction l as [|i t IH]; intros Hl acc; cbn [foldM]; [eauto|].
  inversion Hl as [|? ? Hi Ht]; subst.
  destruct (nth_error_defined _ coordinates i Hi) as [c ->]. cbn [bind].
  apply IH. assumption.
Qed.

Lemma finish_defined coordinates distances tail route_duration :
  let n := length coordinates in
  square n distances -> in_range n (0%nat :: tail) ->
  exists optimized_route total_distance,
    route_cost distances (0%nat :: tail) = Some total_distance
    /\ finish coordinates distances (Some (0%nat :: tail)) route_duration
       = Some (Optimized (0%nat :: tail) optimized_route
                 (format_time (hours_of route_duration)
                              (minutes_of route_duration))
                 (format_1f total_distance)).
Proof.
  intros n Hx Hr. unfold finish. cbn [truthy indices_of].
  destruct (collect_coordinates_defined coordinates _ Hr []) as [rt ->].
  cbn [bind].
  destruct (route_cost_defined n distances _ Hx Hr) as [cd Hcd].
  assert (Hn : Nat.eqb (length distances) 0 = false).
  { apply Nat.eqb_neq. destruct Hx as [-> _]. inversion Hr; subst. lia. }
  rewrite Hn. cbn [negb andb]. rewrite Hcd. cbn [bind].
  exists rt, cd. split; reflexivity.
Qed.

Lemma valid_order_intro n tail :
  (1 <= n)%nat -> Permutation tail (seq 1 (n - 1)) ->
  valid_order n (0%nat :: tail).
Proof.
  intros Hn HP.
  assert (P : Permutation (0%nat :: tail) (seq 0 n)).
  { rewrite <- seq_from_zero by assumption. now constructor. }
  repeat split.
  - exact P.
  - eapply Permutation_NoDup; [symmetry; exact P | apply seq_NoDup].
  - rewrite (Permutation_length P). apply length_seq.
Qed.

Lemma valid_order_in_range n order : valid_order n order -> in_range n order.
Proof.
  intros (_ & P & _). eapply in_range_perm; [symmetry; exact P|].
  apply in_range_seq. lia.
Qed.

(** ** What each strategy branch of [optimize_route] returns *)

Lemma first_min_perm d l p c :
  first_min d (permutations l) p c -> Permutation p l.
Proof.
  intros (before & after & E & _). apply permutations_spec. rewrite E.
  apply in_or_app. right. now left.
Qed.

Lemma zero_time : format_time (hours_of 0) (minutes_of 0) = "0h 0m"%string.
Proof. reflexivity. Qed.

Section Branches.
Variables (fuel : nat) (current_hour : Z) (coordinates : list coord).
Variables (durations0 distances d : matrix).
Let n := length coordinates.
Hypothesis Hdist : square n distances.
Hypothesis Hd : square n d.
Hypothesis Hadj : adjust_durations current_hour n distances durations0 = Some d.

Lemma optimize_body_exact :
  (2 <= n <= 6)%nat ->
  exists c p optimized_route total_distance,
    first_min d (permutations (seq 1 (n - 1))) p c
    /\ route_cost distances (0%nat :: p) = Some total_distance
    /\ optimize_body fuel current_hour coordinates durations0 distances
       = Returned (Optimized (0%nat :: p) optimized_route "0h 0m"
                             (format_1f total_distance)).
Proof.
  intros Hn. unfold optimize_body. fold n. rewrite Hadj.
  replace (Nat.leb n 6) with true by (symmetry; apply Nat.leb_le; lia).
  destruct (brute_force_spec n d) as (c & p & E & Hmin); [lia | assumption |].
  rewrite E.
  assert (Hp : valid_order n (0%nat :: p)).
  { apply valid_order_intro; [lia|]. eapply first_min_perm; eassumption. }
  destruct (finish_defined coordinates distances p 0 Hdist
              (valid_order_in_range _ _ Hp)) as (rt & cd & Hcd & Hf).
  rewrite Hf, zero_time. exists c, p, rt, cd. auto.
Qed.

Lemma optimize_body_medium :
  (7 <= n <= 12)%nat ->
  exists seed,
    nearest_neighbor d n = Some seed /\ valid_order n seed
    /\ match two_opt fuel d seed with
       | Diverged =>
           optimize_body fuel current_hour coordinates durations0 distances
           = Diverged
       | Raised => False
       | Returned best =>
           valid_order n best
           /\ exists optimized_route total_distance,
               route_cost distances best = Some total_distance
               /\ optimize_body fuel current_hour coordinates durations0
                    distances
                  = Returned (Optimized best optimized_route "0h 0m"
                                        (format_1f total_distance))
       end.
Proof.
  intros Hn. unfold optimize_body. fold n. rewrite Hadj.
  replace (Nat.leb n 6) with false by (symmetry; apply Nat.leb_gt; lia).
  replace (Nat.leb n 12) with true by (symmetry; apply Nat.leb_le; lia).
  destruct (nearest_neighbor_spec n d) as (tl & E & P); [lia | assumption |].
  rewrite E. exists (0%nat :: tl).
  assert (Hv : valid_order n (0%nat :: tl))
    by (apply valid_order_intro; [lia | assumption]).
  split; [reflexivity|]. split; [assumption|].
  destruct (two_opt_spec n d Hd fuel _ (valid_order_in_range _ _ Hv))
    as [Hnr Hret].
  destruct (two_opt fuel d (0%nat :: tl)) as [| |best];
    [reflexivity | now apply Hnr |].
  destruct (Hret best eq_refl) as [HP Hh].
  destruct (Hh _ _ eq_refl) as [tl' ->].
  assert (Hv' : valid_order n (0%nat :: tl')).
  { apply valid_order_intro; [lia|].
    apply Permutation_cons_inv with 0%nat. rewrite HP. now constructor. }
  split; [assumption|].
  destruct (finish_defined coordinates distances tl' 0 Hdist
              (valid_order_in_range _ _ Hv')) as (rt & cd & Hcd & Hf).
  rewrite Hf, zero_time. eauto.
Qed.

Lemma optimize_body_large :
  (13 <= n)%nat ->
  exists best route_duration optimized_route total_distance,
    hybrid d n = Some best /\ valid_order n best
    /\ route_cost d best = Some route_duration
    /\ route_cost distances best = Some total_distance
    /\ optimize_body fuel current_hour coordinates durations0 distances
       = Returned (Optimized best optimized_route
                     (format_time (hours_of route_duration)
                                  (minutes_of route_duration))
                     (format_1f total_distance)).
Proof.
  intros Hn. unfold optimize_body. fold n. rewrite Hadj.
  replace (Nat.leb n 6) with false by (symmetry; apply Nat.leb_gt; lia).
  replace (Nat.leb n 12) with false by (symmetry; apply Nat.leb_gt; lia).
  destruct (hybrid_spec n d) as (tl & E & P); [lia | assumption |].
  rewrite E.
  assert (Hv : valid_order n (0%nat :: tl))
    by (apply valid_order_intro; [lia | assumption]).
  pose proof (valid_order_in_range _ _ Hv) as Hr.
  destruct (route_cost_defined n d _ Hd Hr) as [rd Hrd]. rewrite Hrd.
  destruct (finish_defined coordinates distances tl rd Hdist Hr)
    as (rt & cd & Hcd & Hf).
  rewrite Hf. exists (0%nat :: tl), rd, rt, cd. auto.
Qed.
End Branches.

Lemma optimize_route_unfold fuel hour coordinates durations distances :
  (2 <= length coordinates)%nat ->
  optimize_route fuel hour (Some (durations, distances)) coordinates =
  match optimize_body fuel hour coordinates durations distances with
  | Diverged => None
  | Raised => Some Unavailable
  | Returned r => Some r
  end.
Proof.
  intro H. unfold optimize_route.
  replace (Nat.leb (length coordinates) 1) with false
    by (symmetry; apply Nat.leb_gt; lia).
  reflexivity.
Qed.

(** ** The scenarios of the specification, evaluated *)

Import RouteExamples.

(** [itertools.permutations] enumerates in lexicographic order of
    positions. *)
Example permutations_of_three :
  permutations [1; 2; 3]%nat
  = [[1; 2; 3]; [1; 3; 2]; [2; 1; 3]; [2; 3; 1]; [3; 1; 2]; [3; 2; 1]]%nat.
Proof. reflexivity. Qed.

(** Four waypoints: the exhaustive search returns [0, 1, 3, 2], of total
    10 + 25 + 30 = 65. *)
Example four_waypoints_order :
  optimize_route 0 12 (Some (four_points, four_points)) (waypoints 4)
  = Some (Optimized [0; 1; 3; 2]%nat [(0, 0); (1, 0); (3, 0); (2, 0)]
                    "0h 0m" "65.0")
  /\ route_cost four_points [0; 1; 3; 2]%nat = Some 65.
Proof. split; vm_compute; reflexivity. Qed.

(** Thirteen waypoints: the greedy branch, the only one that sums the
    durations of its order. *)
Example thirteen_waypoints_order :
  optimize_route 0 12 (Some (thirteen, thirteen)) (waypoints 13)
  = Some (Optimized [0; 6; 1; 7; 2; 3; 4; 12; 8; 11; 5; 10; 9]%nat
            [(0, 0); (6, 0); (1, 0); (7, 0); (2, 0); (3, 0); (4, 0);
             (12, 0); (8, 0); (11, 0); (5, 0); (10, 0); (9, 0)]
            "16h 6m" "58000.0").
Proof. vm_compute. reflexivity. Qed.

(** Seven waypoints on a line: nearest neighbour zigzags outwards, at a
    cost of 94, and 2-opt brings it down to 64. *)
Example zigzag_improved :
  nearest_neighbor on_a_line 7 = Some [0; 1; 2; 3; 4; 5; 6]%nat
  /\ two_opt 10 on_a_line [0; 1; 2; 3; 4; 5; 6]%nat
     = Returned [0; 5; 3; 1; 2; 4; 6]%nat
  /\ route_cost on_a_line [0; 1; 2; 3; 4; 5; 6]%nat = Some 94
  /\ route_cost on_a_line [0; 5; 3; 1; 2; 4; 6]%nat = Some 64.
Proof. repeat split; vm_compute; reflexivity. Qed.

(** ** What the traffic adjustment does to each entry *)

Lemma assign_nth_error (A : Type) (l : list A) i v : forall l' k,
  assign l i v = Some l' ->
  nth_error l' k = if Nat.eqb k i then Some v else nth_error l k.
Proof.
  revert i. induction l as [|x t IH]; intros [|i] l' k H; cbn in H;
    try discriminate.
  - inversion H; subst. destruct k; reflexivity.
  - destruct (assign t i v) as [t'|] eqn:E; cbn in H; [|discriminate].
    inversion H; subst. destruct k as [|k]; [reflexivity|].
    cbn [nth_error]. rewrite (IH i t' k E). reflexivity.
Qed.

Lemma set_entry_entry m i j v m' a b :
  set_entry m i j v = Some m' ->
  entry m' a b
  = if Nat.eqb a i && Nat.eqb b j then Some v else entry m a b.
Proof.
  unfold set_entry, entry. intro H.
  destruct (nth_error m i) as [row|] eqn:Er; cbn [bind] in H; [|discriminate].
  destruct (assign row j v) as [row'|] eqn:Ea; cbn [bind] in H;
    [|discriminate].
  rewrite (assign_nth_error _ m i row' m' a H).
  destruct (Nat.eqb_spec a i) as [->|Hai]; cbn [andb bind]; [|reflexivity].
  rewrite Er. cbn [bind]. apply (assign_nth_error _ row j v row' b Ea).
Qed.

Lemma adjust_cell_entry hour distances d i j d' a b :
  adjust_cell hour distances d (i, j) = Some d' ->
  entry d' a b
  = if Nat.eqb a i && Nat.eqb b j && negb (Nat.eqb i j)
    then scaled hour distances a b (entry d a b)
    else entry d a b.
Proof.
  unfold adjust_cell. intro H.
  destruct (Nat.eqb_spec i j) as [->|Hij].
  - inversion H; subst. now rewrite andb_false_r.
  - rewrite andb_true_r.
    destruct (traffic_multiplier hour distances i j) as [mult|] eqn:Em;
      cbn [bind] in H; [|discriminate].
    destruct (entry d i j) as [x|] eqn:Ex; cbn [bind] in H; [|discriminate].
    rewrite (set_entry_entry _ _ _ _ _ a b H).
    destruct (Nat.eqb_spec a i) as [->|]; [|reflexivity].
    destruct (Nat.eqb_spec b j) as [->|]; [|reflexivity].
    cbn [andb]. rewrite Ex. unfold scaled, multiplier. now rewrite Em.
Qed.

Lemma is_cell_spec a b c : is_cell a b c = true <-> c = (a, b).
Proof.
  destruct c as [i j]. unfold is_cell. cbn [fst snd].
  rewrite andb_true_iff, !Nat.eqb_eq. split.
  - intros [-> ->]. reflexivity.
  - intros [= -> ->]. auto.
Qed.

Lemma adjust_fold_entry hour distances cs : NoDup cs ->
  forall d d' a b,
  foldM (adjust_cell hour distances) cs d = Some d' ->
  entry d' a b
  = if existsb (is_cell a b) cs && negb (Nat.eqb a b)
    then scaled hour distances a b (entry d a b)
    else entry d a b.
Proof.
  induction cs as [|[i j] t IH]; intros Hnd d d' a b H; cbn [foldM] in H.
  - inversion H; subst. reflexivity.
  - inversion Hnd as [|? ? Hnotin Hnd']; subst.
    destruct (adjust_cell hour distances d (i, j)) as [d1|] eqn:E1;
      cbn [bind] in H; [|discriminate].
    rewrite (IH Hnd' d1 d' a b H).
    rewrite (adjust_cell_entry _ _ _ _ _ _ a b E1).
    cbn [existsb]. unfold is_cell at 2. cbn [fst snd].
    destruct (Nat.eqb_spec a i) as [->|Hai];
      [destruct (Nat.eqb_spec b j) as [->|Hbj]|]; cbn [andb orb];
      try reflexivity.
    assert (Ht : existsb (is_cell i j) t = false).
    { destruct (existsb (is_cell i j) t) eqn:Et; [|reflexivity].
      apply existsb_exists in Et. destruct Et as [c [Hc Hcell]].
      apply is_cell_spec in Hcell. subst c. contradiction. }
    rewrite Ht. cbn [andb]. reflexivity.
Qed.

Lemma cells_NoDup n : NoDup (cells n).
Proof.
  unfold cells. generalize (seq_NoDup n 0). generalize (seq 0 n) at 1 3.
  induction l as [|i t IH]; intros Hnd; cbn [flat_map]; [constructor|].
  inversion Hnd as [|? ? Hi Ht]; subst.
  apply NoDup_app.
  - apply Finite.Injective_map_NoDup; [|apply seq_NoDup].
    intros x y [= ->]. reflexivity.
  - now apply IH.
  - intros [x y] H1 H2. apply in_map_iff in H1. destruct H1 as [y' [[= <- <-] _]].
    apply in_flat_map in H2. destruct H2 as [i' [Hi' H2]].
    apply in_map_iff in H2. destruct H2 as [y'' [[= -> _] _]]. contradiction.
Qed.

Lemma cells_spec n a b :
  existsb (is_cell a b) (cells n) = Nat.ltb a n && Nat.ltb b n.
Proof.
  destruct (existsb (is_cell a b) (cells n)) eqn:E; symmetry.
  - apply existsb_exists in E. destruct E as [c [Hc Hcell]].
    apply is_cell_spec in Hcell. subst c.
    pose proof (cells_in_range n) as HF. rewrite Forall_forall in HF.
    destruct (HF _ Hc) as [Ha Hb]. cbn [fst snd] in *.
    apply andb_true_iff. split; now apply Nat.ltb_lt.
  - destruct (Nat.ltb_spec a n) as [Ha|Ha]; [|reflexivity].
    destruct (Nat.ltb_spec b n) as [Hb|Hb]; [|reflexivity].
    exfalso. assert (Hin : In (a, b) (cells n)).
    { unfold cells. apply in_flat_map. exists a. split; [apply in_seq; lia|].
      apply in_map. apply in_seq. lia. }
    assert (existsb (is_cell a b) (cells n) = true).
    { apply existsb_exists. exists (a, b). split; [assumption|].
      now apply is_cell_spec. }
    congruence.
Qed.

(** Every entry off the diagonal is multiplied once by its factor. *)
Lemma adjust_durations_entry hour n distances durations d a b :
  adjust_durations hour n distances durations = Some d ->
  entry d a b
  = if Nat.ltb a n && Nat.ltb b n && negb (Nat.eqb a b)
    then scaled hour distances a b (entry durations a b)
    else entry durations a b.
Proof.
  intro H. unfold adjust_durations in H.
  rewrite (adjust_fold_entry hour distances (cells n) (cells_NoDup n)
             durations d a b H).
  now rewrite cells_spec.
Qed.

(** ** Symmetric inputs give symmetric adjusted durations *)

Lemma Qltb_compat x x' y y' : x == x' -> y == y' -> Qltb x y = Qltb x' y'.
Proof.
  intros Hx Hy. unfold Qltb. now rewrite (Qcompare_comp x x' Hx y y' Hy).
Qed.

Lemma multiplier_symmetric hour distances a b :
  symmetric distances ->
  (exists x, entry distances a b = Some x) ->
  (exists y, entry distances b a = Some y) ->
  multiplier hour distances a b == multiplier hour distances b a.
Proof.
  intros Hs [x Hx] [y Hy]. unfold multiplier, traffic_multiplier.
  destruct (rush_hour hour); [|reflexivity].
  rewrite Hx, Hy. cbn [bind].
  assert (E : x == y).
  { pose proof (Hs a b) as H. unfold cost in H. now rewrite Hx, Hy in H. }
  rewrite (Qltb_compat (x / 30) (y / 30) 1 1) by (rewrite ?E; reflexivity).
  destruct (Qltb (y / 30) 1); rewrite ?E; reflexivity.
Qed.

(** When the provider's distances and durations are both symmetric, so
    are the durations after the traffic adjustment, at every hour. *)
Lemma adjust_durations_symmetric hour n distances durations d :
  square n distances -> square n durations ->
  symmetric distances -> symmetric durations ->
  adjust_durations hour n distances durations = Some d ->
  symmetric d.
Proof.
  intros Hx Hd Sx Sd H a b. unfold cost.
  rewrite (adjust_durations_entry hour n distances durations d a b H).
  rewrite (adjust_durations_entry hour n distances durations d b a H).
  rewrite (Nat.eqb_sym b a), (andb_comm (Nat.ltb b n)).
  destruct (Nat.ltb_spec a n) as [Ha|Ha];
    [destruct (Nat.ltb_spec b n) as [Hb|Hb]|]; cbn [andb];
    try apply (Sd a b).
  destruct (Nat.eqb a b); cbn [negb]; [apply (Sd a b)|].
  destruct (entry_defined _ _ _ _ Hd Ha Hb) as [x Ex].
  destruct (entry_defined _ _ _ _ Hd Hb Ha) as [y Ey].
  pose proof (Sd a b) as E. unfold cost in E. rewrite Ex, Ey in *.
  cbn [scaled].
  rewrite (multiplier_symmetric hour distances a b Sx
             (entry_defined _ _ _ _ Hx Ha Hb) (entry_defined _ _ _ _ Hx Hb Ha)).
  now rewrite E.
Qed.

(** ** Checking the sample inputs *)

Lemma cost_out_of_range n d a b :
  square n d -> (n <= a \/ n <= b)%nat -> cost d a b = 0.
Proof.
  intros [Hl Hr] H. unfold cost, entry.
  destruct (nth_error d a) as [row|] eqn:E; [|reflexivity]. cbn [bind].
  destruct (nth_error row b) eqn:E'; [|reflexivity]. exfalso.
  assert (a < n)%nat by (rewrite <- Hl; apply nth_error_Some; congruence).
  assert (b < length row)%nat by (apply nth_error_Some; congruence).
  rewrite Forall_forall in Hr. rewrite (Hr row) in *; [lia|].
  eapply nth_error_In; eassumption.
Qed.

Lemma symmetricb_sound n d :
  square n d -> symmetricb n d = true -> symmetric d.
Proof.
  intros Hsq H a b. unfold symmetricb in H. rewrite forallb_forall in H.
  destruct (Nat.lt_ge_cases a n) as [Ha|Ha];
    [destruct (Nat.lt_ge_cases b n) as [Hb|Hb]|].
  - assert (Ia : In a (seq 0 n)) by (apply in_seq; lia).
    assert (Ib : In b (seq 0 n)) by (apply in_seq; lia).
    specialize (H a Ia). rewrite forallb_forall in H.
    apply Qeq_bool_iff. apply H. assumption.
  - rewrite (cost_out_of_range n d a b), (cost_out_of_range n d b a); auto.
    reflexivity.
  - rewrite (cost_out_of_range n d a b), (cost_out_of_range n d b a); auto.
    reflexivity.
Qed.

Lemma squareb_sound n d : squareb n d = true -> square n d.
Proof.
  unfold squareb. intro H. apply andb_true_iff in H. destruct H as [H1 H2].
  split; [now apply Nat.eqb_eq|]. apply Forall_forall. intros row Hrow.
  rewrite forallb_forall in H2. apply Nat.eqb_eq. now apply H2.
Qed.

(** ** The claims about [optimize_route] *)

(** C1 (refuted on the code).  The claim: the formatted duration is the
    floor-hours and floor-minutes of the sum of the edge durations along the
    returned order, in every strategy branch.  The code: for two waypoints
    two hours apart the returned order is [0, 1], whose edge durations sum
    to 7200 s, that is "2h 0m", and the returned duration string is
    "0h 0m"; the distance string is the sum over the distance matrix. *)
Theorem two_waypoints_duration_string :
  optimize_route 0 12 (Some (two_hours, hundred_km)) (waypoints 2)
  = Some (Optimized [0%nat; 1%nat] [(0, 0); (1, 0)] "0h 0m" "100.0")
  /\ adjust_durations 12 2 hundred_km two_hours = Some two_hours
  /\ route_cost two_hours [0%nat; 1%nat] = Some 7200
  /\ format_time (hours_of 7200) (minutes_of 7200) = "2h 0m"%string
  /\ route_cost hundred_km [0%nat; 1%nat] = Some 100
  /\ format_1f 100 = "100.0"%string.
Proof. repeat split; vm_compute; reflexivity. Qed.





(** C3.  With at least two waypoints, whatever [optimize_route] returns
    carries an index order that starts with 0, is a permutation of 0..N-1,
    has no repeated index and has length N; this holds in each of the three
    branches.  The exhaustive and the greedy branch always return; the
    2-opt branch returns once the loop has stopped, which it does whenever
    the durations it works on are symmetric. *)
Theorem optimize_route_order_is_permutation hour coordinates durations
  distances n :
  length coordinates = n -> (2 <= n)%nat ->
  square n durations -> square n distances ->
  (forall fuel res,
     optimize_route fuel hour (Some (durations, distances)) coordinates
     = Some res ->
     exists order optimized_route time_str distance_str,
       res = Optimized order optimized_route time_str distance_str
       /\ valid_order n order)
  /\ ((n <= 6 \/ 12 < n)%nat -> forall fuel, exists res,
        optimize_route fuel hour (Some (durations, distances)) coordinates
        = Some res)
  /\ (forall d, adjust_durations hour n distances durations = Some d ->
        symmetric d -> exists fuel res,
          optimize_route fuel hour (Some (durations, distances)) coordinates
          = Some res).
Proof.
  intros <- Hn Hdur Hdist.
  destruct (adjust_durations_square hour _ _ _ Hdist Hdur) as [d [Hadj Hd]].
  pose proof (fun fuel => optimize_body_exact fuel hour coordinates durations
                            distances d Hdist Hd Hadj) as Hexact.
  pose proof (fun fuel => optimize_body_medium fuel hour coordinates durations
                            distances d Hdist Hd Hadj) as Hmedium.
  pose proof (fun fuel => optimize_body_large fuel hour coordinates durations
                            distances d Hdist Hd Hadj) as Hlarge.
  assert (Hcases : (length coordinates <= 6
                    \/ 7 <= length coordinates <= 12
                    \/ 13 <= length coordinates)%nat) by lia.
  split; [|split].
  - intros fuel res H. rewrite optimize_route_unfold in H by lia.
    destruct Hcases as [H6|[H12|H13]].
    + destruct (Hexact fuel) as (c & p & rt & cd & Hmin & _ & E); [lia|].
      rewrite E in H. inversion H; subst.
      exists (0%nat :: p), rt, "0h 0m"%string, (format_1f cd).
      split; [reflexivity|]. apply valid_order_intro; [lia|].
      eapply first_min_perm; eassumption.
    + destruct (Hmedium fuel H12) as (seed & _ & _ & Hm).
      destruct (two_opt fuel d seed) as [| |best].
      * rewrite Hm in H. discriminate.
      * contradiction.
      * destruct Hm as (Hv & rt & cd & _ & E).
        rewrite E in H. inversion H; subst. eauto 6.
    + destruct (Hlarge fuel H13) as (best & rd & rt & cd & _ & Hv & _ & _ & E).
      rewrite E in H. inversion H; subst. eauto 6.
  - intros Hout fuel. rewrite optimize_route_unfold by lia.
    destruct Hout as [H6|H13].
    + destruct (Hexact fuel) as (c & p & rt & cd & _ & _ & E); [lia|].
      rewrite E. eauto.
    + destruct (Hlarge fuel) as (best & rd & rt & cd & _ & _ & _ & _ & E);
        [lia|].
      rewrite E. eauto.
  - intros d' Hadj' Hsym. rewrite Hadj in Hadj'. inversion Hadj'; subst d'.
    destruct Hcases as [H6|[H12|H13]].
    + exists 0%nat. rewrite optimize_route_unfold by lia.
      destruct (Hexact 0%nat) as (c & p & rt & cd & _ & _ & E); [lia|].
      rewrite E. eauto.
    + destruct (Hmedium 0%nat H12) as (seed & Hseed & Hv & _).
      destruct (two_opt_terminates (length coordinates) d seed Hd Hsym
                  (S (cheaper d seed seed)) seed) as [best Hbest];
        [reflexivity | now apply valid_order_in_range | lia |].
      exists (S (cheaper d seed seed)).
      rewrite optimize_route_unfold by lia.
      destruct (Hmedium (S (cheaper d seed seed)) H12) as (seed' & Hseed' & _ & Hm).
      rewrite Hseed in Hseed'. inversion Hseed'; subst seed'.
      rewrite Hbest in Hm. destruct Hm as (_ & rt & cd & _ & E).
      rewrite E. eauto.
    + exists 0%nat. rewrite optimize_route_unfold by lia.
      destruct (Hlarge 0%nat H13) as (best & rd & rt & cd & _ & _ & _ & _ & E).
      rewrite E. eauto.
Qed.

(** Seven waypoints with one-way durations, at noon. *)
Lemma optimize_route_order_is_permutation_witness :
  (forall fuel res,
     optimize_route fuel 12 (Some (one_way, one_way)) (waypoints 7)
     = Some res ->
     exists order optimized_route time_str distance_str,
       res = Optimized order optimized_route time_str distance_str
       /\ valid_order 7 order)
  /\ ((7 <= 6 \/ 12 < 7)%nat -> forall fuel, exists res,
        optimize_route fuel 12 (Some (one_way, one_way)) (waypoints 7)
        = Some res)
  /\ (forall d, adjust_durations 12 7 one_way one_way = Some d ->
        symmetric d -> exists fuel res,
          optimize_route fuel 12 (Some (one_way, one_way)) (waypoints 7)
          = Some res).
Proof.
  apply (optimize_route_order_is_permutation 12 (waypoints 7) one_way one_way 7).
  - reflexivity.
  - lia.
  - apply squareb_sound. reflexivity.
  - apply squareb_sound. reflexivity.
Defined.

(** On durations that are not symmetric the 2-opt loop need not stop: on
    the sample [roundabout] it comes back to the nearest-neighbour order
    after four reversals, so [optimize_route] returns nothing. *)
Lemma two_opt_cycles fuel :
  two_opt fuel roundabout [0; 6; 2; 4; 1; 3; 5]%nat = Diverged.
Proof.
  induction fuel as [fuel IH] using lt_wf_ind.
  do 4 (destruct fuel as [|fuel]; [reflexivity|]).
  rewrite <- (IH fuel) by lia.
  vm_compute. reflexivity.
Qed.

Lemma optimize_route_can_hang fuel :
  optimize_route fuel 12 (Some (roundabout, roundabout)) (waypoints 7) = None.
Proof.
  unfold optimize_route, optimize_body.
  change (Nat.leb (length (waypoints 7)) 1) with false. cbv iota.
  replace (adjust_durations 12 (length (waypoints 7)) roundabout roundabout)
    with (Some roundabout) by (vm_compute; reflexivity).
  change (Nat.leb (length (waypoints 7)) 6) with false.
  change (Nat.leb (length (waypoints 7)) 12) with true. cbv iota.
  replace (nearest_neighbor roundabout (length (waypoints 7)))
    with (Some [0; 6; 2; 4; 1; 3; 5]%nat) by (vm_compute; reflexivity).
  now rewrite two_opt_cycles.
Qed.




End RouteFacts.

(** * Properties of [traffic_light_optimizer.py] *)

Module LightFacts.
Import TrafficLight LightSpec LightExamples.
Import RouteFacts.

(** ** The phase estimate *)

(** Below [2 ** 34] the exponent is at most 33. *)
Lemma ilog2_below (x : Q) :
  0 < x -> x < inject_Z (2 ^ 34) -> (ilog2 x <= 33)%Z.
Proof.
  intros H0 H. unfold ilog2.
  destruct x as [a b]. cbn [Qnum Qden].
  assert (Ha : (0 < a)%Z) by (unfold Qlt in H0; cbn in H0; lia).
  assert (Hab : (a < 2 ^ 34 * Zpos b)%Z).
  { unfold Qlt in H. cbn [Qnum Qden inject_Z] in H. lia. }
  set (la := Z.log2 a). set (lb := Z.log2 (Zpos b)).
  assert (Hla : (2 ^ la <= a)%Z) by (apply Z.log2_spec; lia).
  assert (Hlb : (Zpos b < 2 ^ (lb + 1))%Z).
  { replace (lb + 1)%Z with (Z.succ lb) by lia. apply Z.log2_spec. lia. }
  assert (Hlb0 : (0 <= lb)%Z) by apply Z.log2_nonneg.
  assert (Hla0 : (0 <= la)%Z) by apply Z.log2_nonneg.
  assert (Hk : (la - lb <= 34)%Z).
  { destruct (Z_le_gt_dec (la - lb) 34) as [L|G]; [exact L|]. exfalso.
    assert (E : (2 ^ la = 2 ^ (la - lb - 1) * 2 ^ (lb + 1))%Z).
    { rewrite <- Z.pow_add_r by lia. f_equal. lia. }
    assert (P34 : (2 ^ 34 <= 2 ^ (la - lb - 1))%Z)
      by (apply Z.pow_le_mono_r; lia).
    assert (Pb : (0 < 2 ^ (lb + 1))%Z) by (apply Z.pow_pos_nonneg; lia).
    nia. }
  destruct (Qltb (a # b) (pow2 (la - lb))) eqn:E; [lia|].
  apply Qltb_ge in E.
  destruct (Z_le_gt_dec (la - lb) 33) as [L|G]; [exact L|]. exfalso.
  assert (Ek : (la - lb = 34)%Z) by lia. rewrite Ek in E.
  change (pow2 34) with (inject_Z (2 ^ 34)) in E.
  unfold Qle in E. cbn [Qnum Qden inject_Z] in E. lia.
Qed.

Lemma round_half_even_near (y : Q) :
  y - (1 # 2) <= inject_Z (round_half_even y) <= y + (1 # 2).
Proof.
  unfold round_half_even.
  pose proof (Qfloor_le y) as H1. pose proof (Qlt_floor y) as H2.
  rewrite inject_Z_plus in H2. change (inject_Z 1) with 1 in H2.
  destruct (Qcompare (y - inject_Z (Qfloor y)) (1 # 2)) eqn:C.
  - apply Qeq_alt in C.
    destruct (Z.even (Qfloor y));
      rewrite ?inject_Z_plus; change (inject_Z 1) with 1; lra.
  - apply Qlt_alt in C. lra.
  - apply Qgt_alt in C. rewrite inject_Z_plus. change (inject_Z 1) with 1. lra.
Qed.

Lemma round_half_even_above (y : Q) (k : Z) :
  inject_Z k <= y -> (k <= round_half_even y)%Z.
Proof.
  intro H. unfold round_half_even.
  assert (Hf : (k <= Qfloor y)%Z).
  { rewrite <- (Qfloor_Z k). now apply Qfloor_resp_le. }
  destruct (Qcompare _ _); [destruct (Z.even _)| |]; lia.
Qed.

Lemma trunc_is_floor (x : Q) : 0 <= x -> Qtrunc x = Qfloor x.
Proof.
  destruct x as [a b]. unfold Qle, Qtrunc, Qfloor. cbn [Qnum Qden].
  intro H. apply Z.quot_div_nonneg; lia.
Qed.

Lemma floor_between (q : Q) (n : Z) :
  inject_Z n <= q -> q < inject_Z n + 1 -> Qfloor q = n.
Proof.
  intros H1 H2.
  assert (L : (n <= Qfloor q)%Z).
  { rewrite <- (Qfloor_Z n). now apply Qfloor_resp_le. }
  assert (U : (Qfloor q < n + 1)%Z).
  { rewrite Zlt_Qlt, inject_Z_plus. change (inject_Z 1) with 1.
    pose proof (Qfloor_le q). lra. }
  lia.
Qed.

(** Below [2 ** 34] the binary64 grid is finer than a microsecond: a
    number with at most six decimals keeps its whole part. *)
Lemma magnitude_floor (a : Q) (n : Z) :
  0 < a -> a < inject_Z (2 ^ 34) ->
  inject_Z n <= a -> a <= inject_Z n + (999999 # 1000000) ->
  inject_Z n <= round_magnitude a /\ round_magnitude a < inject_Z n + 1.
Proof.
  intros H0 H34 Hn Hf. unfold round_magnitude.
  pose proof (ilog2_below a H0 H34) as Hl.
  set (e := Z.max (ilog2 a - 52) (-1074)).
  assert (He : (-1074 <= e <= -19)%Z) by (unfold e; lia).
  unfold pow2. destruct (Z.leb_spec 0 e) as [L|_]; [lia|].
  set (P := (2 ^ (- e))%Z).
  assert (HP : (2 ^ 19 <= P)%Z) by (apply Z.pow_le_mono_r; lia).
  assert (HPq : 524288 <= inject_Z P).
  { change 524288 with (inject_Z (2 ^ 19)). now rewrite <- Zle_Qle. }
  assert (Ey : a / (1 / inject_Z P) == a * inject_Z P).
  { field. repeat split; lra. }
  set (y := a / (1 / inject_Z P)) in *.
  pose proof (round_half_even_near y) as [_ Hup].
  assert (Hlow : inject_Z (n * P) <= inject_Z (round_half_even y)).
  { rewrite <- Zle_Qle. apply round_half_even_above.
    rewrite inject_Z_mult, Ey. nra. }
  rewrite inject_Z_mult in Hlow.
  set (m := inject_Z (round_half_even y)) in *.
  assert (Em : m * (1 / inject_Z P) == m / inject_Z P) by (field; lra).
  rewrite Em.
  assert (Hpos : 0 < inject_Z P) by lra.
  split.
  - apply Qle_shift_div_l; [exact Hpos | exact Hlow].
  - apply Qlt_shift_div_r; [exact Hpos|]. rewrite Ey in Hup. nra.
Qed.

Lemma trunc_one (q : Q) : Qtrunc (1 * q) = Qtrunc q.
Proof.
  destruct q as [a b]. unfold Qtrunc, Qmult. cbn [Qnum Qden].
  rewrite Z.mul_1_l, Pos.mul_1_l. reflexivity.
Qed.

Lemma trunc_minus_one (q : Q) : Qtrunc (-(1) * q) = (- Qtrunc q)%Z.
Proof.
  destruct q as [a b]. unfold Qtrunc, Qmult, Qopp. cbn [Qnum Qden].
  rewrite Pos.mul_1_l.
  replace (- (1) * a)%Z with (- a)%Z by lia.
  apply Z.quot_opp_l. discriminate.
Qed.

(** The whole seconds of a positive number of microseconds below
    [2 ** 34] seconds survive the division in binary64. *)
Lemma magnitude_seconds (a : Q) (u : Z) :
  (0 < u < 2 ^ 34 * 1000000)%Z -> a == inject_Z u / 1000000 ->
  Qtrunc (round_magnitude a) = (u / 1000000)%Z.
Proof.
  intros Hu Ea.
  pose proof (Z.div_mod u 1000000 ltac:(lia)) as Hdm.
  pose proof (Z.mod_pos_bound u 1000000 ltac:(lia)) as Hmod.
  set (n := (u / 1000000)%Z) in *. set (f := (u mod 1000000)%Z) in *.
  assert (Eu : inject_Z u == 1000000 * inject_Z n + inject_Z f).
  { rewrite Hdm, inject_Z_plus, inject_Z_mult. reflexivity. }
  assert (Hf0 : 0 <= inject_Z f).
  { change 0 with (inject_Z 0). rewrite <- Zle_Qle. lia. }
  assert (Hf1 : inject_Z f <= 999999).
  { change 999999 with (inject_Z 999999). rewrite <- Zle_Qle. lia. }
  assert (Hu0 : 0 < inject_Z u).
  { change 0 with (inject_Z 0). rewrite <- Zlt_Qlt. lia. }
  assert (Hu1 : inject_Z u < inject_Z (2 ^ 34) * 1000000).
  { change 1000000 with (inject_Z 1000000) at 1.
    rewrite <- inject_Z_mult, <- Zlt_Qlt. lia. }
  assert (Ex : a * 1000000 == inject_Z u) by (rewrite Ea; field).
  assert (Hn0 : (0 <= n)%Z) by (apply Z.div_pos; lia).
  assert (Hn0q : 0 <= inject_Z n).
  { change 0 with (inject_Z 0). rewrite <- Zle_Qle. exact Hn0. }
  destruct (magnitude_floor a n) as [L U]; try lra.
  rewrite trunc_is_floor by lra. apply floor_between; assumption.
Qed.

(** Within [near_epoch] the float of [timestamp] has the whole seconds of
    the instant. *)
Lemma timestamp_seconds (t : datetime) :
  near_epoch t ->
  Qtrunc (timestamp t) = Z.quot t 1000000.
Proof.
  unfold near_epoch. intro Ht. unfold timestamp, round_binary64.
  set (x := inject_Z t / 1000000).
  assert (Ex : x * 1000000 == inject_Z t) by (unfold x; field).
  destruct (Z.lt_trichotomy t 0) as [Hneg|[->|Hpos]].
  - assert (Hx : x < 0).
    { assert (inject_Z t < 0)
        by (change 0 with (inject_Z 0); rewrite <- Zlt_Qlt; exact Hneg).
      lra. }
    destruct (Qeq_bool x 0) eqn:E0; [apply Qeq_bool_iff in E0; lra|].
    rewrite (proj2 (Qltb_lt x 0) Hx), trunc_minus_one.
    rewrite (magnitude_seconds (Qabs x) (- t)).
    + rewrite <- (Z.quot_div_nonneg (- t) 1000000) by lia.
      rewrite Z.quot_opp_l by lia. lia.
    + lia.
    + rewrite Qabs_neg by lra. unfold x. rewrite inject_Z_opp. field.
  - reflexivity.
  - assert (Hx : 0 < x).
    { assert (0 < inject_Z t)
        by (change 0 with (inject_Z 0); rewrite <- Zlt_Qlt; exact Hpos).
      lra. }
    destruct (Qeq_bool x 0) eqn:E0; [apply Qeq_bool_iff in E0; lra|].
    assert (E : Qltb x 0 = false) by (apply Qltb_ge; lra).
    rewrite E, trunc_one.
    rewrite (magnitude_seconds (Qabs x) t).
    + symmetry. apply Z.quot_div_nonneg; lia.
    + lia.
    + rewrite Qabs_pos by lra. reflexivity.
Qed.

(** Whole seconds one cycle later, when truncation does not change side. *)
Lemma seconds_after_cycle (t c : Z) :
  near_epoch t -> near_epoch (t + c * 1000000)%Z ->
  same_side t (t + c * 1000000)%Z ->
  Qtrunc (timestamp (t + c * 1000000)%Z) = (Qtrunc (timestamp t) + c)%Z.
Proof.
  intros Ht Ht' H. rewrite !timestamp_seconds by assumption.
  destruct H as [H|[[H1 H2]|[H1 H2]]].
  - apply Z.mod_divide in H; [|lia]. destruct H as [k ->].
    rewrite <- Z.mul_add_distr_r, !Z.quot_mul by lia. reflexivity.
  - rewrite !Z.quot_div_nonneg by lia. now rewrite Z.div_add by lia.
  - rewrite <- (Z.opp_involutive (t + c * 1000000)).
    rewrite <- (Z.opp_involutive t) at 2.
    rewrite !(Z.quot_opp_l (- _)) by lia.
    rewrite !Z.quot_div_nonneg by lia.
    replace (- (t + c * 1000000))%Z with (- t + - c * 1000000)%Z by lia.
    rewrite Z.div_add by lia. lia.
Qed.

Lemma py_mod_plus (a c : Z) : py_mod (a + c) c = py_mod a c.
Proof.
  unfold py_mod. destruct (Z.eqb_spec c 0) as [E|E]; [reflexivity|].
  f_equal. rewrite <- (Z.mul_1_l c) at 1. now apply Z.mod_add.
Qed.

(** The estimate reads the instant only through its whole seconds. *)
Lemma estimate_by_seconds light t t' :
  py_mod (Qtrunc (timestamp t) + offset light) (cycle_time light)
  = py_mod (Qtrunc (timestamp t') + offset light) (cycle_time light) ->
  estimate_traffic_light_delay light t = estimate_traffic_light_delay light t'.
Proof. unfold estimate_traffic_light_delay. now intros ->. Qed.

Lemma estimate_defined light t :
  cycle_time light <> 0%Z ->
  (green_time light + yellow_time light < cycle_time light)%Z ->
  exists delay st, estimate_traffic_light_delay light t = Some (delay, st).
Proof.
  intros Hc Hr. unfold estimate_traffic_light_delay, py_mod.
  destruct (Z.eqb_spec (cycle_time light) 0) as [E|_]; [contradiction|].
  cbn [bind]. destruct (_ <? green_time light)%Z; [eauto|].
  destruct (_ <? _ + _)%Z; [eauto|].
  unfold py_div.
  destruct (Z.eqb_spec (cycle_time light - green_time light - yellow_time light) 0)
    as [E|_]; [lia|].
  cbn [bind]. destruct (Qltb _ _); [eauto|]. destruct (Qltb _ _); eauto.
Qed.

(** The scenario of the specification: with a 60 s cycle, 24 s of green
    and 3 s of yellow, position 10 is green and costs nothing, position 30
    is at the start of the red and costs 30 s. *)
Example phase_scenario :
  estimate_traffic_light_delay sixty 10000000%Z = Some (0%Z, green)
  /\ estimate_traffic_light_delay sixty 30000000%Z = Some (30%Z, red)
  /\ estimate_traffic_light_delay sixty 25000000%Z = Some (5%Z, yellow)
  /\ estimate_traffic_light_delay sixty 40000000%Z = Some (20%Z, red)
  /\ estimate_traffic_light_delay sixty 55000000%Z = Some (5%Z, red).
Proof. repeat split; vm_compute; reflexivity. Qed.


(** The same failure far from the epoch: from [2 ** 34] seconds on the
    floats are more than two microseconds apart, and an instant one
    microsecond before a whole second gets the timestamp of that second.
    For the 60 s light, 17179869143.999999 s after the epoch is still at
    position 23, green, and one cycle later the timestamp is
    17179869204.0, position 24, yellow. *)
Example estimate_not_periodic_far_from_epoch :
  estimate_traffic_light_delay sixty 17179869143999999%Z = Some (0%Z, green)
  /\ estimate_traffic_light_delay sixty
       (17179869143999999 + cycle_time sixty * 1000000)%Z
     = Some (5%Z, yellow)
  /\ near_epoch 17179869143999999%Z
  /\ ~ near_epoch (17179869143999999 + cycle_time sixty * 1000000)%Z.
Proof.
  repeat split; try (vm_compute; reflexivity).
  vm_compute. discriminate.
Qed.



(** ** The speed advisor *)

Lemma search_never_worse light current_time distance speeds : forall b b',
  search light current_time distance speeds b = Some b' ->
  (best_delay b' <= best_delay b)%Z.
Proof.
  induction speeds as [|v rest IH]; intros b b' H; cbn [search] in H.
  - inversion H; subst. lia.
  - destruct (estimate_traffic_light_delay light _) as [[test_delay test_status]|];
      cbn [bind] in H; [|discriminate].
    destruct (Z.ltb_spec test_delay (best_delay b)) as [L|L];
      destruct (status_eqb test_status green).
    + inversion H; subst. cbn. lia.
    + apply IH in H. cbn in H. lia.
    + inversion H; subst. lia.
    + now apply IH.
Qed.

Lemma search_defined light current_time distance speeds :
  cycle_time light <> 0%Z ->
  (green_time light + yellow_time light < cycle_time light)%Z ->
  forall b, exists b', search light current_time distance speeds b = Some b'.
Proof.
  intros Hc Hr. induction speeds as [|v rest IH]; intros b; cbn [search].
  - eauto.
  - destruct (estimate_defined light
                (current_time + timedelta_seconds (distance / v))%Z Hc Hr)
      as (dl & st & ->).
    cbn [bind]. destruct (status_eqb st green); [eauto|]. apply IH.
Qed.

Lemma Qleb_le (x y : Q) : Qleb x y = true <-> x <= y.
Proof.
  unfold Qleb. destruct (Qcompare x y) eqn:E; split; intro H;
    try reflexivity; try discriminate.
  - apply Qeq_alt in E. rewrite E. apply Qle_refl.
  - apply Qlt_alt in E. now apply Qlt_le_weak.
  - apply Qgt_alt in E. exfalso. apply (Qlt_irrefl y).
    eapply Qlt_le_trans; eassumption.
Qed.

(** C9.  With a current speed that is not positive the advisor returns the
    failure dictionary ([success] is false) and raises nothing; this holds
    for every light record, also one on which any phase estimate would
    raise (a zero cycle), so no candidate speed is tried. *)
Theorem no_advice_without_speed light (current_time : datetime)
  (current_speed distance_to_light : Q) :
  current_speed <= 0 ->
  optimize_arrival_time light current_time current_speed distance_to_light
  = Some (CannotAdvise "Brak danych o prędkości")
  /\ success (CannotAdvise "Brak danych o prędkości") = false.
Proof.
  intro H. unfold optimize_arrival_time.
  apply Qleb_le in H. rewrite H. split; reflexivity.
Qed.

(** A negative speed at a light whose cycle is zero. *)
Lemma no_advice_without_speed_witness :
  optimize_arrival_time
    {| type := small_intersection; cycle_time := 0; offset := 0;
       green_time := 0; yellow_time := 0; coordinates := (0, 0) |}
    0%Z (-(3)) 500
  = Some (CannotAdvise "Brak danych o prędkości")
  /\ success (CannotAdvise "Brak danych o prędkości") = false.
Proof.
  apply no_advice_without_speed. vm_compute. discriminate.
Defined.

(** C10.  With a positive current speed and a distance that is not
    negative, on a light with [green_time + yellow_time < cycle_time] and a
    cycle that is not zero, the advisor returns an advisory whose
    [time_saved] is the baseline delay minus a delay that is no larger, so
    it is never negative. *)
Theorem time_saved_never_negative light (current_time : datetime)
  (current_speed distance_to_light : Q) :
  0 < current_speed -> 0 <= distance_to_light ->
  (green_time light + yellow_time light < cycle_time light)%Z ->
  cycle_time light <> 0%Z ->
  exists a base_delay base_status,
    optimize_arrival_time light current_time current_speed distance_to_light
    = Some (Advice a)
    /\ estimate_traffic_light_delay light
         (current_time
          + timedelta_seconds (distance_to_light / current_speed))%Z
       = Some (base_delay, base_status)
    /\ (0 <= time_saved a)%Z
    /\ (exists best_delay,
          time_saved a = (base_delay - best_delay)%Z
          /\ (best_delay <= base_delay)%Z).
Proof.
  intros Hs _ Hr Hc. unfold optimize_arrival_time.
  assert (E : Qleb current_speed 0 = false).
  { destruct (Qleb current_speed 0) eqn:E; [|reflexivity].
    apply Qleb_le in E. exfalso. apply (Qlt_irrefl 0).
    eapply Qlt_le_trans; eassumption. }
  rewrite E.
  destruct (estimate_defined light
              (current_time
               + timedelta_seconds (distance_to_light / current_speed))%Z Hc Hr)
    as (dl & st & Hbase).
  rewrite Hbase. cbn [bind].
  destruct (status_eqb st green).
  - eexists; exists dl, st. split; [reflexivity|]. split; [reflexivity|].
    cbn [time_saved]. split; [lia|]. exists dl. split; lia.
  - match goal with
    | |- context [search ?l ?t ?d ?sp ?b0] =>
        destruct (search_defined l t d sp Hc Hr b0) as [b' Hb'];
        pose proof (search_never_worse l t d sp b0 b' Hb') as Hle
    end.
    rewrite Hb'. cbn [bind]. cbn [best_delay] in Hle.
    destruct (Qeq_bool (best_speed b') current_speed);
      (eexists; exists dl, st; split; [reflexivity|]; split; [reflexivity|];
       cbn [time_saved]; split; [lia|]; exists (best_delay b'); split; lia).
Qed.

(** 300 m from the 60 s light at 10 m/s. *)
Lemma time_saved_never_negative_witness :
  exists a base_delay base_status,
    optimize_arrival_time sixty 0%Z 10 300 = Some (Advice a)
    /\ estimate_traffic_light_delay sixty
         (0 + timedelta_seconds (300 / 10))%Z
       = Some (base_delay, base_status)
    /\ (0 <= time_saved a)%Z
    /\ (exists best_delay,
          time_saved a = (base_delay - best_delay)%Z
          /\ (best_delay <= base_delay)%Z).
Proof.
  apply (time_saved_never_negative sixty 0%Z 10 300).
  - reflexivity.
  - discriminate.
  - cbn. lia.
  - discriminate.
Defined.

(** ** Keys of the map *)

#[local] Instance same_key_equiv : Equivalence same_key.
Proof.
  split.
  - intros a. split; reflexivity.
  - intros a b [H1 H2]. split; symmetry; assumption.
  - intros a b c [H1 H2] [H3 H4]. split; etransitivity; eassumption.
Qed.

Lemma key_eqb_spec (a b : point) : key_eqb a b = true <-> same_key a b.
Proof.
  unfold key_eqb, same_key. rewrite andb_true_iff, !Qeq_bool_iff. tauto.
Qed.

Lemma checked_spec k l : checked k l = true <-> InA same_key k l.
Proof.
  unfold checked. rewrite existsb_exists, InA_alt. split.
  - intros [x [Hin H]]. exists x. split; [|assumption]. now apply key_eqb_spec.
  - intros [x [H Hin]]. exists x. split; [assumption|]. now apply key_eqb_spec.
Qed.

Lemma NoDupA_snoc k l :
  NoDupA same_key l -> checked k l = false -> NoDupA same_key (l ++ [k]).
Proof.
  intros Hl Hk. apply NoDupA_app.
  - exact same_key_equiv.
  - assumption.
  - constructor; [|constructor]. intro H. inversion H.
  - intros x Hx Hx'. inversion Hx' as [? ? E|? ? E]; subst; [|inversion E].
    assert (InA same_key k l).
    { rewrite InA_alt in Hx. destruct Hx as [y [Hy Hin]].
      rewrite InA_alt. exists y. split; [|assumption].
      etransitivity; [symmetry; exact E | exact Hy]. }
    apply checked_spec in H. congruence.
Qed.

(** ** The stable sort by [distance_along_route] *)

Lemma insert_by_distance_perm x l :
  Permutation (insert_by_distance x l) (x :: l).
Proof.
  induction l as [|y t IH]; cbn; [reflexivity|].
  destruct (Qltb _ _); [reflexivity|].
  rewrite IH. apply perm_swap.
Qed.

Lemma insert_by_distance_sorted x l :
  StronglySorted by_distance l ->
  StronglySorted by_distance (insert_by_distance x l).
Proof.
  induction l as [|y t IH]; intros Hs; cbn.
  - constructor; constructor.
  - inversion Hs as [|? ? Ht Hy]; subst.
    destruct (Qltb (distance_along_route x) (distance_along_route y)) eqn:E.
    + apply Qltb_lt in E. constructor; [assumption|].
      constructor; [now apply Qlt_le_weak|].
      eapply Forall_impl; [|exact Hy]. intros z Hz. unfold by_distance in *.
      apply Qlt_le_weak. eapply Qlt_le_trans; eassumption.
    + apply Qltb_ge in E. constructor; [now apply IH|].
      eapply Permutation_Forall; [symmetry; apply insert_by_distance_perm|].
      constructor; assumption.
Qed.

Lemma sort_by_distance_spec l :
  Permutation (sort_by_distance l) l
  /\ StronglySorted by_distance (sort_by_distance l).
Proof.
  unfold sort_by_distance.
  assert (G : forall acc, StronglySorted by_distance acc ->
    Permutation (fold_left (fun a x => insert_by_distance x a) l acc) (acc ++ l)
    /\ StronglySorted by_distance
         (fold_left (fun a x => insert_by_distance x a) l acc)).
  { induction l as [|x t IH]; intros acc Hacc; cbn [fold_left].
    - rewrite app_nil_r. split; [reflexivity | assumption].
    - destruct (IH (insert_by_distance x acc)) as [P S].
      + now apply insert_by_distance_sorted.
      + split; [|assumption]. rewrite P, insert_by_distance_perm.
        now apply Permutation_middle. }
  destruct (G []) as [P S]; [constructor|]. split; assumption.
Qed.

(** ** The distances along the route *)

Section Detection.
Variable sqrt : Q -> Q.
Variable rng_state : Type.
Variable seed : Z -> rng_state.
Variable random : rng_state -> Q * rng_state.
Variable randint : Z -> Z -> rng_state -> Z * rng_state.

Lemma distances_loop_length points : forall prev d acc,
  length (distances_loop sqrt points prev d acc)
  = (length acc + length points)%nat.
Proof.
  induction points as [|p rest IH]; intros prev d acc; cbn.
  - lia.
  - rewrite IH, length_app. cbn. lia.
Qed.

Lemma route_distances_length route :
  (length route <= length (route_distances sqrt route))%nat.
Proof.
  unfold route_distances. rewrite distances_loop_length.
  destruct route; cbn; lia.
Qed.

(** ** The double loop records every key once *)

Lemma check_light_inv radius_deg distances i p st item :
  (i < length distances)%nat -> detection_inv st ->
  exists st', check_light sqrt radius_deg distances i p st item = Some st'
              /\ detection_inv st'.
Proof.
  intros Hi [Hk Hn]. destruct st as [found_lights checked_lights].
  destruct item as [[light_lon light_lat] info]. cbn [fst snd] in *.
  unfold check_light.
  destruct (Qleb (Qabs (fst p - light_lon)) radius_deg); cbn [andb];
    [|exists (found_lights, checked_lights); repeat split; assumption].
  destruct (Qleb (Qabs (snd p - light_lat)) radius_deg); cbn [andb];
    [|exists (found_lights, checked_lights); repeat split; assumption].
  destruct (checked (light_lon, light_lat) checked_lights) eqn:Ec; cbn [negb];
    [exists (found_lights, checked_lights); repeat split; assumption|].
  destruct (Qleb _ radius_deg);
    [|exists (found_lights, checked_lights); repeat split; assumption].
  destruct (nth_error_defined _ distances i Hi) as [along ->]. cbn [bind].
  eexists. split; [reflexivity|]. split; cbn [fst snd].
  - rewrite map_app, Hk. reflexivity.
  - now apply NoDupA_snoc.
Qed.

Lemma check_lights_inv radius_deg distances i p m : forall st,
  (i < length distances)%nat -> detection_inv st ->
  exists st', foldM (check_light sqrt radius_deg distances i p) m st = Some st'
              /\ detection_inv st'.
Proof.
  induction m as [|item t IH]; intros st Hi Hinv; cbn [foldM]; [eauto|].
  destruct (check_light_inv radius_deg distances i p st item Hi Hinv)
    as [st1 [-> H1]].
  cbn [bind]. now apply IH.
Qed.

Lemma scan_route_inv radius_deg distances m points : forall i st,
  (i + length points <= length distances)%nat -> detection_inv st ->
  exists st', scan_route sqrt radius_deg distances m i points st = Some st'
              /\ detection_inv st'.
Proof.
  induction points as [|p rest IH]; intros i st Hlen Hinv; cbn [scan_route];
    [eauto|].
  cbn [length] in Hlen.
  destruct (check_lights_inv radius_deg distances i p m st) as [st1 [-> H1]];
    [lia | assumption |].
  cbn [bind]. apply IH; [lia | assumption].
Qed.

Lemma list_min_defined (l : list Q) : l <> [] -> exists x, list_min l = Some x.
Proof. destruct l; [congruence | cbn; eauto]. Qed.

Lemma list_max_defined (l : list Q) : l <> [] -> exists x, list_max l = Some x.
Proof. destruct l; [congruence | cbn; eauto]. Qed.

Lemma ensure_map_defined route (w : world rng_state) :
  route <> [] \/ TRAFFIC_LIGHT_MAP w <> [] ->
  exists w', ensure_map sqrt seed random randint route w = Some w'.
Proof.
  intros H. unfold ensure_map.
  destruct (TRAFFIC_LIGHT_MAP w) as [|item t]; [|eauto].
  destruct H as [H|H]; [|congruence].
  destruct route as [|p rest]; [congruence|]. cbn. eauto.
Qed.

(** C8.  Whenever the route or the current map is not empty,
    [detect_traffic_lights_on_route] returns a list in which no two entries
    have the same intersection key and whose entries are in ascending order
    of [distance_along_route]. *)
Theorem detected_lights_distinct_and_sorted route radius_meters
  (w : world rng_state) :
  route <> [] \/ TRAFFIC_LIGHT_MAP w <> [] ->
  exists found w',
    detect_traffic_lights_on_route sqrt seed random randint route
      radius_meters w = Some (found, w')
    /\ NoDupA same_key (map found_coordinates found)
    /\ StronglySorted by_distance found.
Proof.
  intros H. unfold detect_traffic_lights_on_route.
  destruct (ensure_map_defined route w H) as [w1 ->]. cbn [bind].
  destruct (scan_route_inv (radius_meters * (9 # 1000000))
              (route_distances sqrt route) (TRAFFIC_LIGHT_MAP w1) route
              0%nat ([], [])) as [st [-> [Hk Hn]]].
  - apply route_distances_length.
  - split; [reflexivity | constructor].
  - cbn [bind]. exists (sort_by_distance (fst st)), w1.
    destruct (sort_by_distance_spec (fst st)) as [P S].
    split; [reflexivity|]. split; [|assumption].
    rewrite Hk in Hn.
    eapply PermutationA_preserves_NoDupA;
      [exact same_key_equiv | | exact Hn].
    apply Permutation_PermutationA; [exact same_key_equiv|].
    apply Permutation_map. symmetry. exact P.
Qed.

(** With no route point and no map the fallback initialisation takes the
    minimum of an empty list: the call raises. *)
Lemma detect_raises_without_route_and_map radius_meters (w : world rng_state) :
  TRAFFIC_LIGHT_MAP w = [] ->
  detect_traffic_lights_on_route sqrt seed random randint [] radius_meters w
  = None.
Proof.
  intro H. unfold detect_traffic_lights_on_route, ensure_map. now rewrite H.
Qed.

(** C6.  [initialize_traffic_light_map] does not look at the state it is
    called in: from any two states, the same box gives the same map (the
    same keys in the same order, with the same type, cycle_time, offset,
    green_time and yellow_time under each key) and leaves the generator in
    the same state; so a second call with the same box reproduces the map
    of the first. *)
Theorem initialize_is_deterministic (region_bounds : point * point)
  (w1 w2 : world rng_state) :
  TRAFFIC_LIGHT_MAP
    (initialize_traffic_light_map sqrt seed random randint region_bounds w1)
  = TRAFFIC_LIGHT_MAP
      (initialize_traffic_light_map sqrt seed random randint region_bounds w2)
  /\ initialize_traffic_light_map sqrt seed random randint region_bounds
       (initialize_traffic_light_map sqrt seed random randint region_bounds w1)
     = initialize_traffic_light_map sqrt seed random randint region_bounds w1.
Proof.
  destruct region_bounds as [[min_lon min_lat] [max_lon max_lat]].
  split; reflexivity.
Qed.

End Detection.

(** A route that passes one of two lights twice. *)
Lemma detected_lights_distinct_and_sorted_witness :
  exists found w',
    detect_traffic_lights_on_route exact_root lcg_seed lcg_random lcg_randint
      loop_route 30 two_lights = Some (found, w')
    /\ NoDupA same_key (map found_coordinates found)
    /\ StronglySorted by_distance found.
Proof.
  apply (detected_lights_distinct_and_sorted exact_root Z lcg_seed lcg_random
           lcg_randint loop_route 30 two_lights).
  left. discriminate.
Defined.

(** ** What [distance_along_route] measures *)

Lemma distances_loop_prefix sqrt points : forall prev d acc,
  exists more, distances_loop sqrt points prev d acc = acc ++ more.
Proof.
  induction points as [|p rest IH]; intros prev d acc; cbn.
  - exists []. now rewrite app_nil_r.
  - destruct (IH (Some p)
                (match prev with
                 | Some prev0 => d + planar_distance sqrt p prev0
                 | None => d
                 end)
                (acc ++ [match prev with
                         | Some prev0 => d + planar_distance sqrt p prev0
                         | None => d
                         end])) as [more E].
    rewrite E, <- app_assoc. eauto.
Qed.

Lemma distances_loop_nth sqrt points : forall prev d acc k c,
  (k < length points)%nat ->
  nth_error (distances_loop sqrt points prev d acc) (length acc + k) = Some c ->
  c == d + path_length sqrt (with_prev prev (firstn (S k) points)).
Proof.
  induction points as [|p rest IH]; intros prev d acc k c Hk H;
    [cbn in Hk; lia|].
  cbn [distances_loop] in H.
  set (d' := match prev with
             | Some prev0 => d + planar_distance sqrt p prev0
             | None => d
             end) in *.
  assert (Hd' : d' == d + path_length sqrt (with_prev prev [p])).
  { unfold d'. destruct prev; cbn [with_prev path_length]; lra. }
  destruct k as [|k].
  - destruct (distances_loop_prefix sqrt rest (Some p) d' (acc ++ [d']))
      as [more E].
    rewrite E, <- app_assoc, Nat.add_0_r in H.
    rewrite nth_error_app2 in H by lia. rewrite Nat.sub_diag in H.
    cbn in H. inversion H; subst c. cbn [firstn]. exact Hd'.
  - replace (length acc + S k)%nat with (length (acc ++ [d']) + k)%nat in H
      by (rewrite length_app; cbn; lia).
    apply IH in H; [|cbn in Hk; lia].
    rewrite H. cbn [with_prev].
    change (firstn (S (S k)) (p :: rest)) with (p :: firstn (S k) rest).
    destruct rest as [|q rest']; [cbn in Hk; lia|].
    cbn [firstn]. unfold d'. destruct prev; cbn [with_prev path_length]; lra.
Qed.

(** The distance recorded for the route point at index [i + 1] is the
    length of the route from its second point on: the segment from the
    first point to the second is missing from it. *)
Lemma route_distances_miss_first_segment sqrt p0 p1 rest i c :
  nth_error (route_distances sqrt (p0 :: p1 :: rest)) (S i) = Some c ->
  (i < length (p1 :: rest))%nat ->
  c == path_length sqrt (firstn (S i) (p1 :: rest))
  /\ c + planar_distance sqrt p1 p0
     == path_length sqrt (firstn (S (S i)) (p0 :: p1 :: rest)).
Proof.
  intros H Hi. unfold route_distances in H. cbn [tl] in H.
  change (S i) with (length [0] + i)%nat in H.
  apply distances_loop_nth in H; [|assumption].
  cbn [with_prev] in H. split; [rewrite H; lra|].
  rewrite H.
  change (firstn (S (S i)) (p0 :: p1 :: rest))
    with (p0 :: firstn (S i) (p1 :: rest)).
  cbn [firstn path_length]. lra.
Qed.

(** C5 (refuted on the code).  The claim: [distance_along_route] is the
    planar distance summed over consecutive route points from the first
    point to the point at [route_point_index].  The code: on a route of two
    points 0.005 degrees apart with a light at the second point, the light
    is found at [route_point_index] 1 with [distance_along_route] 0. *)
Theorem light_at_second_point_distance :
  detect_traffic_lights_on_route exact_root lcg_seed lcg_random lcg_randint
    short_route 30 one_light
  = Some ([{| found_coordinates := (3 # 1000, 4 # 1000);
              distance_along_route := 0;
              route_point_index := 1;
              found_cycle_time := 50;
              found_type := small_intersection;
              found_offset := 7;
              found_green_time := 20;
              found_yellow_time := 3 |}], one_light)
  /\ path_length exact_root (firstn 2 short_route) == 5 # 1000
  /\ ~ (0 == path_length exact_root (firstn 2 short_route)).
Proof.
  split; [vm_compute; reflexivity|]. split.
  - vm_compute. reflexivity.
  - vm_compute. discriminate.
Qed.

End LightFacts.

(** * Further properties of [optimize_route] *)

Module RouteMore.
Import RouteOptimizer RouteSpec RouteSpecMore RouteFacts RouteExamples.

(** ** From a result of [optimize_route] back to its parts *)

Lemma optimize_route_finish fuel hour coordinates durations distances order
  optimized_route time_str distance_str :
  optimize_route fuel hour (Some (durations, distances)) coordinates
  = Some (Optimized order optimized_route time_str distance_str) ->
  exists best route_duration,
    finish coordinates distances best route_duration
    = Some (Optimized order optimized_route time_str distance_str).
Proof.
  unfold optimize_route, optimize_body.
  destruct (Nat.leb (length coordinates) 1); [discriminate|].
  destruct (adjust_durations hour (length coordinates) distances durations)
    as [d|]; [|discriminate].
  destruct (Nat.leb (length coordinates) 6).
  - destruct (brute_force d (length coordinates)) as [[m best]|];
      [|discriminate].
    destruct (finish coordinates distances best 0) as [r|] eqn:E;
      [|discriminate].
    intros [= ->]. eauto.
  - destruct (Nat.leb (length coordinates) 12).
    + destruct (nearest_neighbor d (length coordinates)) as [seed|];
        [|discriminate].
      destruct (two_opt fuel d seed) as [| |best]; try discriminate.
      destruct (finish coordinates distances (Some best) 0) as [r|] eqn:E;
        [|discriminate].
      intros [= ->]. eauto.
    + destruct (hybrid d (length coordinates)) as [best|]; [|discriminate].
      destruct (route_cost d best) as [rd|]; [|discriminate].
      destruct (finish coordinates distances (Some best) rd) as [r|] eqn:E;
        [|discriminate].
      intros [= ->]. eauto.
Qed.

Lemma collect_coordinates_spec (coordinates : list coord) l : forall acc r,
  foldM (fun acc i => c <- nth_error coordinates i ;; Some (acc ++ [c])) l acc
  = Some r ->
  exists r', r = acc ++ r' /\ reordered coordinates l r'.
Proof.
  induction l as [|i t IH]; intros acc r H; cbn [foldM] in H.
  - inversion H; subst. exists []. split; [now rewrite app_nil_r|constructor].
  - destruct (nth_error coordinates i) as [c|] eqn:E; cbn [bind] in H;
      [|discriminate].
    apply IH in H. destruct H as [r' [-> F]].
    exists (c :: r'). rewrite <- app_assoc. split; [reflexivity|].
    constructor; assumption.
Qed.

Lemma finish_reordered coordinates distances best rd order rt t s :
  finish coordinates distances best rd = Some (Optimized order rt t s) ->
  order <> [] -> reordered coordinates order rt.
Proof.
  unfold finish. intros H Hne.
  destruct (truthy best) eqn:Et.
  - match type of H with
    | context [foldM ?f ?l ?a] => destruct (foldM f l a) as [r|] eqn:E
    end; cbn [bind] in H; [|discriminate].
    match type of H with
    | context [bind ?m _] => destruct m
    end; cbn [bind] in H; [|discriminate].
    inversion H; subst.
    apply collect_coordinates_spec in E. destruct E as [r' [-> F]]. exact F.
  - cbn [bind andb] in H. inversion H; subst. exfalso. apply Hne.
    destruct best as [[|x l]|]; cbn in *; congruence.
Qed.

(** Every order that is returned is valid (shared with the claim about
    the order, proved here from the branches). *)
Lemma returned_order_valid fuel hour coordinates durations distances order
  rt t s :
  (2 <= length coordinates)%nat ->
  square (length coordinates) durations ->
  square (length coordinates) distances ->
  optimize_route fuel hour (Some (durations, distances)) coordinates
  = Some (Optimized order rt t s) ->
  valid_order (length coordinates) order.
Proof.
  intros Hn Hdur Hdist H. rewrite optimize_route_unfold in H by lia.
  destruct (adjust_durations_square hour _ _ _ Hdist Hdur) as [d [Hadj Hd]].
  assert (Hcases : (length coordinates <= 6
                    \/ 7 <= length coordinates <= 12
                    \/ 13 <= length coordinates)%nat) by lia.
  destruct Hcases as [H6|[H12|H13]].
  - destruct (optimize_body_exact fuel hour coordinates durations distances d
                Hdist Hd Hadj) as (c & p & rt' & cd & Hmin & _ & E); [lia|].
    rewrite E in H. inversion H; subst.
    apply valid_order_intro; [lia|]. eapply first_min_perm; eassumption.
  - destruct (optimize_body_medium fuel hour coordinates durations distances d
                Hdist Hd Hadj H12) as (seed & _ & _ & Hm).
    destruct (two_opt fuel d seed) as [| |best].
    + rewrite Hm in H. discriminate.
    + contradiction.
    + destruct Hm as (Hv & rt' & cd & _ & E).
      rewrite E in H. inversion H; subst. assumption.
  - destruct (optimize_body_large fuel hour coordinates durations distances d
                Hdist Hd Hadj H13)
      as (best & rd & rt' & cd & _ & Hv & _ & _ & E).
    rewrite E in H. inversion H; subst. assumption.
Qed.

Lemma nth_error_seq_all (A : Type) (l : list A) :
  map (nth_error l) (seq 0 (length l)) = map Some l.
Proof.
  induction l as [|x t IH]; [reflexivity|].
  cbn [length seq map nth_error]. f_equal.
  rewrite <- seq_shift, map_map. exact IH.
Qed.

Lemma reordered_map coordinates order rt :
  reordered coordinates order rt ->
  map (nth_error coordinates) order = map Some rt.
Proof.
  induction 1 as [|i c l l' H _ IH]; [reflexivity|].
  cbn [map]. now rewrite H, IH.
Qed.

(** ** The returned waypoints *)

(** The waypoints come back as the given ones in the returned order:
    they are a rearrangement of the input, and the first one stays first. *)
Theorem returned_waypoints_rearranged fuel hour coordinates durations
  distances order optimized_route time_str distance_str :
  (2 <= length coordinates)%nat ->
  square (length coordinates) durations ->
  square (length coordinates) distances ->
  optimize_route fuel hour (Some (durations, distances)) coordinates
  = Some (Optimized order optimized_route time_str distance_str) ->
  reordered coordinates order optimized_route
  /\ Permutation optimized_route coordinates
  /\ hd_error optimized_route = hd_error coordinates.
Proof.
  intros Hn Hdur Hdist H.
  pose proof (returned_order_valid _ _ _ _ _ _ _ _ _ Hn Hdur Hdist H)
    as (Hhd & HP & _ & Hlen).
  destruct (optimize_route_finish _ _ _ _ _ _ _ _ _ H) as (best & rd & Hf).
  assert (Hne : order <> []) by (destruct order; [discriminate | congruence]).
  pose proof (finish_reordered _ _ _ _ _ _ _ _ Hf Hne) as HR.
  split; [assumption|]. split.
  - pose proof (reordered_map _ _ _ HR) as HM.
    assert (HP' : Permutation (map Some optimized_route)
                              (map Some coordinates)).
    { rewrite <- HM, <- nth_error_seq_all.
      apply Permutation_map. assumption. }
    apply (Permutation_map (fun o => match o with
                                     | Some c => c
                                     | None => (0, 0)
                                     end)) in HP'.
    rewrite !map_map in HP'. cbn beta iota in HP'.
    now rewrite !map_id in HP'.
  - destruct HR as [|i c l l' Hi _]; [discriminate|].
    cbn in Hhd. inversion Hhd; subst.
    destruct coordinates; cbn in *; congruence.
Qed.

Lemma returned_waypoints_rearranged_witness :
  reordered (waypoints 4) [0; 1; 3; 2]%nat [(0, 0); (1, 0); (3, 0); (2, 0)]
  /\ Permutation [(0, 0); (1, 0); (3, 0); (2, 0)] (waypoints 4)
  /\ hd_error [(0, 0); (1, 0); (3, 0); (2, 0)] = hd_error (waypoints 4).
Proof.
  apply (returned_waypoints_rearranged 0 12 (waypoints 4) four_points
           four_points [0; 1; 3; 2]%nat [(0, 0); (1, 0); (3, 0); (2, 0)]
           "0h 0m" "65.0").
  - cbn. lia.
  - apply squareb_sound. reflexivity.
  - apply squareb_sound. reflexivity.
  - vm_compute. reflexivity.
Defined.

(** ** Nearest neighbour is greedy *)

Lemma min_from_least key l : forall best kbest x,
  key best = Some kbest ->
  min_from key best kbest l = Some x ->
  exists kx, key x = Some kx /\ kx <= kbest
             /\ forall y, In y l -> exists ky, key y = Some ky /\ kx <= ky.
Proof.
  induction l as [|z t IH]; intros best kbest x Hb H; cbn [min_from] in H.
  - inversion H; subst. exists kbest. repeat split; auto using Qle_refl.
    intros y [].
  - destruct (key z) as [kz|] eqn:Ez; cbn [bind] in H; [|discriminate].
    destruct (Qltb kz kbest) eqn:E.
    + apply Qltb_lt in E.
      destruct (IH z kz x Ez H) as (kx & Hx & Hle & Hall).
      exists kx. split; [assumption|]. split.
      * apply Qlt_le_weak. eapply Qle_lt_trans; eassumption.
      * intros y [<-|Hy]; [eauto | now apply Hall].
    + apply Qltb_ge in E.
      destruct (IH best kbest x Hb H) as (kx & Hx & Hle & Hall).
      exists kx. split; [assumption|]. split; [assumption|].
      intros y [<-|Hy]; [|now apply Hall].
      exists kz. split; [assumption|]. eapply Qle_trans; eassumption.
Qed.

Lemma py_min_least key l x :
  py_min key l = Some x ->
  exists kx, key x = Some kx
             /\ forall y, In y l -> exists ky, key y = Some ky /\ kx <= ky.
Proof.
  destruct l as [|z t]; cbn [py_min]; [discriminate|].
  destruct (key z) as [kz|] eqn:Ez; cbn [bind]; [|discriminate].
  intro H. destruct (min_from_least key t z kz x Ez H) as (kx & Hx & Hle & Hall).
  exists kx. split; [assumption|].
  intros y [<-|Hy]; [eauto | now apply Hall].
Qed.

Lemma remove_first_subset x l y : In y (remove_first x l) -> In y l.
Proof.
  induction l as [|z t IH]; cbn; [tauto|].
  destruct (Nat.eqb x z); cbn; intuition.
Qed.

Lemma nearest_neighbor_loop_greedy d : forall bound current route unvisited r,
  nearest_neighbor_loop bound d current route unvisited = Some r ->
  exists tail, r = route ++ tail /\ greedy d current tail
               /\ forall y, In y tail -> In y unvisited.
Proof.
  induction bound as [|bound IH]; intros current route unvisited r H.
  - destruct unvisited; cbn in H; [|discriminate]. inversion H; subst.
    exists []. rewrite app_nil_r. cbn. auto.
  - destruct (list_eq_dec Nat.eq_dec unvisited []) as [->|Hne].
    { cbn in H. inversion H; subst. exists []. rewrite app_nil_r. cbn. auto. }
    rewrite nearest_neighbor_loop_step in H by assumption.
    destruct (py_min (fun x => entry d current x) unvisited) as [x|] eqn:Ex;
      cbn [bind] in H; [|discriminate].
    destruct (IH _ _ _ _ H) as (tl & -> & Hg & Hsub).
    exists (x :: tl). rewrite <- app_assoc. split; [reflexivity|].
    split.
    + cbn [greedy]. split; [|assumption].
      intros y Hy. apply Hsub, remove_first_subset in Hy.
      destruct (py_min_least _ _ _ Ex) as (kx & Hkx & Hall).
      destruct (Hall y Hy) as (ky & Hky & Hle).
      unfold cost. now rewrite Hkx, Hky.
    + intros y [<-|Hy]; [eapply py_min_In; eassumption|].
      eapply remove_first_subset. apply Hsub. assumption.
Qed.

(** The order nearest neighbour builds visits every index once, and each
    of its hops goes to an index that is at least as near (in duration)
    as every index still to come. *)
Theorem nearest_neighbor_is_greedy n d :
  (1 <= n)%nat -> square n d ->
  exists tail,
    nearest_neighbor d n = Some (0%nat :: tail)
    /\ Permutation tail (seq 1 (n - 1))
    /\ greedy d 0 tail.
Proof.
  intros Hn Hd. destruct (nearest_neighbor_spec n d Hn Hd) as (tl & E & P).
  exists tl. split; [assumption|]. split; [assumption|].
  unfold nearest_neighbor in E.
  destruct (nearest_neighbor_loop_greedy _ _ _ _ _ _ E) as (tl' & Et & Hg & _).
  cbn in Et. inversion Et; subst. assumption.
Qed.

Lemma nearest_neighbor_is_greedy_witness :
  exists tail,
    nearest_neighbor one_way 7 = Some (0%nat :: tail)
    /\ Permutation tail (seq 1 (7 - 1))
    /\ greedy one_way 0 tail.
Proof.
  apply (nearest_neighbor_is_greedy 7 one_way).
  - lia.
  - apply squareb_sound. reflexivity.
Defined.

(** ** What 2-opt leaves *)

Lemma scan_pairs_complete len i j :
  (1 <= i)%nat -> (i < j)%nat -> (j < len)%nat -> In (i, j) (scan_pairs len).
Proof.
  intros H1 H2 H3. unfold scan_pairs. apply in_flat_map. exists i. split.
  - apply in_seq. lia.
  - apply in_map. apply in_seq. lia.
Qed.

Lemma first_improving_none d route pairs :
  first_improving d route pairs = Some None ->
  forall i j, In (i, j) pairs ->
  exists cc nc, current_cost d route i j = Some cc
                /\ new_cost d route i j = Some nc /\ cc <= nc.
Proof.
  induction pairs as [|[a b] t IH]; intros H i j Hin; [contradiction|].
  cbn [first_improving] in H.
  destruct (current_cost d route a b) as [cc|] eqn:Ec; cbn [bind] in H;
    [|discriminate].
  destruct (new_cost d route a b) as [nc|] eqn:En; cbn [bind] in H;
    [|discriminate].
  destruct (Qltb nc cc) eqn:E; [discriminate|].
  destruct Hin as [[= <- <-]|Hin]; [|now apply IH].
  apply Qltb_ge in E. eauto.
Qed.

Lemma two_opt_returns_scanned fuel d : forall route r,
  two_opt fuel d route = Returned r ->
  first_improving d r (scan_pairs (length r)) = Some None.
Proof.
  induction fuel as [|fuel IH]; intros route r H; [discriminate|].
  rewrite two_opt_step in H.
  destruct (first_improving d route (scan_pairs (length route)))
    as [[[i j]|]|] eqn:E; try discriminate.
  - now apply IH in H.
  - inversion H; subst. assumption.
Qed.

Lemma last_app_nonempty (l1 l2 : list nat) :
  l2 <> [] -> last (l1 ++ l2) 0%nat = last l2 0%nat.
Proof.
  intro H. induction l1 as [|x t IH]; [reflexivity|].
  cbn [app]. rewrite <- IH.
  destruct (t ++ l2) eqn:E; [|reflexivity].
  apply app_eq_nil in E. destruct E. contradiction.
Qed.

Lemma last_reverse_segment route i j :
  (j < length route)%nat ->
  last (reverse_segment route i j) 0%nat = last route 0%nat.
Proof.
  intro H. unfold reverse_segment.
  assert (Hne : skipn j route <> []).
  { intro E. apply (f_equal (@length nat)) in E.
    rewrite length_skipn in E. cbn in E. lia. }
  rewrite app_assoc, last_app_nonempty by assumption.
  rewrite <- (firstn_skipn j route) at 2. now rewrite last_app_nonempty.
Qed.

Lemma two_opt_keeps_last n d : square n d ->
  forall fuel route r, in_range n route ->
  two_opt fuel d route = Returned r -> last r 0%nat = last route 0%nat.
Proof.
  intros Hd. induction fuel as [|fuel IH]; intros route r Hr H;
    [discriminate|].
  rewrite two_opt_step in H.
  destruct (first_improving_spec n d route Hd Hr (scan_pairs (length route)))
    as [o [Eo Ho]].
  { intros i j. apply scan_pairs_spec. }
  rewrite Eo in H. destruct o as [[i j]|].
  - destruct (Ho i j eq_refl) as [Hin _].
    apply scan_pairs_spec in Hin. destruct Hin as (H1 & H2 & H3).
    rewrite (IH _ _ (in_range_perm n _ _
                       (Permutation_sym (reverse_segment_perm route i j
                                           (Nat.lt_le_incl _ _ H2))) Hr) H).
    now apply last_reverse_segment.
  - now inversion H.
Qed.

(** With 7 to 12 waypoints, whatever order is returned passes no 2-opt
    test any more: for no pair of positions are the two new boundary edges
    cheaper than the two old ones.  It still starts and ends where the
    nearest-neighbour order does: the loop never moves the last index. *)
Theorem medium_result_is_two_opt_stable fuel hour coordinates durations
  distances d order optimized_route time_str distance_str :
  (7 <= length coordinates <= 12)%nat ->
  square (length coordinates) durations ->
  square (length coordinates) distances ->
  adjust_durations hour (length coordinates) distances durations = Some d ->
  optimize_route fuel hour (Some (durations, distances)) coordinates
  = Some (Optimized order optimized_route time_str distance_str) ->
  locally_optimal d order
  /\ exists seed, nearest_neighbor d (length coordinates) = Some seed
                  /\ hd_error order = hd_error seed
                  /\ last order 0%nat = last seed 0%nat.
Proof.
  intros Hn Hdur Hdist Hadj H. rewrite optimize_route_unfold in H by lia.
  destruct (adjust_durations_square hour _ _ _ Hdist Hdur) as [d' [Hadj' Hd]].
  rewrite Hadj in Hadj'. inversion Hadj'; subst d'.
  destruct (optimize_body_medium fuel hour coordinates durations distances d
              Hdist Hd Hadj Hn) as (seed & Hseed & Hv & Hm).
  destruct (two_opt fuel d seed) as [| |best] eqn:Et.
  - rewrite Hm in H. discriminate.
  - contradiction.
  - destruct Hm as (Hv' & rt & cd & _ & E). rewrite E in H.
    inversion H; subst. split.
    + intros i j H1 H2 H3.
      eapply first_improving_none.
      * eapply two_opt_returns_scanned. eassumption.
      * now apply scan_pairs_complete.
    + exists seed. split; [assumption|]. split.
      * destruct Hv as (-> & _). destruct Hv' as (-> & _). reflexivity.
      * eapply two_opt_keeps_last; try eassumption.
        now apply valid_order_in_range.
Qed.

Lemma medium_result_is_two_opt_stable_witness :
  locally_optimal on_a_line [0; 5; 3; 1; 2; 4; 6]%nat
  /\ exists seed, nearest_neighbor on_a_line (length (waypoints 7)) = Some seed
                  /\ hd_error [0; 5; 3; 1; 2; 4; 6]%nat = hd_error seed
                  /\ last [0; 5; 3; 1; 2; 4; 6]%nat 0%nat = last seed 0%nat.
Proof.
  apply (medium_result_is_two_opt_stable 10 12 (waypoints 7) on_a_line
           on_a_line on_a_line [0; 5; 3; 1; 2; 4; 6]%nat
           [(0, 0); (5, 0); (3, 0); (1, 0); (2, 0); (4, 0); (6, 0)]
           "0h 0m" "64.0").
  - cbn. lia.
  - apply squareb_sound. reflexivity.
  - apply squareb_sound. reflexivity.
  - vm_compute. reflexivity.
  - vm_compute. reflexivity.
Defined.

(** ** The traffic adjustment, entry by entry *)

Lemma multiplier_bounds hour distances a b dist :
  entry distances a b = Some dist -> 0 <= dist ->
  1 <= multiplier hour distances a b <= 13 # 10.
Proof.
  intros E Hd. unfold multiplier, traffic_multiplier. rewrite E. cbn [bind].
  destruct (rush_hour hour); [|split; [apply Qle_refl | discriminate]].
  assert (H0 : 0 <= dist / 30).
  { unfold Qdiv. apply Qmult_le_0_compat; [assumption | discriminate]. }
  destruct (Qltb (dist / 30) 1) eqn:El.
  - apply Qltb_lt in El. split; lra.
  - split; [lra|]. setoid_replace (1 + (3 # 10) * (1 - 1)) with 1 by ring.
    discriminate.
Qed.

(** The rush-hour adjustment leaves the diagonal alone and multiplies
    every other duration by one factor, which is 1 outside the rush hours
    and lies between 1 and 1.3 when the distance is not negative. *)
Theorem traffic_adjustment_bounds hour n distances durations d a b :
  square n distances -> square n durations ->
  adjust_durations hour n distances durations = Some d ->
  (a < n)%nat -> (b < n)%nat ->
  exists x dist,
    entry durations a b = Some x /\ entry distances a b = Some dist
    /\ (a = b -> entry d a b = Some x)
    /\ (a <> b ->
        entry d a b = Some (x * multiplier hour distances a b)
        /\ (rush_hour hour = false -> multiplier hour distances a b = 1)
        /\ (0 <= dist -> 1 <= multiplier hour distances a b <= 13 # 10)).
Proof.
  intros Hx Hd H Ha Hb.
  destruct (entry_defined _ _ _ _ Hd Ha Hb) as [x Ex].
  destruct (entry_defined _ _ _ _ Hx Ha Hb) as [dist Edist].
  exists x, dist. split; [assumption|]. split; [assumption|].
  pose proof (adjust_durations_entry hour n distances durations d a b H) as E.
  apply Nat.ltb_lt in Ha. apply Nat.ltb_lt in Hb. rewrite Ha, Hb in E.
  cbn [andb] in E. split.
  - intros ->. rewrite Nat.eqb_refl in E. cbn [negb] in E. congruence.
  - intro Hab. apply Nat.eqb_neq in Hab. rewrite Hab in E. cbn [negb] in E.
    rewrite Ex in E. cbn [scaled] in E. split; [assumption|]. split.
    + intro Hoff. unfold multiplier, traffic_multiplier. now rewrite Hoff.
    + now apply multiplier_bounds.
Qed.

Lemma traffic_adjustment_bounds_witness :
  exists x dist,
    entry four_points 1 2 = Some x /\ entry four_points 1 2 = Some dist
    /\ (1%nat = 2%nat -> entry four_points 1 2 = Some x)
    /\ (1%nat <> 2%nat ->
        entry four_points 1 2 = Some (x * multiplier 12 four_points 1 2)
        /\ (rush_hour 12 = false -> multiplier 12 four_points 1 2 = 1)
        /\ (0 <= dist -> 1 <= multiplier 12 four_points 1 2 <= 13 # 10)).
Proof.
  apply (traffic_adjustment_bounds 12 4 four_points four_points four_points).
  - apply squareb_sound. reflexivity.
  - apply squareb_sound. reflexivity.
  - vm_compute. reflexivity.
  - lia.
  - lia.
Defined.

(** ** A matrix with too few rows *)

Lemma adjust_cell_length hour distances d c d' :
  adjust_cell hour distances d c = Some d' -> length d' = length d.
Proof.
  destruct c as [i j]. unfold adjust_cell.
  destruct (Nat.eqb i j); [now intros [= ->]|].
  destruct (traffic_multiplier hour distances i j); cbn [bind];
    [|discriminate].
  destruct (entry d i j); cbn [bind]; [|discriminate].
  unfold set_entry. destruct (nth_error d i); cbn [bind]; [|discriminate].
  destruct (assign l j _); cbn [bind]; [|discriminate].
  apply assign_length.
Qed.

Lemma adjust_fold_short hour distances cs : forall d i j,
  In (i, j) cs -> i <> j -> (length d <= i)%nat ->
  foldM (adjust_cell hour distances) cs d = None.
Proof.
  induction cs as [|c t IH]; intros d i j Hin Hij Hlen; [contradiction|].
  cbn [foldM].
  destruct (adjust_cell hour distances d c) as [d1|] eqn:E; [|reflexivity].
  cbn [bind]. destruct Hin as [->|Hin].
  - exfalso. unfold adjust_cell in E.
    apply Nat.eqb_neq in Hij. rewrite Hij in E.
    destruct (traffic_multiplier hour distances i j); cbn [bind] in E;
      [|discriminate].
    unfold entry in E. apply nth_error_None in Hlen. rewrite Hlen in E.
    discriminate.
  - apply (IH d1 i j Hin Hij). rewrite (adjust_cell_length _ _ _ _ _ E).
    assumption.
Qed.

(** When the provider's duration matrix has fewer rows than there are
    waypoints, the lookup that fails is caught: the failure marker is
    returned, whatever the hour and the fuel. *)
Theorem short_matrix_gives_failure_marker fuel hour coordinates durations
  distances :
  (2 <= length coordinates)%nat ->
  (length durations < length coordinates)%nat ->
  optimize_route fuel hour (Some (durations, distances)) coordinates
  = Some Unavailable.
Proof.
  intros Hn Hshort. rewrite optimize_route_unfold by assumption.
  unfold optimize_body, adjust_durations.
  rewrite (adjust_fold_short hour distances (cells (length coordinates))
             durations (length coordinates - 1) 0).
  - reflexivity.
  - unfold cells. apply in_flat_map. exists (length coordinates - 1)%nat.
    split; [apply in_seq; lia|]. apply in_map. apply in_seq. lia.
  - lia.
  - lia.
Qed.

Lemma short_matrix_gives_failure_marker_witness :
  optimize_route 0 8 (Some (two_hours, hundred_km)) (waypoints 3)
  = Some Unavailable.
Proof.
  apply short_matrix_gives_failure_marker; cbn; lia.
Defined.


(** ** Hours and minutes *)

Lemma Qtrunc_floor (x : Q) : 0 <= x -> Qtrunc x = Qfloor x.
Proof.
  destruct x as [a b]. unfold Qle, Qtrunc, Qfloor. cbn [Qnum Qden].
  intro H. apply Z.quot_div_nonneg; lia.
Qed.

Lemma Qfloor_nonneg (x : Q) : 0 <= x -> (0 <= Qfloor x)%Z.
Proof.
  intro H. change 0%Z with (Qfloor 0). now apply Qfloor_resp_le.
Qed.

Lemma floor_bounds (x : Q) :
  inject_Z (Qfloor x) <= x /\ x < inject_Z (Qfloor x) + 1.
Proof.
  split; [apply Qfloor_le|].
  pose proof (Qlt_floor x) as H. now rewrite inject_Z_plus in H.
Qed.

(** For a duration that is not negative, the minutes lie between 0 and 59
    and hours and minutes are the duration rounded down to the minute. *)
Theorem hours_and_minutes_round_down (route_duration : Q) :
  0 <= route_duration ->
  (0 <= hours_of route_duration)%Z
  /\ (0 <= minutes_of route_duration <= 59)%Z
  /\ inject_Z (3600 * hours_of route_duration
               + 60 * minutes_of route_duration) <= route_duration
  /\ route_duration
     < inject_Z (3600 * hours_of route_duration
                 + 60 * minutes_of route_duration) + 60.
Proof.
  intro H. unfold hours_of, minutes_of, Qmod.
  set (q := route_duration / 3600).
  assert (Eq : route_duration == q * 3600) by (unfold q; field).
  assert (H1 : 0 <= q).
  { unfold q, Qdiv. apply Qmult_le_0_compat; [assumption | discriminate]. }
  rewrite (Qtrunc_floor _ H1).
  set (h := Qfloor q).
  destruct (floor_bounds q) as [Hlo Hhi]. fold h in Hlo, Hhi.
  set (r := route_duration - 3600 * inject_Z h).
  assert (Hr : 0 <= r < 3600) by (unfold r; split; lra).
  set (q2 := r / 60).
  assert (Eq2 : r == q2 * 60) by (unfold q2; field).
  assert (H2 : 0 <= q2) by lra.
  rewrite (Qtrunc_floor _ H2).
  set (m := Qfloor q2).
  destruct (floor_bounds q2) as [Mlo Mhi]. fold m in Mlo, Mhi.
  assert (Hh : (0 <= h)%Z) by (apply Qfloor_nonneg; assumption).
  assert (Hm : (0 <= m)%Z) by (apply Qfloor_nonneg; assumption).
  assert (Hm' : (m < 60)%Z).
  { rewrite Zlt_Qlt. change (inject_Z 60) with 60. lra. }
  split; [assumption|]. split; [lia|].
  rewrite inject_Z_plus, !inject_Z_mult.
  change (inject_Z 3600) with 3600. change (inject_Z 60) with 60.
  unfold r in Eq2. split; lra.
Qed.

(** 58000 s are 16 h 6 min 40 s. *)
Lemma hours_and_minutes_round_down_witness :
  (0 <= hours_of 58000)%Z
  /\ (0 <= minutes_of 58000 <= 59)%Z
  /\ inject_Z (3600 * hours_of 58000 + 60 * minutes_of 58000) <= 58000
  /\ 58000 < inject_Z (3600 * hours_of 58000 + 60 * minutes_of 58000) + 60.
Proof.
  apply (hours_and_minutes_round_down 58000). discriminate.
Defined.

(** ** The lemmas on the duration string and on symmetry, on the samples *)



(** The waypoints on a line, in the morning rush hour. *)
Lemma adjust_durations_symmetric_witness :
  exists d, adjust_durations 8 7 on_a_line on_a_line = Some d /\ symmetric d.
Proof.
  eexists. split; [vm_compute; reflexivity|].
  eapply (adjust_durations_symmetric 8 7 on_a_line on_a_line).
  - apply squareb_sound. reflexivity.
  - apply squareb_sound. reflexivity.
  - apply (symmetricb_sound 7); [apply squareb_sound|]; reflexivity.
  - apply (symmetricb_sound 7); [apply squareb_sound|]; reflexivity.
  - vm_compute. reflexivity.
Defined.

End RouteMore.

(** * Properties of the risk and traffic functions *)

Module SafetyFacts.
Import RouteSafety RouteSafetySpec SafetyExamples.
Import RouteFacts.

(** ** [get_safety_recommendations] *)

Ltac lines_differ :=
  unfold high_risk_line, low_light_line, weather_line, visibility_line,
    morning_line, afternoon_line, history_line, normal_line;
  discriminate.

(** Which lines the list holds. *)
Lemma recommendations_spec local_hour risk_score f is_dark poor_visibility x :
  In x (get_safety_recommendations local_hour risk_score f is_dark
          poor_visibility)
  <-> (x = high_risk_line /\ Qltb 7 risk_score = true)
      \/ (x = low_light_line /\ Qltb (15 # 10) (low_light_risk f) = true)
      \/ (x = weather_line /\ Qltb (15 # 10) (weather_risk f) = true)
      \/ (x = visibility_line /\ is_dark && poor_visibility = true)
      \/ (x = morning_line /\ Qltb (15 # 10) (time_of_day_risk f) = true
          /\ (local_hour <? 12)%Z = true)
      \/ (x = afternoon_line /\ Qltb (15 # 10) (time_of_day_risk f) = true
          /\ (local_hour <? 12)%Z = false)
      \/ (x = history_line
          /\ Qltb (15 # 10) (road_complexity_risk f) = true)
      \/ (x = normal_line
          /\ Qltb 7 risk_score = false
          /\ Qltb (15 # 10) (low_light_risk f) = false
          /\ Qltb (15 # 10) (weather_risk f) = false
          /\ is_dark && poor_visibility = false
          /\ Qltb (15 # 10) (time_of_day_risk f) = false
          /\ Qltb (15 # 10) (road_complexity_risk f) = false).
Proof.
  unfold get_safety_recommendations.
  destruct (Qltb 7 risk_score), (Qltb (15 # 10) (low_light_risk f)),
    (Qltb (15 # 10) (weather_risk f)), (is_dark && poor_visibility),
    (Qltb (15 # 10) (time_of_day_risk f)), (local_hour <? 12)%Z,
    (Qltb (15 # 10) (road_complexity_risk f));
    cbn [append_if app length Nat.eqb In];
    intuition congruence.
Qed.

Lemma not_Qltb (a b : Q) : Qltb a b = false <-> b <= a.
Proof. apply Qltb_ge. Qed.

(** [get_safety_recommendations] never returns an empty list and never
    more than six lines; the line about normal conditions is there exactly
    when none of the tests holds, and then it is the only line. *)
Theorem recommendations_never_empty local_hour risk_score f is_dark
  poor_visibility :
  get_safety_recommendations local_hour risk_score f is_dark poor_visibility
  <> []
  /\ (length (get_safety_recommendations local_hour risk_score f is_dark
                poor_visibility) <= 6)%nat
  /\ (In normal_line
         (get_safety_recommendations local_hour risk_score f is_dark
            poor_visibility)
      <-> nothing_to_report risk_score f is_dark poor_visibility)
  /\ (In normal_line
         (get_safety_recommendations local_hour risk_score f is_dark
            poor_visibility)
      <-> get_safety_recommendations local_hour risk_score f is_dark
            poor_visibility = [normal_line]).
Proof.
  split; [|split; [|split]].
  - unfold get_safety_recommendations.
    destruct (Qltb 7 risk_score), (Qltb (15 # 10) (low_light_risk f)),
      (Qltb (15 # 10) (weather_risk f)), (is_dark && poor_visibility),
      (Qltb (15 # 10) (time_of_day_risk f)), (local_hour <? 12)%Z,
      (Qltb (15 # 10) (road_complexity_risk f));
      cbn [append_if app length Nat.eqb]; discriminate.
  - unfold get_safety_recommendations.
    destruct (Qltb 7 risk_score), (Qltb (15 # 10) (low_light_risk f)),
      (Qltb (15 # 10) (weather_risk f)), (is_dark && poor_visibility),
      (Qltb (15 # 10) (time_of_day_risk f)), (local_hour <? 12)%Z,
      (Qltb (15 # 10) (road_complexity_risk f));
      cbn [append_if app length Nat.eqb]; lia.
  - rewrite recommendations_spec. unfold nothing_to_report.
    rewrite <- !not_Qltb.
    split.
    + intros [[E _]|[[E _]|[[E _]|[[E _]|[[E _]|[[E _]|[[E _]|[_ H]]]]]]]];
        [exfalso; revert E; lines_differ .. | exact H].
    + intro H. repeat right. split; [reflexivity | exact H].
  - split.
    + intro H. apply recommendations_spec in H.
      destruct H as [[E _]|[[E _]|[[E _]|[[E _]|[[E _]|[[E _]|[[E _]|[_ H]]]]]]]];
        try (exfalso; revert E; lines_differ).
      destruct H as (H1 & H2 & H3 & H4 & H5 & H6).
      unfold get_safety_recommendations. rewrite H1, H2, H3, H4, H5, H6.
      reflexivity.
    + intros ->. now left.
Qed.

(** ** [get_daylight_conditions] and [get_accident_risk] *)

(** The light level is read off the hour alone. *)
Lemma daylight_level lat lon time :
  light_level (get_daylight_conditions lat lon time)
  = inject_Z
      (if ((6 <=? hour time) && (hour time <? 8))%Z then 4
       else if ((8 <=? hour time) && (hour time <? 12))%Z then 8
       else if ((12 <=? hour time) && (hour time <? 17))%Z then 9
       else if ((17 <=? hour time) && (hour time <? 19))%Z then 4
       else 1).
Proof.
  unfold get_daylight_conditions, daylight_body.
  destruct ((6 <=? hour time) && (hour time <? 8))%Z;
    [|destruct ((8 <=? hour time) && (hour time <? 12))%Z;
      [|destruct ((12 <=? hour time) && (hour time <? 17))%Z;
        [|destruct ((17 <=? hour time) && (hour time <? 19))%Z]]];
    destruct ((3 <=? month time) && (month time <=? 5))%Z;
    try reflexivity;
    destruct ((6 <=? month time) && (month time <=? 8))%Z;
    try reflexivity;
    destruct ((9 <=? month time) && (month time <=? 11))%Z;
    reflexivity.
Qed.

Lemma daylight_level_cases lat lon time :
  ((8 <= hour time < 17)%Z
   /\ (light_level (get_daylight_conditions lat lon time) = 8
       \/ light_level (get_daylight_conditions lat lon time) = 9))
  \/ (((6 <= hour time < 8)%Z \/ (17 <= hour time < 19)%Z)
      /\ light_level (get_daylight_conditions lat lon time) = 4)
  \/ (((hour time < 6)%Z \/ (19 <= hour time)%Z)
      /\ light_level (get_daylight_conditions lat lon time) = 1).
Proof.
  rewrite daylight_level.
  destruct (Z.leb_spec 6 (hour time)), (Z.ltb_spec (hour time) 8),
    (Z.leb_spec 8 (hour time)), (Z.ltb_spec (hour time) 12),
    (Z.leb_spec 12 (hour time)), (Z.ltb_spec (hour time) 17),
    (Z.leb_spec 17 (hour time)), (Z.ltb_spec (hour time) 19);
    cbn [andb]; try lia;
    first [ left; split; [lia | first [left; reflexivity | right; reflexivity]]
          | right; left; split; [lia | reflexivity]
          | right; right; split; [lia | reflexivity] ].
Qed.

Section Risk.
Variable lower : string -> string.
Variable rng_state : Type.
Variable seed : Z -> rng_state.
Variable random : rng_state -> Q * rng_state.
Variable uniform : Q -> Q -> rng_state -> Q * rng_state.
Variable get_weather : Q * Q -> option weather_data.
Variable local_hour : Z.
Variable time_time : Q.

(** The answer of [get_accident_risk], field by field. *)
Lemma accident_risk_fields lat lon time :
  let r := fst (get_accident_risk lower seed uniform get_weather local_hour
                  lat lon time) in
  let level := light_level (get_daylight_conditions lat lon time) in
  risk_score r
  = inject_Z (round_half_even (scale_risk (risk_factors r) * 10)) / 10
  /\ risk_level r
     = (if Qltb 7 (scale_risk (risk_factors r)) then "high"
        else if Qltb 4 (scale_risk (risk_factors r)) then "medium"
        else "low")%string
  /\ recommendations r
     = get_safety_recommendations local_hour (scale_risk (risk_factors r))
         (risk_factors r) (Qltb level 5) (visibility_reduced r)
  /\ low_light_risk (risk_factors r)
     = (if Qltb level 3 then 3 else if Qltb level 6 then 2 else 0)
  /\ 0 <= weather_risk (risk_factors r) <= 3
  /\ 1 <= time_of_day_risk (risk_factors r) <= 25 # 10
  /\ road_complexity_risk (risk_factors r)
     = fst (uniform 0 2
              (seed (Qtrunc (Qmod (lat * 1000 + lon * 1000) 100000)))).
Proof.
  cbv zeta. unfold get_accident_risk.
  destruct (uniform 0 2 _) as [complexity g].
  destruct (get_weather (lon, lat)) as [weather|];
    cbn [fst risk_score risk_level risk_factors recommendations
         visibility_reduced low_light_risk weather_risk time_of_day_risk
         road_complexity_risk];
    (repeat split; try reflexivity;
     repeat match goal with
            | |- context [if ?c then _ else _] => destruct c
            end; lra).
Qed.

End Risk.

Lemma round_half_even_lower (x : Q) (n : Z) :
  inject_Z n <= x -> (n <= round_half_even x)%Z.
Proof.
  intro H. unfold round_half_even.
  assert (Hf : (n <= Qfloor x)%Z).
  { rewrite <- (Qfloor_Z n). now apply Qfloor_resp_le. }
  destruct (Qcompare _ _); [destruct (Z.even _)| |]; lia.
Qed.

Lemma round_half_even_upper (x : Q) (n : Z) :
  x <= inject_Z n -> (round_half_even x <= n)%Z.
Proof.
  intro H. unfold round_half_even.
  assert (Hf : (Qfloor x <= n)%Z).
  { rewrite <- (Qfloor_Z n). now apply Qfloor_resp_le. }
  destruct (Z.eq_dec (Qfloor x) n) as [E|E].
  - assert (L : x - inject_Z (Qfloor x) < 1 # 2) by (rewrite E; lra).
    destruct (Qcompare _ _) eqn:C; [| lia |].
    + apply Qeq_alt in C. lra.
    + apply Qgt_alt in C. lra.
  - destruct (Qcompare _ _); [destruct (Z.even _)| |]; lia.
Qed.

Lemma tenths_lower (x : Q) (n : Z) :
  inject_Z n / 10 <= x ->
  inject_Z n / 10 <= inject_Z (round_half_even (x * 10)) / 10.
Proof.
  intro H.
  assert (H1 : inject_Z n <= x * 10).
  { assert (E : inject_Z n == inject_Z n / 10 * 10) by field. lra. }
  apply round_half_even_lower in H1. rewrite Zle_Qle in H1.
  set (a := inject_Z n) in *. set (b := inject_Z (round_half_even (x * 10))) in *.
  assert (Ea : a == a / 10 * 10) by field.
  assert (Eb : b == b / 10 * 10) by field. lra.
Qed.

Lemma tenths_upper (x : Q) (n : Z) :
  x <= inject_Z n / 10 ->
  inject_Z (round_half_even (x * 10)) / 10 <= inject_Z n / 10.
Proof.
  intro H.
  assert (H1 : x * 10 <= inject_Z n).
  { assert (E : inject_Z n == inject_Z n / 10 * 10) by field. lra. }
  apply round_half_even_upper in H1. rewrite Zle_Qle in H1.
  set (a := inject_Z n) in *. set (b := inject_Z (round_half_even (x * 10))) in *.
  assert (Ea : a == a / 10 * 10) by field.
  assert (Eb : b == b / 10 * 10) by field. lra.
Qed.

Lemma scale_risk_bounds (f : factors) :
  0 <= low_light_risk f -> 0 <= weather_risk f ->
  1 <= time_of_day_risk f -> 0 <= road_complexity_risk f ->
  11 # 10 <= scale_risk f <= 10.
Proof.
  intros H1 H2 H3 H4. unfold scale_risk, min2, max2.
  repeat match goal with
         | |- context [Qltb ?a ?b] =>
             let E := fresh "E" in
             destruct (Qltb a b) eqn:E;
             [apply Qltb_lt in E | apply Qltb_ge in E]
         | H : context [Qltb ?a ?b] |- _ =>
             let E := fresh "E" in
             destruct (Qltb a b) eqn:E;
             [apply Qltb_lt in E | apply Qltb_ge in E]
         end; lra.
Qed.


Lemma base_after_light lat lon time :
  let b1 :=
    let base_probability :=
      if ((7 <=? hour time) && (hour time <=? 9))%Z then 7 # 10
      else if ((16 <=? hour time) && (hour time <=? 19))%Z then 8 # 10
      else if ((10 <=? hour time) && (hour time <=? 15))%Z then 3 # 10
      else if ((20 <=? hour time) && (hour time <=? 23))%Z then 2 # 10
      else 1 # 10 in
    if Qltb (light_level (get_daylight_conditions lat lon time)) 3
    then base_probability - (1 # 10) else base_probability in
  (rush (hour time) -> 7 # 10 <= b1 <= 8 # 10)
  /\ (~ rush (hour time) -> 0 <= b1 <= 3 # 10).
Proof.
  cbv zeta. unfold rush.
  destruct (daylight_level_cases lat lon time) as [[Hh [-> | ->]]|[[Hh ->]|[Hh ->]]];
  match goal with |- context [Qltb ?a 3] =>
     let b := eval vm_compute in (Qltb a 3) in change (Qltb a 3) with b end;
  cbv iota;
  destruct (Z.leb_spec 7 (hour time)), (Z.leb_spec (hour time) 9),
    (Z.leb_spec 16 (hour time)), (Z.leb_spec (hour time) 19),
    (Z.leb_spec 10 (hour time)), (Z.leb_spec (hour time) 15),
    (Z.leb_spec 20 (hour time)), (Z.leb_spec (hour time) 23);
    cbn [andb]; try lia; split; intro; try lia; try lra.
Qed.


Section Simulation.
Variable lower : string -> string.
Variable rng_state : Type.
Variable seed : Z -> rng_state.
Variable random : rng_state -> Q * rng_state.
Variable uniform : Q -> Q -> rng_state -> Q * rng_state.
Variable get_weather : Q * Q -> option weather_data.
Variable local_hour : Z.
Variable time_time : Q.

(** Provided [random.uniform(0, 2)] answers within [0, 2], the risk score
    of [get_accident_risk] lies between 1.1 and 10, and the risk level
    agrees with it: "high" comes with a score of at least 7 and with the
    high-risk warning among the recommendations, "medium" with a score
    between 4 and 7 and "low" with a score of at most 4, both without
    that warning. *)
Theorem risk_score_and_level_agree (lat lon : Q) (time : clock)
  (r : risk_info) :
  uniform_in_range uniform ->
  r = fst (get_accident_risk lower seed uniform get_weather local_hour
             lat lon time) ->
  11 # 10 <= risk_score r <= 10
  /\ ((risk_level r = "high"%string
       /\ 7 <= risk_score r
       /\ In high_risk_line (recommendations r))
      \/ (risk_level r = "medium"%string
          /\ 4 <= risk_score r <= 7
          /\ ~ In high_risk_line (recommendations r))
      \/ (risk_level r = "low"%string
          /\ risk_score r <= 4
          /\ ~ In high_risk_line (recommendations r))).
Proof.
  intros Hu Er.
  destruct (accident_risk_fields lower rng_state seed uniform get_weather
              local_hour lat lon time)
    as (Hs & Hl & Hrec & Hlow & Hw & Ht & Hc).
  cbv zeta in *. rewrite <- Er in *.
  assert (Hb : 11 # 10 <= scale_risk (risk_factors r) <= 10).
  { apply scale_risk_bounds; try lra.
    - rewrite Hlow. destruct (Qltb _ 3); [lra|]. destruct (Qltb _ 6); lra.
    - rewrite Hc. apply Hu. lra. }
  set (s := scale_risk (risk_factors r)) in *.
  rewrite Hs, Hl, Hrec.
  assert (Hin : In high_risk_line
                  (get_safety_recommendations local_hour s (risk_factors r)
                     (Qltb (light_level (get_daylight_conditions lat lon time)) 5)
                     (visibility_reduced r))
                <-> Qltb 7 s = true).
  { rewrite recommendations_spec. split.
    - intros [[_ E]|[[E _]|[[E _]|[[E _]|[[E _]|[[E _]|[[E _]|[E _]]]]]]]];
        [exact E | exfalso; revert E; lines_differ ..].
    - intro E. left. split; [reflexivity | exact E]. }
  assert (E11 : inject_Z 11 / 10 == 11 # 10) by reflexivity.
  assert (E40 : inject_Z 40 / 10 == 4) by reflexivity.
  assert (E70 : inject_Z 70 / 10 == 7) by reflexivity.
  assert (E100 : inject_Z 100 / 10 == 10) by reflexivity.
  pose proof (tenths_lower s 11) as L11. pose proof (tenths_lower s 40) as L40.
  pose proof (tenths_lower s 70) as L70. pose proof (tenths_upper s 40) as U40.
  pose proof (tenths_upper s 70) as U70.
  pose proof (tenths_upper s 100) as U100.
  set (score := inject_Z (round_half_even (s * 10)) / 10) in *.
  set (q11 := inject_Z 11 / 10) in *. set (q40 := inject_Z 40 / 10) in *.
  set (q70 := inject_Z 70 / 10) in *. set (q100 := inject_Z 100 / 10) in *.
  split.
  - split.
    + lra.
    + lra.
  - destruct (Qltb 7 s) eqn:E7.
    + left. apply Qltb_lt in E7. split; [reflexivity|]. split.
      * lra.
      * apply Hin. reflexivity.
    + right. apply Qltb_ge in E7.
      assert (Hno : ~ In high_risk_line
                      (get_safety_recommendations local_hour s (risk_factors r)
                         (Qltb (light_level
                                  (get_daylight_conditions lat lon time)) 5)
                         (visibility_reduced r))).
      { intro H. apply Hin in H. discriminate. }
      destruct (Qltb 4 s) eqn:E4.
      * left. apply Qltb_lt in E4. split; [reflexivity|]. split; [|exact Hno].
        split.
        -- lra.
        -- lra.
      * right. apply Qltb_ge in E4. split; [reflexivity|]. split; [|exact Hno].
        lra.
Qed.

(** Among the recommendations of [get_accident_risk], the line about low
    light is there exactly when the hour is outside 8..16, and the line
    about critically low visibility exactly when, besides, the weather
    reduces visibility. *)
Theorem low_light_warning_outside_daytime (lat lon : Q) (time : clock) :
  (In low_light_line
      (recommendations (fst (get_accident_risk lower seed uniform get_weather
                               local_hour lat lon time)))
   <-> ~ (8 <= hour time < 17)%Z)
  /\ (In visibility_line
        (recommendations (fst (get_accident_risk lower seed uniform
                                 get_weather local_hour lat lon time)))
      <-> ~ (8 <= hour time < 17)%Z
          /\ visibility_reduced
               (fst (get_accident_risk lower seed uniform get_weather
                       local_hour lat lon time)) = true).
Proof.
  destruct (accident_risk_fields lower rng_state seed uniform get_weather
              local_hour lat lon time)
    as (_ & _ & Hrec & Hlow & _).
  cbv zeta in *. rewrite Hrec, !recommendations_spec, Hlow.
  split.
  - split.
    + intros [[E _]|[[_ E]|[[E _]|[[E _]|[[E _]|[[E _]|[[E _]|[E _]]]]]]]];
        try (exfalso; revert E; lines_differ).
      destruct (daylight_level_cases lat lon time)
        as [[Hh [L | L]]|[[Hh L]|[Hh L]]]; rewrite L in E;
        try (vm_compute in E; discriminate E); lia.
    + intro H. right. left. split; [reflexivity|].
      destruct (daylight_level_cases lat lon time)
        as [[Hh [L | L]]|[[Hh L]|[Hh L]]]; rewrite L;
        try reflexivity; lia.
  - split.
    + intros [[E _]|[[E _]|[[E _]|[[_ E]|[[E _]|[[E _]|[[E _]|[E _]]]]]]]];
        try (exfalso; revert E; lines_differ).
      apply andb_true_iff in E. destruct E as [E1 E2]. split; [|exact E2].
      destruct (daylight_level_cases lat lon time)
        as [[Hh [L | L]]|[[Hh L]|[Hh L]]]; rewrite L in E1;
        try (vm_compute in E1; discriminate E1); lia.
    + intros [H E2]. right. right. right. left. split; [reflexivity|].
      rewrite E2, andb_true_r.
      destruct (daylight_level_cases lat lon time)
        as [[Hh [L | L]]|[[Hh L]|[Hh L]]]; rewrite L;
        try reflexivity; lia.
Qed.

(** Provided [random.random()] answers within [0, 1), the simulated
    traffic level is one of 0, 1, 2, 3; it is 3 (heavy) only in the rush
    hours 7..9 and 16..19, and in those hours it is at least 2 from Monday
    to Friday. *)
Theorem heavy_traffic_only_in_rush_hours (start end_ : Q * Q)
  (current_time : clock) (g0 : rng_state) :
  random_unit random ->
  (0 <= fst (simulate_traffic_conditions lower seed random uniform
               get_weather local_hour time_time start end_ current_time g0)
     <= 3)%Z
  /\ (fst (simulate_traffic_conditions lower seed random uniform
             get_weather local_hour time_time start end_ current_time g0)
      = 3%Z -> rush (hour current_time))
  /\ (rush (hour current_time) -> (weekday current_time < 5)%Z ->
      (2 <= fst (simulate_traffic_conditions lower seed random uniform
                   get_weather local_hour time_time start end_ current_time
                   g0))%Z).
Proof.
  intro Hrand. unfold simulate_traffic_conditions, simulate_body.
  destruct (get_accident_risk _ _ _ _ _ _ _ _) as [risk g'].
  pose proof (Hrand (seed (Qtrunc (time_time * 1000) mod 100000)%Z)) as Hr.
  destruct (random _) as [r g]. cbn [fst] in Hr. cbn [fst].
  pose proof (base_after_light ((snd start + snd end_) / 2)
                ((fst start + fst end_) / 2) current_time) as Hb.
  cbv zeta in Hb.
  match type of Hb with (_ -> _ <= ?b <= _) /\ _ => set (b1 := b) in * end.
  clearbody b1.
  assert (Hdec : rush (hour current_time) \/ ~ rush (hour current_time))
    by (unfold rush; lia).
  destruct (visibility_reduced risk),
    (Qltb 1 (road_complexity_risk (risk_factors risk))),
    (Z.leb_spec 5 (weekday current_time));
    unfold max2, min2;
    repeat match goal with
           | |- context [Qltb ?a ?b] =>
               let E := fresh "E" in
               destruct (Qltb a b) eqn:E;
               [apply Qltb_lt in E | apply Qltb_ge in E]
           | H : context [Qltb ?a ?b] |- _ =>
               let E := fresh "E" in
               destruct (Qltb a b) eqn:E;
               [apply Qltb_lt in E | apply Qltb_ge in E]
           end;
    (split; [lia|]; split;
     [ intro H3;
       first [ discriminate H3
             | destruct Hdec as [Hd|Hd];
               [exact Hd | exfalso; destruct Hb as [_ Hb];
                           specialize (Hb Hd); lra] ]
     | intros Hd Hw; destruct Hb as [Hb _]; specialize (Hb Hd);
       first [lia | exfalso; lra] ]).
Qed.

End Simulation.

Lemma lcg_uniform_in_range : uniform_in_range lcg_uniform.
Proof.
  intros a b g H. unfold lcg_uniform, LightExamples.lcg_random. cbn [fst].
  pose proof (Z.mod_pos_bound (LightExamples.lcg_next g) 1000 ltac:(lia))
    as [H1 H2].
  rewrite Zle_Qle in H1. rewrite Zlt_Qlt in H2.
  change (inject_Z 0) with 0 in H1. change (inject_Z 1000) with 1000 in H2.
  set (x := inject_Z (LightExamples.lcg_next g mod 1000)) in *.
  assert (E : x == x / 1000 * 1000) by field.
  split; nra.
Qed.

Lemma lcg_random_unit : random_unit LightExamples.lcg_random.
Proof.
  intros g. unfold LightExamples.lcg_random. cbn [fst].
  pose proof (Z.mod_pos_bound (LightExamples.lcg_next g) 1000 ltac:(lia))
    as [H1 H2].
  rewrite Zle_Qle in H1. rewrite Zlt_Qlt in H2.
  change (inject_Z 0) with 0 in H1. change (inject_Z 1000) with 1000 in H2.
  set (x := inject_Z (LightExamples.lcg_next g mod 1000)) in *.
  assert (E : x == x / 1000 * 1000) by field.
  split; lra.
Qed.

(** Rain on a Tuesday evening. *)
Lemma risk_score_and_level_agree_witness :
  let r := fst (get_accident_risk lower_ascii_string LightExamples.lcg_seed
                  lcg_uniform rainy 18 (524 # 10) (169 # 10) tuesday_evening) in
  11 # 10 <= risk_score r <= 10
  /\ ((risk_level r = "high"%string
       /\ 7 <= risk_score r
       /\ In high_risk_line (recommendations r))
      \/ (risk_level r = "medium"%string
          /\ 4 <= risk_score r <= 7
          /\ ~ In high_risk_line (recommendations r))
      \/ (risk_level r = "low"%string
          /\ risk_score r <= 4
          /\ ~ In high_risk_line (recommendations r))).
Proof.
  apply (risk_score_and_level_agree lower_ascii_string Z
           LightExamples.lcg_seed lcg_uniform rainy 18 (524 # 10) (169 # 10)
           tuesday_evening _ lcg_uniform_in_range).
  reflexivity.
Defined.

(** The same evening, between two points in town. *)
Lemma heavy_traffic_only_in_rush_hours_witness :
  (0 <= fst (simulate_traffic_conditions lower_ascii_string
               LightExamples.lcg_seed LightExamples.lcg_random lcg_uniform
               rainy 18 1700000000 (169 # 10, 524 # 10) (17 # 1, 525 # 10)
               tuesday_evening 0%Z) <= 3)%Z
  /\ (fst (simulate_traffic_conditions lower_ascii_string
             LightExamples.lcg_seed LightExamples.lcg_random lcg_uniform
             rainy 18 1700000000 (169 # 10, 524 # 10) (17 # 1, 525 # 10)
             tuesday_evening 0%Z) = 3%Z -> rush (hour tuesday_evening))
  /\ (rush (hour tuesday_evening) -> (weekday tuesday_evening < 5)%Z ->
      (2 <= fst (simulate_traffic_conditions lower_ascii_string
                   LightExamples.lcg_seed LightExamples.lcg_random
                   lcg_uniform rainy 18 1700000000 (169 # 10, 524 # 10)
                   (17 # 1, 525 # 10) tuesday_evening 0%Z))%Z).
Proof.
  apply (heavy_traffic_only_in_rush_hours lower_ascii_string Z
           LightExamples.lcg_seed LightExamples.lcg_random lcg_uniform rainy
           18 1700000000 (169 # 10, 524 # 10) (17 # 1, 525 # 10) tuesday_evening
           0%Z lcg_random_unit).
Defined.

End SafetyFacts.

(** * Properties of the check for traffic updates *)

Module UpdateFacts.
Import RouteUpdates RouteUpdateSpec.
Import RouteFacts.

Lemma enumerate_zip_nth {A B : Type} (a : list A) (b : list B) i x y :
  In (i, (x, y)) (enumerate_zip a b) ->
  nth_error a i = Some x /\ nth_error b i = Some y.
Proof.
  unfold enumerate_zip. intro H.
  assert (G : forall (l : list (A * B)) k j p,
            In (j, p) (combine (seq k (length l)) l) ->
            (k <= j)%nat /\ nth_error l (j - k) = Some p).
  { induction l as [|q t IH]; intros k j p Hin; cbn in Hin; [contradiction|].
    destruct Hin as [E|Hin].
    - injection E as <- <-. rewrite Nat.sub_diag. split; [lia | reflexivity].
    - apply IH in Hin. destruct Hin as [Hk Hn]. split; [lia|].
      replace (j - k)%nat with (S (j - S k)) by lia. exact Hn. }
  apply G in H. destruct H as [_ H]. rewrite Nat.sub_0_r in H.
  clear G. revert b i H.
  induction a as [|a0 a IH]; intros [|b0 b] [|i] H; cbn in H;
    try discriminate.
  - injection H as <- <-. split; reflexivity.
  - cbn [nth_error]. apply IH. exact H.
Qed.

Lemma compare_segments_ok segs new_segs st i old_segment new_segment :
  nth_error segs i = Some old_segment ->
  nth_error new_segs i = Some new_segment ->
  comparison_ok segs new_segs st ->
  comparison_ok segs new_segs
    (compare_segments st (i, (old_segment, new_segment))).
Proof.
  intros Ho Hn (H0 & Hall & Hc). unfold compare_segments.
  destruct (duration old_segment) as [old_d|] eqn:Eo;
    [|split; [|split]; assumption].
  destruct (duration new_segment) as [new_d|] eqn:En;
    [|split; [|split]; assumption].
  destruct (Qeq_bool old_d 0); [split; [|split]; assumption|].
  set (percent := Qabs (new_d - old_d) / old_d * 100).
  unfold comparison_ok. cbn [changes max_change changed_idx].
  destruct (Qltb (max_change st) percent) eqn:E.
  - apply Qltb_lt in E. split; [lra|]. split.
    + apply Forall_app. split.
      * eapply Forall_impl; [|exact Hall]. cbn beta. intros c Hle. lra.
      * constructor; [cbn [change_percent]; lra | constructor].
    + right.
      exists {| change_segment := i; old_duration := old_d;
                new_duration := new_d; change_percent := percent;
                increased := Qltb old_d new_d |}, old_segment, new_segment.
      cbn [change_segment change_percent old_duration new_duration].
      split; [reflexivity|].
      split; [apply in_or_app; right; left; reflexivity|].
      split; [reflexivity|].
      split; [lra|].
      split; [exact Ho|]. split; [exact Hn|]. split; assumption.
  - apply Qltb_ge in E. split; [exact H0|]. split.
    + apply Forall_app. split; [exact Hall|].
      constructor; [cbn [change_percent]; exact E | constructor].
    + destruct Hc as [Hc|(c & o & n & H1 & H2 & H3)]; [left; exact Hc|].
      right. exists c, o, n. split; [exact H1|].
      split; [apply in_or_app; left; exact H2 | exact H3].
Qed.

Lemma compare_all_ok segs new_segs : forall items st,
  (forall i o n, In (i, (o, n)) items ->
                 nth_error segs i = Some o /\ nth_error new_segs i = Some n) ->
  comparison_ok segs new_segs st ->
  comparison_ok segs new_segs (fold_left compare_segments items st).
Proof.
  induction items as [|[i [o n]] t IH]; intros st Hnth Hst; cbn [fold_left].
  - exact Hst.
  - apply IH.
    + intros j o' n' Hin. apply Hnth. now right.
    + destruct (Hnth i o n (or_introl eq_refl)) as [Ho Hn].
      now apply compare_segments_ok.
Qed.

Lemma first_points_defined (segs : list segment) :
  Forall has_first_point segs ->
  exists coords, first_points segs = Some coords.
Proof.
  unfold first_points. intro H.
  assert (G : forall acc, exists coords,
            foldM (fun acc s =>
                     g <- geometry s ;;
                     p <- nth_error g 0 ;;
                     Some (acc ++ [p])) segs acc = Some coords).
  { induction segs as [|s t IH]; intros acc; cbn [foldM]; [eauto|].
    apply Forall_cons_iff in H. destruct H as [(p & g & Hs) Ht].
    rewrite Hs. cbn [bind nth_error]. apply IH. exact Ht. }
  apply G.
Qed.

Lemma reason_text_defined segs new_segs st nu :
  comparison_ok segs new_segs st ->
  exists reason, reason_text nu segs new_segs (changed_idx st) = Some reason
    /\ (nu = false -> reason = "No significant traffic changes"%string).
Proof.
  intros (_ & _ & Hc). unfold reason_text.
  destruct nu; cbn [andb]; [|eauto].
  destruct Hc as [[-> _]|(c & o & n & -> & _ & _ & _ & Ho & Hn & Do & Dn)].
  - cbn. eexists. split; [reflexivity | discriminate].
  - destruct (Z.leb_spec 0 (Z.of_nat (change_segment c))); [|lia].
    rewrite Nat2Z.id, Ho, Hn. cbn [bind]. rewrite Do, Dn. cbn [bind].
    destruct (_ <? _)%Z; eexists; (split; [reflexivity | discriminate]).
Qed.

Section Check.
Variable time_time : Q.
Variable get_route_details : list (Q * Q) -> route_details.

(** For route data with a timestamp at most 600 s old and stored segments
    that all have a first geometry point, the check returns the comparison
    answer: [needs_update] is true exactly when the largest change is at
    least the threshold; the largest change is not negative and bounds
    every recorded change; a positive largest change is the change of a
    recorded segment, which is the [changed_segment] of an answer that
    needs an update; an answer that needs none has [changed_segment] -1,
    no new route and the reason of no significant change, and one that
    needs one carries the route fetched for the segments' first points. *)
Theorem fresh_route_is_compared (data : route_data) (threshold_percent : Q)
  (t : Q) (segs : list segment) :
  timestamp data = Some t -> time_time - t <= 600 ->
  old_details data = Some (Some segs) ->
  Forall has_first_point segs ->
  exists coords needs_update reason m idx chs new_route,
    first_points segs = Some coords
    /\ check_for_traffic_updates time_time get_route_details data
         threshold_percent
       = Some (Compared needs_update reason m idx chs new_route)
    /\ (needs_update = true <-> threshold_percent <= m)
    /\ 0 <= m
    /\ Forall (fun c => change_percent c <= m) chs
    /\ (0 < m ->
        exists c, In c chs /\ change_percent c = m
                  /\ (needs_update = true ->
                      idx = Z.of_nat (change_segment c)))
    /\ (needs_update = false ->
        idx = (-1)%Z /\ new_route = None
        /\ reason = "No significant traffic changes"%string)
    /\ (needs_update = true ->
        new_route = Some (get_route_details coords)).
Proof.
  intros Ht Hfresh Hd Hg.
  destruct (first_points_defined segs Hg) as [coords Hc].
  unfold check_for_traffic_updates. rewrite Ht, Hd, Hc. cbn [bind].
  assert (E : Qltb 600 (time_time - t) = false) by (apply Qltb_ge; exact Hfresh).
  rewrite E.
  set (news := segments (get_route_details coords)).
  set (st := fold_left compare_segments (enumerate_zip segs news)
               {| changes := []; max_change := 0; changed_idx := (-1)%Z |}).
  assert (Hok : comparison_ok segs news st).
  { apply compare_all_ok.
    - intros i o n Hin. now apply enumerate_zip_nth.
    - split; [cbn; lra|]. split; [constructor|]. left. split; reflexivity. }
  destruct (reason_text_defined segs news st
              (Qleb threshold_percent (max_change st)) Hok)
    as (reason & -> & Hreason).
  cbn [bind].
  exists coords, (Qleb threshold_percent (max_change st)), reason.
  eexists. eexists. eexists. eexists.
  split; [reflexivity|]. split; [reflexivity|].
  destruct Hok as (H0 & Hall & Hidx).
  split; [apply LightFacts.Qleb_le|]. split; [exact H0|]. split; [exact Hall|].
  split; [|split].
  - intro Hpos. destruct Hidx as [[_ Hz]|(c & o & n & Hi & Hin & Hp & _)].
    + rewrite Hz in Hpos. lra.
    + exists c. split; [exact Hin|]. split; [exact Hp|].
      intros ->. exact Hi.
  - intros Hn. rewrite Hn. repeat split. apply Hreason. exact Hn.
  - intros ->. reflexivity.
Qed.

End Check.

(** The first leg takes 15 minutes where it took 10. *)
Lemma fresh_route_is_compared_witness :
  exists coords needs_update reason m idx chs new_route,
    first_points UpdateExamples.stored_segments = Some coords
    /\ check_for_traffic_updates 1700000300 UpdateExamples.slower_first_leg
         UpdateExamples.stored_route 15
       = Some (Compared needs_update reason m idx chs new_route)
    /\ (needs_update = true <-> 15 <= m)
    /\ 0 <= m
    /\ Forall (fun c => change_percent c <= m) chs
    /\ (0 < m ->
        exists c, In c chs /\ change_percent c = m
                  /\ (needs_update = true ->
                      idx = Z.of_nat (change_segment c)))
    /\ (needs_update = false ->
        idx = (-1)%Z /\ new_route = None
        /\ reason = "No significant traffic changes"%string)
    /\ (needs_update = true ->
        new_route = Some (UpdateExamples.slower_first_leg coords)).
Proof.
  apply (fresh_route_is_compared 1700000300 UpdateExamples.slower_first_leg
           UpdateExamples.stored_route 15 1700000000
           UpdateExamples.stored_segments).
  - reflexivity.
  - vm_compute. discriminate.
  - reflexivity.
  - repeat constructor; eexists; eexists; reflexivity.
Defined.

End UpdateFacts.

(** * Further properties of [traffic_light_optimizer.py] *)

Module LightMore.
Import TrafficLight LightSpec LightSpecMore LightExamples.
Import RouteFacts LightFacts.

#[local] Existing Instance same_key_equiv.

(** ** The map that [initialize_traffic_light_map] builds *)

Lemma dict_set_values (P : light_info -> Prop) m k v :
  Forall (fun kv => P (snd kv)) m -> P v ->
  Forall (fun kv => P (snd kv)) (dict_set m k v).
Proof.
  intros Hm Hv. induction m as [|[k' v'] t IH]; cbn [dict_set].
  - constructor; [assumption | constructor].
  - inversion Hm; subst. destruct (key_eqb k' k).
    + constructor; assumption.
    + constructor; [assumption | now apply IH].
Qed.

Lemma dict_set_keys m k v :
  Forall (fun kv => same_key (fst kv) (rounded_key (snd kv))) m ->
  same_key k (rounded_key v) ->
  Forall (fun kv => same_key (fst kv) (rounded_key (snd kv))) (dict_set m k v).
Proof.
  intros Hm Hv. induction m as [|[k' v'] t IH]; cbn [dict_set].
  - constructor; [assumption | constructor].
  - inversion Hm; subst. destruct (key_eqb k' k) eqn:E.
    + constructor; [|assumption]. cbn [fst snd].
      apply key_eqb_spec in E. etransitivity; eassumption.
    + constructor; [assumption | now apply IH].
Qed.

Lemma dict_set_InA m k v k0 :
  InA same_key k0 (map fst (dict_set m k v)) ->
  InA same_key k0 (map fst m) \/ same_key k0 k.
Proof.
  induction m as [|[k' v'] t IH]; cbn [dict_set map fst].
  - intro H. inversion H as [? ? E|? ? E]; subst; [now right | inversion E].
  - destruct (key_eqb k' k); cbn [map fst]; intro H.
    + now left.
    + inversion H as [? ? E|? ? E]; subst.
      * left. now constructor.
      * destruct (IH E) as [H'|H']; [left; now constructor 2 | now right].
Qed.

Lemma dict_set_NoDupA m k v :
  NoDupA same_key (map fst m) -> NoDupA same_key (map fst (dict_set m k v)).
Proof.
  induction m as [|[k' v'] t IH]; cbn [dict_set map fst]; intro H.
  - constructor; [|constructor]. intro E. inversion E.
  - inversion H as [|? ? Hnotin Ht]; subst.
    destruct (key_eqb k' k) eqn:E; cbn [map fst].
    + constructor; assumption.
    + constructor; [|now apply IH].
      intro Hin. apply dict_set_InA in Hin. destruct Hin as [Hin|Hin];
        [contradiction|].
      apply key_eqb_spec in Hin. congruence.
Qed.

Lemma dict_set_length m k v :
  (length m <= length (dict_set m k v) <= S (length m))%nat
  /\ (1 <= length (dict_set m k v))%nat.
Proof.
  induction m as [|[k' v'] t IH]; cbn [dict_set]; [cbn; lia|].
  destruct (key_eqb k' k); cbn [length]; lia.
Qed.

Lemma green_share (c : Z) :
  (0 <= c)%Z -> Qtrunc (inject_Z c * (4 # 10)) = (4 * c / 10)%Z.
Proof.
  intro H. unfold Qtrunc, inject_Z, Qmult. cbn [Qnum Qden].
  rewrite Z.quot_div_nonneg by lia. f_equal. lia.
Qed.

Section Generation.
Variable sqrt : Q -> Q.
Variable rng_state : Type.
Variable seed : Z -> rng_state.
Variable random : rng_state -> Q * rng_state.
Variable randint : Z -> Z -> rng_state -> Z * rng_state.
Hypothesis randint_range : randint_in_range randint.

Lemma cycle_range_ok t : (45 <= cycle_min t <= cycle_max t)%Z.
Proof. destruct t; cbn; lia. Qed.

Lemma generate_light_ok a b c d e f (w : world rng_state) :
  map_ok (TRAFFIC_LIGHT_MAP w) ->
  map_ok (TRAFFIC_LIGHT_MAP (generate_light sqrt random randint a b c d e f w))
  /\ (length (TRAFFIC_LIGHT_MAP w)
      <= length (TRAFFIC_LIGHT_MAP
                   (generate_light sqrt random randint a b c d e f w))
      <= S (length (TRAFFIC_LIGHT_MAP w)))%nat
  /\ (1 <= length (TRAFFIC_LIGHT_MAP
                     (generate_light sqrt random randint a b c d e f w)))%nat.
Proof.
  intros (Hw & Hk & Hn). unfold generate_light.
  destruct (random (generator w)) as [distance_factor g1].
  destruct (random g1) as [r2 g2]. destruct (random g2) as [r3 g3].
  match goal with
  | |- context [randint (cycle_min ?t) (cycle_max ?t) g3] =>
      pose proof (cycle_range_ok t) as Hrange;
      pose proof (randint_range (cycle_min t) (cycle_max t) g3
                    (proj2 Hrange)) as Hc;
      destruct (randint (cycle_min t) (cycle_max t) g3) as [cycle g4]
  end.
  cbn [fst] in Hc.
  pose proof (randint_range 0%Z (cycle - 1)%Z g4 ltac:(lia)) as Ho.
  destruct (randint 0%Z (cycle - 1)%Z g4) as [off g5]. cbn [fst] in Ho.
  cbn [TRAFFIC_LIGHT_MAP]. split; [|apply dict_set_length].
  split; [|split].
  - apply dict_set_values; [assumption|].
    unfold well_formed_light. cbn [type cycle_time offset green_time yellow_time].
    rewrite green_share by lia. repeat split; try lia.
    assert (4 * cycle / 10 <= 4 * cycle / 10)%Z by lia.
    assert (10 * (4 * cycle / 10) <= 4 * cycle)%Z
      by (apply Z.mul_div_le; lia).
    lia.
  - apply dict_set_keys; [assumption|]. unfold rounded_key.
    cbn [coordinates fst snd]. reflexivity.
  - now apply dict_set_NoDupA.
Qed.

Lemma repeat_generate_ok k a b c d e f : forall (w : world rng_state),
  map_ok (TRAFFIC_LIGHT_MAP w) ->
  map_ok (TRAFFIC_LIGHT_MAP
            (repeat_generate sqrt random randint k a b c d e f w))
  /\ (length (TRAFFIC_LIGHT_MAP
                (repeat_generate sqrt random randint k a b c d e f w))
      <= length (TRAFFIC_LIGHT_MAP w) + k)%nat
  /\ ((1 <= k)%nat ->
      (1 <= length (TRAFFIC_LIGHT_MAP
                      (repeat_generate sqrt random randint k a b c d e f w)))%nat).
Proof.
  induction k as [|k IH]; intros w Hw; cbn [repeat_generate].
  - split; [assumption|]. split; lia.
  - destruct (generate_light_ok a b c d e f w Hw) as (H1 & H2 & H3).
    destruct (IH _ H1) as (H4 & H5 & H6).
    split; [assumption|]. split; [lia|]. intros _.
    destruct k as [|k']; [cbn [repeat_generate]; assumption | apply H6; lia].
Qed.

(** Whatever the box and the state, the map holds between 1 and 100
    lights after initialisation, no key twice, every light under its
    rounded coordinates, with a cycle within the range of its type, an
    offset within the cycle, 40 % of the cycle green (rounded down), 3 s
    yellow, and green plus yellow shorter than the cycle. *)
Theorem initialized_map_is_well_formed (region_bounds : point * point)
  (w : world rng_state) (m : light_map) :
  m = TRAFFIC_LIGHT_MAP
        (initialize_traffic_light_map sqrt seed random randint
           region_bounds w) ->
  Forall (fun kv => well_formed_light (snd kv)) m
  /\ Forall (fun kv => same_key (fst kv) (rounded_key (snd kv))) m
  /\ NoDupA same_key (map fst m)
  /\ (1 <= length m <= 100)%nat.
Proof.
  intros ->.
  destruct region_bounds as [[min_lon min_lat] [max_lon max_lat]].
  unfold initialize_traffic_light_map.
  match goal with
  | |- context [repeat_generate _ _ _ ?k ?a ?b ?c ?d ?e ?f ?w0] =>
      destruct (repeat_generate_ok k a b c d e f w0) as ((H1 & H2 & H3) & H4 & H5);
      [repeat split; constructor|];
      assert (Hk : (10 <= k <= 100)%nat)
  end.
  { unfold Zmax_py, Zmin_py.
    set (x := Qtrunc ((max_lon - min_lon) * (max_lat - min_lat) * 50000)).
    destruct (Z.ltb_spec x 100) as [L|L].
    - destruct (Z.ltb_spec 10 x); lia.
    - change (10 <? 100)%Z with true. lia. }
  cbn [TRAFFIC_LIGHT_MAP length] in H4.
  repeat split; try assumption; [apply H5|]; lia.
Qed.

(** ** Where the lights are put *)

Hypothesis random_unit : random_in_unit random.

Lemma spread_in_unit (r f : Q) :
  0 <= r < 1 -> 0 <= f < 1 -> 0 <= (5 # 10) + (r - (5 # 10)) * f <= 1.
Proof. intros [H1 H2] [H3 H4]. split; nra. Qed.

Lemma between (lo hi t : Q) :
  lo <= hi -> 0 <= t <= 1 -> lo <= lo + (hi - lo) * t <= hi.
Proof. intros H [H1 H2]. split; nra. Qed.

Lemma generate_light_in_box min_lon min_lat max_lon max_lat e f
  (w : world rng_state) :
  min_lon <= max_lon -> min_lat <= max_lat ->
  Forall (fun kv => in_box ((min_lon, min_lat), (max_lon, max_lat))
                           (coordinates (snd kv)))
         (TRAFFIC_LIGHT_MAP w) ->
  Forall (fun kv => in_box ((min_lon, min_lat), (max_lon, max_lat))
                           (coordinates (snd kv)))
         (TRAFFIC_LIGHT_MAP
            (generate_light sqrt random randint min_lon min_lat max_lon
               max_lat e f w)).
Proof.
  intros Hlon Hlat Hw. unfold generate_light.
  pose proof (random_unit (generator w)) as U1.
  destruct (random (generator w)) as [distance_factor g1].
  pose proof (random_unit g1) as U2. destruct (random g1) as [r2 g2].
  pose proof (random_unit g2) as U3. destruct (random g2) as [r3 g3].
  cbn [fst] in U1, U2, U3.
  match goal with
  | |- context [randint (cycle_min ?t) (cycle_max ?t) g3] =>
      destruct (randint (cycle_min t) (cycle_max t) g3) as [cycle g4]
  end.
  destruct (randint 0%Z (cycle - 1)%Z g4) as [off g5].
  cbn [TRAFFIC_LIGHT_MAP].
  apply (dict_set_values
           (fun l => in_box ((min_lon, min_lat), (max_lon, max_lat))
                            (coordinates l))); [assumption|].
  unfold in_box. cbn [coordinates fst snd].
  split; apply between; auto using spread_in_unit.
Qed.

Lemma repeat_generate_in_box min_lon min_lat max_lon max_lat e f k :
  min_lon <= max_lon -> min_lat <= max_lat ->
  forall (w : world rng_state),
  Forall (fun kv => in_box ((min_lon, min_lat), (max_lon, max_lat))
                           (coordinates (snd kv)))
         (TRAFFIC_LIGHT_MAP w) ->
  Forall (fun kv => in_box ((min_lon, min_lat), (max_lon, max_lat))
                           (coordinates (snd kv)))
         (TRAFFIC_LIGHT_MAP
            (repeat_generate sqrt random randint k min_lon min_lat max_lon
               max_lat e f w)).
Proof.
  intros Hlon Hlat. induction k as [|k IH]; intros w Hw;
    cbn [repeat_generate]; [assumption|].
  apply IH. now apply generate_light_in_box.
Qed.

(** For a box whose corners are in order, every light of the initialised
    map lies inside the box. *)
Theorem initialized_lights_lie_in_box (region_bounds : point * point)
  (w : world rng_state) :
  fst (fst region_bounds) <= fst (snd region_bounds) ->
  snd (fst region_bounds) <= snd (snd region_bounds) ->
  Forall (fun kv => in_box region_bounds (coordinates (snd kv)))
         (TRAFFIC_LIGHT_MAP
            (initialize_traffic_light_map sqrt seed random randint
               region_bounds w)).
Proof.
  destruct region_bounds as [[min_lon min_lat] [max_lon max_lat]].
  cbn [fst snd]. intros Hlon Hlat. unfold initialize_traffic_light_map.
  apply repeat_generate_in_box; try assumption. constructor.
Qed.

End Generation.

Lemma lcg_randint_in_range : randint_in_range lcg_randint.
Proof.
  intros a b g H. unfold lcg_randint. cbn [fst].
  pose proof (Z.mod_pos_bound (lcg_next g) (b - a + 1)). lia.
Qed.

Lemma lcg_random_in_unit : random_in_unit lcg_random.
Proof.
  intros g. unfold lcg_random. cbn [fst].
  pose proof (Z.mod_pos_bound (lcg_next g) 1000 ltac:(lia)) as [H1 H2].
  rewrite Zle_Qle in H1. rewrite Zlt_Qlt in H2.
  change (inject_Z 0) with 0 in H1. change (inject_Z 1000) with 1000 in H2.
  set (x := inject_Z (lcg_next g mod 1000)) in *.
  assert (E : x == x / 1000 * 1000) by field.
  split; lra.
Qed.

(** The box of the specification's scenario. *)
Lemma initialized_map_is_well_formed_witness :
  let m := TRAFFIC_LIGHT_MAP
             (initialize_traffic_light_map exact_root lcg_seed lcg_random
                lcg_randint ((0, 0), (1 # 100, 1 # 100)) no_lights) in
  Forall (fun kv => well_formed_light (snd kv)) m
  /\ Forall (fun kv => same_key (fst kv) (rounded_key (snd kv))) m
  /\ NoDupA same_key (map fst m)
  /\ (1 <= length m <= 100)%nat.
Proof.
  apply (initialized_map_is_well_formed exact_root Z lcg_seed lcg_random
           lcg_randint lcg_randint_in_range ((0, 0), (1 # 100, 1 # 100))
           no_lights).
  reflexivity.
Defined.

Lemma initialized_lights_lie_in_box_witness :
  Forall (fun kv => in_box ((0, 0), (1 # 100, 1 # 100)) (coordinates (snd kv)))
         (TRAFFIC_LIGHT_MAP
            (initialize_traffic_light_map exact_root lcg_seed lcg_random
               lcg_randint ((0, 0), (1 # 100, 1 # 100)) no_lights)).
Proof.
  apply (initialized_lights_lie_in_box exact_root Z lcg_seed lcg_random
           lcg_randint lcg_random_in_unit ((0, 0), (1 # 100, 1 # 100))
           no_lights).
  - cbn. discriminate.
  - cbn. discriminate.
Defined.

(** ** What the detection reports *)

Section DetectionMore.
Variable sqrt : Q -> Q.
Variable rng_state : Type.
Variable seed : Z -> rng_state.
Variable random : rng_state -> Q * rng_state.
Variable randint : Z -> Z -> rng_state -> Z * rng_state.

Variable radius_deg : Q.
Variable route : list point.
Variable m : light_map.
Variable distances : list Q.

Lemma checked_app k l1 l2 :
  checked k (l1 ++ l2) = checked k l1 || checked k l2.
Proof. unfold checked. apply existsb_app. Qed.

Lemma checked_self k : checked k [k] = true.
Proof.
  unfold checked. cbn. rewrite orb_false_r. apply key_eqb_spec. reflexivity.
Qed.

(** The two things one pass of the inner loop can do. *)
Lemma check_light_cases i p st k info st' :
  check_light sqrt radius_deg distances i p st (k, info) = Some st' ->
  (near sqrt radius_deg p k = true /\ checked k (snd st) = false
   /\ exists along, nth_error distances i = Some along
        /\ st' = (fst st ++ [report k info along i], snd st ++ [k]))
  \/ ((near sqrt radius_deg p k = false \/ checked k (snd st) = true)
      /\ st' = st).
Proof.
  destruct st as [found_lights checked_lights]. destruct k as [lon lat].
  unfold check_light, near. cbn [fst snd].
  destruct (Qleb (Qabs (fst p - lon)) radius_deg); cbn [andb];
    [|intros [= <-]; right; auto].
  destruct (Qleb (Qabs (snd p - lat)) radius_deg); cbn [andb];
    [|intros [= <-]; right; auto].
  destruct (checked (lon, lat) checked_lights); cbn [negb];
    [intros [= <-]; right; auto|].
  destruct (Qleb (planar_distance sqrt p (lon, lat)) radius_deg);
    [|intros [= <-]; right; auto].
  destruct (nth_error distances i) as [along|]; cbn [bind]; [|discriminate].
  intros [= <-]. left. repeat split. exists along. split; reflexivity.
Qed.

Lemma sound_snoc found k info along i p :
  sound sqrt radius_deg route m distances found ->
  covered sqrt radius_deg route m i (map found_coordinates found) ->
  nth_error route i = Some p -> In (k, info) m ->
  near sqrt radius_deg p k = true ->
  checked k (map found_coordinates found) = false ->
  nth_error distances i = Some along ->
  sound sqrt radius_deg route m distances (found ++ [report k info along i]).
Proof.
  intros Hs Hc Hp Hin Hnear Hchk Hal f Hf.
  apply in_app_or in Hf. destruct Hf as [Hf|[<-|[]]]; [now apply Hs|].
  exists p, info. cbn [report route_point_index found_coordinates
                        distance_along_route].
  repeat split; try assumption.
  intros j q Hj Hq. destruct (near sqrt radius_deg q k) eqn:E; [|reflexivity].
  rewrite (Hc j q k info Hj Hq Hin E) in Hchk. discriminate.
Qed.

(** One pass over the map for the route point [p] at index [i]. *)
Lemma check_lights_more i p : forall items st st',
  nth_error route i = Some p ->
  (forall item, In item items -> In item m) ->
  snd st = map found_coordinates (fst st) ->
  sound sqrt radius_deg route m distances (fst st) ->
  covered sqrt radius_deg route m i (snd st) ->
  foldM (check_light sqrt radius_deg distances i p) items st = Some st' ->
  snd st' = map found_coordinates (fst st')
  /\ sound sqrt radius_deg route m distances (fst st')
  /\ covered sqrt radius_deg route m i (snd st')
  /\ (forall k, checked k (snd st) = true -> checked k (snd st') = true)
  /\ (forall k info, In (k, info) items ->
        near sqrt radius_deg p k = true -> checked k (snd st') = true).
Proof.
  induction items as [|[k info] t IH]; intros st st' Hp Hsub Hk Hs Hc H;
    cbn [foldM] in H.
  - inversion H; subst. repeat split; auto; intros ? ? [].
  - destruct (check_light sqrt radius_deg distances i p st (k, info))
      as [st1|] eqn:E1; cbn [bind] in H; [|discriminate].
    assert (Hin : In (k, info) m) by (apply Hsub; now left).
    assert (Hsub' : forall item, In item t -> In item m)
      by (intros; apply Hsub; now right).
    apply check_light_cases in E1.
    destruct E1 as [(Hnear & Hchk & along & Hal & ->)|(Hskip & ->)].
    + destruct (IH (fst st ++ [report k info along i], snd st ++ [k]) st')
        as (K & Sd & Cv & M & N); auto.
      * cbn [fst snd]. rewrite map_app, Hk. reflexivity.
      * cbn [fst]. rewrite Hk in Hc, Hchk. eapply sound_snoc; eassumption.
      * cbn [snd]. intros j q k0 info0 Hj Hq Hin0 Hn0.
        rewrite checked_app, (Hc j q k0 info0 Hj Hq Hin0 Hn0). reflexivity.
      * repeat split; auto.
        -- intros k0 H0. apply M. cbn [snd]. rewrite checked_app, H0.
           reflexivity.
        -- intros k0 info0 [[= <- <-]|Hin0] Hn0; [|eapply N; eassumption].
           apply M. cbn [snd]. rewrite checked_app, checked_self.
           apply orb_true_r.
    + destruct (IH st st') as (K & Sd & Cv & M & N); auto.
      repeat split; auto.
      intros k0 info0 [[= <- <-]|Hin0] Hn0; [|eapply N; eassumption].
      apply M. destruct Hskip as [Hf|Ht]; [congruence | assumption].
Qed.

Lemma scan_route_more : forall points i st st',
  (forall k p, nth_error points k = Some p ->
               nth_error route (i + k) = Some p) ->
  snd st = map found_coordinates (fst st) ->
  sound sqrt radius_deg route m distances (fst st) ->
  covered sqrt radius_deg route m i (snd st) ->
  scan_route sqrt radius_deg distances m i points st = Some st' ->
  snd st' = map found_coordinates (fst st')
  /\ sound sqrt radius_deg route m distances (fst st')
  /\ covered sqrt radius_deg route m (i + length points) (snd st').
Proof.
  induction points as [|p rest IH]; intros i st st' Hpts Hk Hs Hc H;
    cbn [scan_route] in H.
  - inversion H; subst. cbn [length]. rewrite Nat.add_0_r. auto.
  - destruct (foldM (check_light sqrt radius_deg distances i p) m st)
      as [st1|] eqn:E1; cbn [bind] in H; [|discriminate].
    assert (Hp : nth_error route i = Some p).
    { rewrite <- (Nat.add_0_r i). apply Hpts. reflexivity. }
    destruct (check_lights_more i p m st st1 Hp (fun _ h => h) Hk Hs Hc E1)
      as (K & Sd & Cv & M & N).
    destruct (IH (S i) st1 st') as (K' & Sd' & Cv'); auto.
    + intros k q Hq. replace (S i + k)%nat with (i + S k)%nat by lia.
      apply Hpts. exact Hq.
    + intros j q k info Hj Hq Hin Hn.
      destruct (Nat.eq_dec j i) as [->|Hne].
      * rewrite Hp in Hq. inversion Hq; subst. eapply N; eassumption.
      * apply (Cv j q k info); try assumption. lia.
    + repeat split; auto. cbn [length].
      now replace (i + S (length rest))%nat with (S i + length rest)%nat by lia.
Qed.

End DetectionMore.

Section DetectionResult.
Variable sqrt : Q -> Q.
Variable rng_state : Type.
Variable seed : Z -> rng_state.
Variable random : rng_state -> Q * rng_state.
Variable randint : Z -> Z -> rng_state -> Z * rng_state.

Lemma detect_scan route radius_meters (w : world rng_state) :
  route <> [] \/ TRAFFIC_LIGHT_MAP w <> [] ->
  exists st w',
    detect_traffic_lights_on_route sqrt seed random randint route
      radius_meters w = Some (sort_by_distance (fst st), w')
    /\ snd st = map found_coordinates (fst st)
    /\ sound sqrt (radius_meters * (9 # 1000000)) route (TRAFFIC_LIGHT_MAP w')
         (route_distances sqrt route) (fst st)
    /\ covered sqrt (radius_meters * (9 # 1000000)) route
         (TRAFFIC_LIGHT_MAP w') (length route) (snd st).
Proof.
  intros H. unfold detect_traffic_lights_on_route.
  destruct (ensure_map_defined sqrt rng_state seed random randint route w H)
    as [w1 ->]. cbn [bind].
  destruct (scan_route_inv sqrt (radius_meters * (9 # 1000000))
              (route_distances sqrt route) (TRAFFIC_LIGHT_MAP w1) route
              0%nat ([], [])) as [st [E _]].
  - apply route_distances_length.
  - split; [reflexivity | constructor].
  - rewrite E. cbn [bind]. exists st, w1. split; [reflexivity|].
    apply (scan_route_more sqrt (radius_meters * (9 # 1000000)) route
             (TRAFFIC_LIGHT_MAP w1) (route_distances sqrt route) route 0%nat
             ([], []) st).
    + intros k p Hp. exact Hp.
    + reflexivity.
    + intros f [].
    + intros j q k info Hj. lia.
    + exact E.
Qed.

(** Whenever the route or the current map is not empty, every entry that
    [detect_traffic_lights_on_route] returns is a light of the map in use:
    its key is a key of the map, its timing fields are copied from the
    map's record, it lies within the radius of the route point at its
    [route_point_index], no earlier route point has it within the radius,
    and its [distance_along_route] is the entry of the distance list at
    that index. *)
Theorem detected_lights_come_from_the_map route radius_meters
  (w : world rng_state) :
  route <> [] \/ TRAFFIC_LIGHT_MAP w <> [] ->
  exists found w',
    detect_traffic_lights_on_route sqrt seed random randint route
      radius_meters w = Some (found, w')
    /\ sound sqrt (radius_meters * (9 # 1000000)) route (TRAFFIC_LIGHT_MAP w')
         (route_distances sqrt route) found.
Proof.
  intros H. destruct (detect_scan route radius_meters w H)
    as (st & w' & E & _ & Hs & _).
  exists (sort_by_distance (fst st)), w'. split; [exact E|].
  intros f Hf. apply Hs.
  destruct (sort_by_distance_spec (fst st)) as [P _].
  exact (Permutation_in f P Hf).
Qed.

(** Whenever the route or the current map is not empty, the detection
    misses nothing: a light of the map in use that lies within the radius
    of some route point has an entry with its key in the returned list. *)
Theorem every_light_near_the_route_is_detected route radius_meters
  (w : world rng_state) :
  route <> [] \/ TRAFFIC_LIGHT_MAP w <> [] ->
  exists found w',
    detect_traffic_lights_on_route sqrt seed random randint route
      radius_meters w = Some (found, w')
    /\ forall j q k info,
         nth_error route j = Some q ->
         In (k, info) (TRAFFIC_LIGHT_MAP w') ->
         near sqrt (radius_meters * (9 # 1000000)) q k = true ->
         exists f, In f found /\ same_key k (found_coordinates f).
Proof.
  intros H. destruct (detect_scan route radius_meters w H)
    as (st & w' & E & Hk & _ & Hc).
  exists (sort_by_distance (fst st)), w'. split; [exact E|].
  intros j q k info Hq Hin Hn.
  assert (Hj : (j < length route)%nat).
  { apply nth_error_Some. congruence. }
  pose proof (Hc j q k info Hj Hq Hin Hn) as Hchk.
  rewrite Hk in Hchk. apply checked_spec in Hchk. apply InA_alt in Hchk.
  destruct Hchk as (c & Hsame & Hc').
  apply in_map_iff in Hc'. destruct Hc' as (f & <- & Hf).
  exists f. split; [|exact Hsame].
  destruct (sort_by_distance_spec (fst st)) as [P _].
  exact (Permutation_in f (Permutation_sym P) Hf).
Qed.

End DetectionResult.

Lemma detected_lights_come_from_the_map_witness :
  exists found w',
    detect_traffic_lights_on_route exact_root lcg_seed lcg_random lcg_randint
      loop_route 30 two_lights = Some (found, w')
    /\ sound exact_root (30 * (9 # 1000000)) loop_route (TRAFFIC_LIGHT_MAP w')
         (route_distances exact_root loop_route) found.
Proof.
  apply (detected_lights_come_from_the_map exact_root Z lcg_seed lcg_random
           lcg_randint loop_route 30 two_lights).
  left. discriminate.
Defined.

Lemma every_light_near_the_route_is_detected_witness :
  exists found w',
    detect_traffic_lights_on_route exact_root lcg_seed lcg_random lcg_randint
      loop_route 30 two_lights = Some (found, w')
    /\ forall j q k info,
         nth_error loop_route j = Some q ->
         In (k, info) (TRAFFIC_LIGHT_MAP w') ->
         near exact_root (30 * (9 # 1000000)) q k = true ->
         exists f, In f found /\ same_key k (found_coordinates f).
Proof.
  apply (every_light_near_the_route_is_detected exact_root Z lcg_seed
           lcg_random lcg_randint loop_route 30 two_lights).
  left. discriminate.
Defined.

(** ** What the speed advisor suggests *)

Lemma round_half_even_comp (x y : Q) :
  x == y -> round_half_even x = round_half_even y.
Proof.
  intro H. unfold round_half_even.
  rewrite (Qfloor_comp x y H).
  assert (E : x - inject_Z (Qfloor y) == y - inject_Z (Qfloor y))
    by (rewrite H; reflexivity).
  rewrite (Qcompare_comp _ _ E (1 # 2) (1 # 2) (Qeq_refl _)). reflexivity.
Qed.

Lemma timedelta_seconds_comp (x y : Q) :
  x == y -> timedelta_seconds x = timedelta_seconds y.
Proof.
  intro H. unfold timedelta_seconds. apply round_half_even_comp.
  rewrite H. reflexivity.
Qed.

(** Every candidate speed is at least [min_speed]; a candidate above
    [max_speed] is [min_speed] itself. *)
Lemma test_speeds_range min_speed max_speed s :
  In s (test_speeds min_speed max_speed) ->
  min_speed <= s /\ (s <= max_speed \/ s == min_speed).
Proof.
  unfold test_speeds. intro H. apply in_map_iff in H.
  destruct H as (i & <- & Hi). apply in_seq in Hi.
  assert (H0 : 0 <= inject_Z (Z.of_nat i)).
  { change 0 with (inject_Z 0). rewrite <- Zle_Qle. lia. }
  split; [lra|].
  destruct i as [|i];
    [right; change (inject_Z (Z.of_nat 0)) with 0; lra|]. left.
  set (x := (max_speed - min_speed) / (5 # 10)) in *.
  assert (Hx : 0 <= x).
  { destruct (Qlt_le_dec x 0) as [Hneg|]; [|assumption]. exfalso.
    assert (Ht : (Qtrunc x <= 0)%Z).
    { unfold Qtrunc. destruct x as [a b]. unfold Qlt in Hneg.
      cbn [Qnum Qden] in *. apply Z.quot_le_upper_bound; lia. }
    lia. }
  rewrite (RouteMore.Qtrunc_floor x Hx) in Hi.
  assert (Hle : (Z.of_nat (S i) <= Qfloor x)%Z) by lia.
  rewrite Zle_Qle in Hle.
  pose proof (Qfloor_le x) as Hf.
  assert (Ex : max_speed - min_speed == x * (5 # 10)) by (unfold x; field).
  lra.
Qed.

Section Advisor.
Variable light : light_info.
Variable current_time : datetime.
Variable current_speed distance_to_light : Q.
Variable base_delay : Z.
Variable base_status : status.

Hypothesis base_estimate :
  estimate_traffic_light_delay light
    (current_time + timedelta_seconds (distance_to_light / current_speed))%Z
  = Some (base_delay, base_status).

(** While the loop runs, [best_speed] is the current speed with the
    baseline delay, or a candidate other than the current speed with a
    smaller delay. *)
Lemma search_best (ok : Q -> Prop) b0 : forall speeds b b',
  best_speed b0 = current_speed -> best_delay b0 = base_delay ->
  Forall ok speeds ->
  (best_delay b <= base_delay)%Z ->
  b = b0 \/ ((best_delay b < base_delay)%Z
             /\ ~ best_speed b == current_speed /\ ok (best_speed b)) ->
  search light current_time distance_to_light speeds b = Some b' ->
  b' = b0 \/ ((best_delay b' < base_delay)%Z
              /\ ~ best_speed b' == current_speed /\ ok (best_speed b')).
Proof.
  induction speeds as [|v rest IH]; intros b b' Hs0 Hd0 Hok Hle Hb H;
    cbn [search] in H.
  - injection H as <-. exact Hb.
  - apply Forall_cons_iff in Hok. destruct Hok as [Hv Hrest].
    destruct (estimate_traffic_light_delay light
                (current_time + timedelta_seconds (distance_to_light / v))%Z)
      as [[test_delay test_status]|] eqn:Et; cbn [bind] in H; [|discriminate].
    assert (Hnew : (test_delay < best_delay b)%Z ->
              (test_delay < best_delay b0)%Z /\ ~ v == best_speed b0 /\ ok v).
    { intro L. split; [lia|]. split; [|exact Hv]. intro Ev.
      rewrite Hs0 in Ev.
      assert (Ed : distance_to_light / v == distance_to_light / current_speed)
        by (rewrite Ev; reflexivity).
      rewrite (timedelta_seconds_comp _ _ Ed), base_estimate in Et.
      injection Et as E1 E2. lia. }
    destruct (Z.ltb_spec test_delay (best_delay b)) as [L|L].
    + destruct (Hnew L) as (H1 & H2 & H3). rewrite Hs0 in H2.
      destruct (status_eqb test_status green).
      * injection H as <-. right. cbn [best_delay best_speed].
        repeat split; [lia | exact H2 | exact H3].
      * apply (IH _ b' Hs0 Hd0 Hrest) in H; [exact H | cbn; lia |].
        right. cbn [best_delay best_speed].
        repeat split; [lia | exact H2 | exact H3].
    + destruct (status_eqb test_status green).
      * injection H as <-. exact Hb.
      * exact (IH b b' Hs0 Hd0 Hrest Hle Hb H).
Qed.

End Advisor.

Lemma Qmax_py_spec (a b : Q) : a <= Qmax_py a b /\ b <= Qmax_py a b.
Proof.
  unfold Qmax_py. destruct (Qltb a b) eqn:E.
  - apply Qltb_lt in E. split; lra.
  - split; [lra|]. destruct (Qlt_le_dec a b) as [L|L]; [|exact L].
    apply Qltb_lt in L. congruence.
Qed.

Lemma Qmin_py_spec (a b : Q) : Qmin_py a b <= a /\ Qmin_py a b <= b.
Proof.
  unfold Qmin_py. destruct (Qltb b a) eqn:E.
  - apply Qltb_lt in E. split; lra.
  - split; [lra|]. destruct (Qlt_le_dec b a) as [L|L]; [|exact L].
    apply Qltb_lt in L. congruence.
Qed.

(** The two kinds of advisory: the current speed kept with nothing saved,
    or another speed out of the tested ones with something saved. *)
Lemma advisor_cases light (current_time : datetime)
  (current_speed distance_to_light : Q) :
  0 < current_speed ->
  cycle_time light <> 0%Z ->
  (green_time light + yellow_time light < cycle_time light)%Z ->
  exists a,
    optimize_arrival_time light current_time current_speed distance_to_light
    = Some (Advice a)
    /\ ((optimized a = false /\ suggested_speed a = current_speed
         /\ time_saved a = 0%Z)
        \/ (optimized a = true /\ (0 < time_saved a)%Z
            /\ In (suggested_speed a)
                  (test_speeds (Qmax_py (current_speed * (8 # 10)) 5)
                               (Qmin_py (current_speed * (12 # 10)) 30)))).
Proof.
  intros Hs Hc Hr. unfold optimize_arrival_time.
  assert (E : Qleb current_speed 0 = false).
  { destruct (Qleb current_speed 0) eqn:E; [|reflexivity].
    apply Qleb_le in E. lra. }
  rewrite E.
  destruct (estimate_defined light
              (current_time
               + timedelta_seconds (distance_to_light / current_speed))%Z Hc Hr)
    as (dl & st & Hbase).
  rewrite Hbase. cbn [bind].
  destruct (status_eqb st green).
  - eexists. split; [reflexivity|]. left. cbn. auto.
  - set (speeds := test_speeds (Qmax_py (current_speed * (8 # 10)) 5)
                               (Qmin_py (current_speed * (12 # 10)) 30)).
    set (b0 := {| best_speed := current_speed; best_delay := dl;
                  best_status := st;
                  best_arrival :=
                    (current_time
                     + timedelta_seconds (distance_to_light / current_speed))%Z |}).
    destruct (search_defined light current_time distance_to_light speeds Hc Hr b0)
      as [b' Hb'].
    rewrite Hb'. cbn [bind].
    destruct (search_best light current_time current_speed distance_to_light
                dl st Hbase (fun s => In s speeds) b0 speeds b0 b')
      as [->|(Hlt & Hne & Hin)].
    + reflexivity.
    + reflexivity.
    + apply Forall_forall. auto.
    + cbn. lia.
    + now left.
    + exact Hb'.
    + cbn [best_speed b0]. rewrite (proj2 (Qeq_bool_iff _ _) (Qeq_refl _)).
      eexists. split; [reflexivity|]. left. cbn. repeat split. lia.
    + destruct (Qeq_bool (best_speed b') current_speed) eqn:Eq.
      * apply Qeq_bool_iff in Eq. contradiction.
      * eexists. split; [reflexivity|]. right. cbn. repeat split;
          [lia | exact Hin].
Qed.





(** ** The analysis of a whole route *)

Import LightAnalysis LightAnalysisSpec.

Lemma estimate_delay_range light t d s :
  estimate_traffic_light_delay light t = Some (d, s) -> (0 <= d <= 30)%Z.
Proof.
  unfold estimate_traffic_light_delay, delay_green, delay_yellow,
    delay_red_start, delay_red_middle, delay_red_end.
  destruct (py_mod _ _) as [pos|]; cbn [bind]; [|discriminate].
  destruct (pos <? green_time light)%Z; [intros [= <- <-]; lia|].
  destruct (pos <? green_time light + yellow_time light)%Z;
    [intros [= <- <-]; lia|].
  destruct (py_div _ _) as [f|]; cbn [bind]; [|discriminate].
  destruct (Qltb f (25 # 100)); [intros [= <- <-]; lia|].
  destruct (Qltb f (75 # 100)); intros [= <- <-]; lia.
Qed.

Lemma firstn_snoc {A : Type} (l : list A) : forall i x,
  nth_error l i = Some x -> firstn (S i) l = firstn i l ++ [x].
Proof.
  induction l as [|y t IH]; intros [|i] x H; cbn in H; try discriminate.
  - injection H as ->. reflexivity.
  - cbn [firstn app]. f_equal. apply (IH i x H).
Qed.

Lemma sum_Z_app l1 l2 : sum_Z (l1 ++ l2) = (sum_Z l1 + sum_Z l2)%Z.
Proof.
  unfold sum_Z. induction l1 as [|x t IH]; cbn [app fold_right]; lia.
Qed.

Lemma sum_Z_bounds (rs : list light_result) :
  Forall result_ok rs ->
  (0 <= sum_Z (map optimized_delay rs) <= sum_Z (map original_delay rs))%Z.
Proof.
  unfold sum_Z.
  induction 1 as [|r t [H0 Hr] _ IH]; cbn [map fold_right]; [lia|].
  rewrite Hr. destruct (optimized (optimization r)); lia.
Qed.

Section Analysis.
Variable start_time : datetime.
Variable average_speed_ms : Q.
Variable lights : list found_light.

Hypothesis speed_positive : 0 < average_speed_ms.
Hypothesis lights_estimable :
  Forall (fun f => estimable (as_light_info f)) lights.

Lemma analyze_light_ok i light st :
  nth_error lights i = Some light ->
  progress_ok lights i st ->
  exists st', analyze_light start_time average_speed_ms lights st (i, light)
              = Some st'
              /\ progress_ok lights (S i) st'.
Proof.
  intros Hi (Hp & Hc & Hr & Ho & Hz).
  assert (He : estimable (as_light_info light)).
  { rewrite Forall_forall in lights_estimable. apply lights_estimable.
    eapply nth_error_In; eassumption. }
  destruct He as [Hcy Hred].
  unfold analyze_light, py_fdiv.
  destruct (Qeq_bool average_speed_ms 0) eqn:E0.
  { apply Qeq_bool_iff in E0. lra. }
  cbn [bind].
  destruct (estimate_defined (as_light_info light)
              (start_time
               + timedelta_seconds
                   (distance_along_route light * 111000 / average_speed_ms))%Z
              Hcy Hred) as (d & s & Hest).
  rewrite Hest. cbn [bind].
  assert (Hprev : exists previous,
            match i with
            | O => Some (and_or_zero false 0)
            | S j => prev <- nth_error lights j ;;
                     Some (and_or_zero true (distance_along_route prev * 111000))
            end = Some previous).
  { destruct i as [|j]; [eauto|].
    destruct (nth_error lights j) as [prev|] eqn:Ej; cbn [bind]; [eauto|].
    apply nth_error_None in Ej.
    assert (S j < length lights)%nat by (apply nth_error_Some; congruence).
    lia. }
  destruct Hprev as [previous ->]. cbn [bind].
  destruct (advisor_cases (as_light_info light) (current_time st)
              average_speed_ms
              (distance_along_route light * 111000 - previous)
              speed_positive Hcy Hred) as (a & -> & _).
  cbn [bind].
  pose proof (estimate_delay_range _ _ _ _ Hest) as Hd.
  assert (Hfirst : firstn (S i) lights = firstn i lights ++ [light])
    by (apply firstn_snoc; exact Hi).
  destruct (optimized a) eqn:Eopt; eexists; (split; [reflexivity|]);
    unfold progress_ok;
    cbn [results original_total optimized_total];
    rewrite !map_app, !sum_Z_app, Hp, Ho, Hz, Hfirst, map_app, Hc;
    (split; [|split; [|split; [|split]]]);
    [ rewrite seq_S; cbn [map position]; do 2 f_equal; lia
    | reflexivity
    | apply Forall_app; split; [exact Hr|]; constructor; [|constructor];
      split; cbn [original_delay optimized_delay optimization];
      [lia | rewrite Eopt; reflexivity]
    | unfold sum_Z; cbn [map fold_right original_delay]; lia
    | unfold sum_Z; cbn [map fold_right optimized_delay]; lia
    | rewrite seq_S; cbn [map position]; do 2 f_equal; lia
    | reflexivity
    | apply Forall_app; split; [exact Hr|]; constructor; [|constructor];
      split; cbn [original_delay optimized_delay optimization];
      [lia | rewrite Eopt; reflexivity]
    | unfold sum_Z; cbn [map fold_right original_delay]; lia
    | unfold sum_Z; cbn [map fold_right optimized_delay]; lia ].
Qed.

Lemma analyze_lights_ok : forall rest i st,
  (forall k light, nth_error rest k = Some light ->
                   nth_error lights (i + k) = Some light) ->
  progress_ok lights i st ->
  exists st',
    foldM (analyze_light start_time average_speed_ms lights)
      (combine (seq i (length rest)) rest) st = Some st'
    /\ progress_ok lights (i + length rest) st'.
Proof.
  induction rest as [|light rest IH]; intros i st Hnth Hst;
    cbn [length seq combine foldM].
  - exists st. rewrite Nat.add_0_r. auto.
  - assert (Hi : nth_error lights i = Some light).
    { rewrite <- (Nat.add_0_r i). apply Hnth. reflexivity. }
    destruct (analyze_light_ok i light st Hi Hst) as (st1 & -> & H1).
    cbn [bind].
    destruct (IH (S i) st1) as (st' & -> & H'); [|exact H1|].
    + intros k l Hk. replace (S i + k)%nat with (i + S k)%nat by lia.
      apply Hnth. exact Hk.
    + exists st'. split; [reflexivity|].
      now replace (i + S (length rest))%nat with (S i + length rest)%nat by lia.
Qed.

End Analysis.

Section RouteAnalysis.
Variable sqrt : Q -> Q.
Variable rng_state : Type.
Variable seed : Z -> rng_state.
Variable random : rng_state -> Q * rng_state.
Variable randint : Z -> Z -> rng_state -> Z * rng_state.
Variable now : datetime.

Lemma ensure_map_keeps route (w : world rng_state) :
  TRAFFIC_LIGHT_MAP w <> [] ->
  ensure_map sqrt seed random randint route w = Some w.
Proof.
  intro H. unfold ensure_map.
  destruct (TRAFFIC_LIGHT_MAP w); [contradiction | reflexivity].
Qed.

(** With a map in place the detection keeps it, and what it finds carries
    the timing of lights of the map. *)
Lemma detect_keeps_map route radius_meters (w : world rng_state) :
  TRAFFIC_LIGHT_MAP w <> [] ->
  Forall (fun kv => estimable (snd kv)) (TRAFFIC_LIGHT_MAP w) ->
  exists lights,
    detect_traffic_lights_on_route sqrt seed random randint route
      radius_meters w = Some (lights, w)
    /\ Forall (fun f => estimable (as_light_info f)) lights.
Proof.
  intros Hm He.
  destruct (detect_scan sqrt rng_state seed random randint route
              radius_meters w (or_intror Hm))
    as (st & w' & E & _ & Hs & _).
  assert (Ew : w' = w).
  { unfold detect_traffic_lights_on_route in E.
    rewrite (ensure_map_keeps route w Hm) in E. cbn [bind] in E.
    destruct (scan_route _ _ _ _ _ _ _) as [st0|]; cbn [bind] in E;
      [|discriminate].
    now injection E as _ <-. }
  subst w'. exists (sort_by_distance (fst st)). split; [exact E|].
  apply Forall_forall. intros f Hf.
  destruct (sort_by_distance_spec (fst st)) as [P _].
  destruct (Hs f (Permutation_in f P Hf)) as (p & info & _ & Hin & _ & Hrep & _).
  rewrite Forall_forall in He. specialize (He _ Hin). cbn [snd] in He.
  rewrite Hrep. exact He.
Qed.

Lemma enumerate_progress average_speed_ms (lights : list found_light) :
  0 < average_speed_ms ->
  Forall (fun f => estimable (as_light_info f)) lights ->
  exists st,
    foldM (analyze_light now average_speed_ms lights) (enumerate lights)
      {| current_time := now; results := []; original_total := 0;
         optimized_total := 0; advices := [] |} = Some st
    /\ progress_ok lights (length lights) st.
Proof.
  intros Hs He.
  apply (analyze_lights_ok now average_speed_ms lights Hs He lights 0%nat).
  - intros k light H. exact H.
  - unfold progress_ok. cbn. repeat split. constructor.
Qed.


(** With an average speed that is not positive, the analysis of a route
    on which a light is detected raises (the division by a zero speed at
    line 404, or the missing key ['optimized'] of the advisor's failure
    answer at line 417): it does not return the failure answer. *)
Theorem route_analysis_raises_without_speed (segs : list segment)
  (average_speed_ms : Q) (w w1 : world rng_state)
  (light : found_light) (lights : list found_light) :
  average_speed_ms <= 0 ->
  detect_traffic_lights_on_route sqrt seed random randint
    (collect_geometry segs) 30 w = Some (light :: lights, w1) ->
  analyze_route_for_lights sqrt seed random randint now
    (Some {| segments := Some segs |}) average_speed_ms w = None.
Proof.
  intros Hs E. unfold analyze_route_for_lights. rewrite E. cbn [bind].
  unfold enumerate. cbn [length seq combine foldM].
  assert (H1 : analyze_light now average_speed_ms (light :: lights)
                 {| current_time := now; results := []; original_total := 0;
                    optimized_total := 0; advices := [] |} (0%nat, light)
               = None).
  { unfold analyze_light, py_fdiv.
    destruct (Qeq_bool average_speed_ms 0); [reflexivity|]. cbn [bind].
    destruct (estimate_traffic_light_delay _ _) as [[d s]|]; [|reflexivity].
    cbn [bind]. unfold optimize_arrival_time.
    rewrite (proj2 (Qleb_le average_speed_ms 0) Hs). reflexivity. }
  rewrite H1. reflexivity.
Qed.

(** [get_light_timing_for_route] returns for every route and every state
    of the map: its list is in ascending order of [distance], no two
    entries have the same coordinates, and with no route point and no
    map, where the detection raises, it is empty and the map stays
    empty. *)
Theorem light_timing_is_sorted_and_distinct (route : list point)
  (w : world rng_state) :
  StronglySorted by_simple_distance
    (fst (get_light_timing_for_route sqrt seed random randint route w))
  /\ NoDupA same_key
       (map simple_coordinates
          (fst (get_light_timing_for_route sqrt seed random randint route w)))
  /\ get_light_timing_for_route sqrt seed random randint []
       {| TRAFFIC_LIGHT_MAP := []; generator := generator w |}
     = ([], {| TRAFFIC_LIGHT_MAP := []; generator := generator w |}).
Proof.
  unfold get_light_timing_for_route.
  split; [|split].
  - destruct (detect_traffic_lights_on_route _ _ _ _ _ _ _)
      as [[lights w1]|] eqn:E; cbn [fst]; [|constructor].
    unfold detect_traffic_lights_on_route in E.
    destruct (ensure_map _ _ _ _ _ _) as [w0|]; cbn [bind] in E;
      [|discriminate].
    destruct (scan_route _ _ _ _ _ _ _) as [st|]; cbn [bind] in E;
      [|discriminate].
    injection E as <- _.
    destruct (sort_by_distance_spec (fst st)) as [_ S].
    induction S as [|f t _ IH Hf]; cbn [map]; constructor; [exact IH|].
    rewrite Forall_forall in Hf. apply Forall_forall. intros x Hx.
    apply in_map_iff in Hx. destruct Hx as (g & <- & Hg).
    specialize (Hf g Hg). unfold by_distance in Hf.
    unfold by_simple_distance, simplify. cbn [simple_distance]. lra.
  - destruct (detect_traffic_lights_on_route _ _ _ _ _ _ _)
      as [[lights w1]|] eqn:E; cbn [fst map]; [|constructor].
    unfold detect_traffic_lights_on_route in E.
    destruct (ensure_map _ _ _ _ _ _) as [w0|]; cbn [bind] in E;
      [|discriminate].
    destruct (scan_route_inv sqrt (30 * (9 # 1000000))
                (route_distances sqrt route) (TRAFFIC_LIGHT_MAP w0) route
                0%nat ([], [])) as [st [Es [Hk Hn]]].
    + apply route_distances_length.
    + split; [reflexivity | constructor].
    + rewrite Es in E. cbn [bind] in E. injection E as <- _.
      rewrite map_map. cbn [simplify simple_coordinates].
      change (map (fun x => found_coordinates x) (sort_by_distance (fst st)))
        with (map found_coordinates (sort_by_distance (fst st))).
      destruct (sort_by_distance_spec (fst st)) as [P _].
      rewrite Hk in Hn.
      eapply PermutationA_preserves_NoDupA;
        [exact same_key_equiv | | exact Hn].
      apply Permutation_PermutationA; [exact same_key_equiv|].
      apply Permutation_map. symmetry. exact P.
  - reflexivity.
Qed.

End RouteAnalysis.


(** The same route at speed 0. *)
Lemma route_analysis_raises_without_speed_witness :
  analyze_route_for_lights exact_root lcg_seed lcg_random lcg_randint 0%Z
    (Some {| segments := Some [{| geometry := Some loop_route |}] |})
    0 two_lights = None.
Proof.
  eapply (route_analysis_raises_without_speed exact_root Z lcg_seed
            lcg_random lcg_randint 0%Z [{| geometry := Some loop_route |}]
            0 two_lights).
  - discriminate.
  - vm_compute. reflexivity.
Defined.

(** The looping route: the distance recorded at its third point. *)
Lemma route_distances_miss_first_segment_witness :
  (1 # 200) == path_length exact_root
                  (firstn 2 [(3 # 1000, 4 # 1000); (6 # 1000, 8 # 1000);
                             (3 # 1000, 4 # 1000)])
  /\ (1 # 200) + planar_distance exact_root (3 # 1000, 4 # 1000) (0, 0)
     == path_length exact_root (firstn 3 loop_route).
Proof.
  apply (route_distances_miss_first_segment exact_root (0, 0)
           (3 # 1000, 4 # 1000)
           [(6 # 1000, 8 # 1000); (3 # 1000, 4 # 1000)] 1 (1 # 200)).
  - vm_compute. reflexivity.
  - cbn. lia.
Defined.

End LightMore.
